(** * vite-plugin-fontless: the CSS font rewriter

    A shallow embedding of [fontless], the plugin the demo imports from
    lib/vite/plugin: the stylesheet rewrite [transformCSS] with its nested
    [addFontFaceDeclaration] and [processNode], and the hooks
    [configResolved], [renderChunk] and [generateBundle].

    Strings are [string]; the two per-stylesheet sets are [gset string]; the
    preload registry is a JavaScript [Map<string, Set<string>>] whose values
    are shared objects, so it is a map from ids to references into a store of
    sets.  An [async] function is a state machine: one constructor per
    [await], resumed by a scheduler that picks any pending task. *)

From stdpp Require Import base gmap sets list strings.
From Stdlib Require Import Ascii.
From Stdlib Require String.

#[local] Set Warnings "-register-all,-clear-no-such-hyp".

(** ** Text helpers *)

(** [Array.prototype.join]. *)
Definition join (sep : string) (parts : list string) : string :=
  String.concat sep parts.

(** [String.prototype.startsWith]. *)
Definition startsWith (p s : string) : bool := String.prefix p s.

(** [String.prototype.endsWith]. *)
Definition endsWith (p s : string) : bool :=
  let n := String.length s in
  let k := String.length p in
  (k <=? n)%nat && String.eqb (String.substring (n - k) k s) p.

(** A JavaScript string is truthy when it is not empty. *)
Definition truthy (x : string) : bool := negb (String.eqb x "").

(** The double quote and the line feed, as one-character strings. *)
Definition dquote : string := String.String "034"%char "".
Definition newline : string := String.String "010"%char "".

(** The characters of a text, for statements about their order. *)
Definition chars (x : string) : list ascii := String.list_ascii_of_string x.

(** ** magic-string

    Modelled from the spec: the edit buffer.  The plugin uses the
    magic-string package, whose code is not among the sources; the buffer
    here keeps the original text and renders whole-text prepends before its
    first character and an insertion at an offset just before the character
    at that offset, as the spec says and as the package does it:
    [MagicString] keeps the original text as a chain of chunks, each with
    an intro and an outro, and an intro of the whole string.  Only [prepend],
    [prependLeft], [toString] and [hasChanged] are called by the plugin.  No
    call removes or overwrites, so a chunk is known by the offset at which
    it ends and [outro] maps that offset to the chunk's outro. *)
Module MagicString.

Record t := mk {
  original : string;
  intro : string;
  outro : gmap nat string
}.

Definition new (code : string) : t := mk code "" ∅.

Definition outroAt (s : t) (index : nat) : string :=
  default "" (outro s !! index).

(** [byEnd[index]] after [_split(index)]: a chunk ends at every offset
    inside the text and at its end; the single chunk of an empty text
    ends at 0. *)
Definition byEnd (s : t) (index : nat) : bool :=
  if (String.length (original s) =? 0)%nat then (index =? 0)%nat
  else (0 <? index)%nat && (index <=? String.length (original s))%nat.

(** [s.prepend(content)]. *)
Definition prepend (content : string) (s : t) : t :=
  mk (original s) (content +:+ intro s) (outro s).

(** [s.prependLeft(index, content)]: in front of the outro of the chunk
    that ends at [index], or in front of the intro when there is none. *)
Definition prependLeft (index : nat) (content : string) (s : t) : t :=
  if byEnd s index
  then mk (original s) (intro s)
          (<[index := content +:+ outroAt s index]> (outro s))
  else mk (original s) (content +:+ intro s) (outro s).

(** The chunks from offset [k] on: each character followed by what was
    inserted at the offset after it. *)
Fixpoint weave (out : nat → string) (k : nat) (text : string) : string :=
  match text with
  | EmptyString => EmptyString
  | String c rest => String c (out (S k) +:+ weave out (S k) rest)
  end.

(** [s.toString()]. *)
Definition toString (s : t) : string :=
  intro s +:+ outroAt s 0 +:+ weave (outroAt s) 0 (original s).

(** [s.hasChanged()]: [this.original !== this.toString()]. *)
Definition hasChanged (s : t) : bool :=
  negb (String.eqb (original s) (toString s)).

(** The two edits the plugin performs. *)
Inductive edit :=
| Prepend (content : string)
| PrependLeft (index : nat) (content : string).

Definition apply (e : edit) (s : t) : t :=
  match e with
  | Prepend content => prepend content s
  | PrependLeft index content => prependLeft index content s
  end.

(** Edits in the order they were made. *)
Definition applyAll (es : list edit) (s : t) : t :=
  fold_left (λ acc e, apply e acc) es s.

End MagicString.

(** ** css-tree

    Modelled from the spec: the parsed stylesheet and its walker, which
    css-tree provides and the sources only call.  This is the part of the
    AST the plugin looks at; [walk] with [visit: 'Declaration'] enters every
    declaration in document order with [this.atrule] bound to the closest
    enclosing at-rule. *)

Record ValueChild := {
  childType : string;
  childText : string;
  childEnd : nat
}.

Inductive ValueNode :=
| Value (children : list ValueChild)
| Raw (value : string).

Record DeclarationNode := {
  property : string;
  value : ValueNode
}.

Inductive CssNode :=
| StyleSheet (children : list CssNode)
| Atrule (name : string) (block : list CssNode)
| Rule (prelude : string) (block : list CssNode)
| Declaration (node : DeclarationNode).

(** [this] inside an [enter] callback. *)
Record WalkContext := {
  atrule : option string
}.

Fixpoint walkFrom (this : WalkContext) (node : CssNode)
  : list (WalkContext * DeclarationNode) :=
  match node with
  | StyleSheet children => flat_map (walkFrom this) children
  | Atrule name block => flat_map (walkFrom {| atrule := Some name |}) block
  | Rule _ block => flat_map (walkFrom this) block
  | Declaration d => [(this, d)]
  end.

Definition walk (node : CssNode) : list (WalkContext * DeclarationNode) :=
  walkFrom {| atrule := None |} node.

Definition isRaw (v : ValueNode) : bool :=
  match v with Raw _ => true | Value _ => false end.

(** ** unifont and the plugin's own types *)

Inductive FontSource :=
| LocalFontSource (name : string)
| RemoteFontSource (url : string).

Record FontFaceData := {
  src : list FontSource;
  weight : option string;
  style : option string
}.

Definition GenericCSSFamily := string.

Record FontFaceResolution := {
  fonts : option (list FontFaceData);
  fallbacks : option (list string)
}.

(** The second argument of [resolveFontFace]. *)
Record ResolveOptions := {
  resolveFallbacks : list string;
  resolveGeneric : option GenericCSSFamily
}.

(** [FontlessOptions] without [fontsToPreload], which is state and is
    threaded through the calls. *)
Record FontlessOptions := {
  resolveFontFace : string → ResolveOptions → option FontFaceResolution;
  processCSSVariables : option bool;
  shouldPreload : string → FontFaceData → bool
}.

(** An element of [fallbackMap]. *)
Record FallbackEntry := {
  font : string;
  name : string
}.

(** ** esbuild *)

Record TransformOptions := {
  loader : option string;
  charset : option string;
  minify : option bool;
  target : option string;
  logLevel : option string;
  logLimit : option nat;
  logOverride : option string;
  legalComments : option string;
  minifyIdentifiers : option bool;
  minifySyntax : option bool;
  minifyWhitespace : option bool
}.

(** Vite's [ESBuildOptions]: the fields [resolveMinifyCssEsbuildOptions] and
    [configResolved] read. *)
Record ESBuildOptions := {
  esCharset : option string;
  esLogLevel : option string;
  esLogLimit : option nat;
  esLogOverride : option string;
  esLegalComments : option string;
  esMinifyIdentifiers : option bool;
  esMinifySyntax : option bool;
  esMinifyWhitespace : option bool;
  esTarget : option string
}.

Record TransformResult := { code : string }.

(** How a promise settles. *)
Inductive Settlement (A : Type) :=
| Fulfilled (a : A)
| Rejected.
Arguments Fulfilled {A} a.
Arguments Rejected {A}.

(** ** Imported functions

    The modules [../css/parse] and [../css/render], and the functions taken
    from css-tree, pathe, ufo and esbuild, are not part of this file: every
    result below holds for all of them. *)
Class Imports := {
  parse : string → CssNode;
  extractFontFamilies : DeclarationNode → list string;
  extractGeneric : DeclarationNode → option GenericCSSFamily;
  extractEndOfFirstChild : DeclarationNode → nat;
  generateFontFace : string → FontFaceData → string;
  generateFontFallbacks : string → FontFaceData → list FallbackEntry → list string;
  relativiseFontSources : FontFaceData → string → FontFaceData;
  dirname : string → string;
  withLeadingSlash : string → string;
  transform : string → TransformOptions → Settlement TransformResult
}.

(** ** The preload registry

    [Map<string, Set<string>>].  A [Set] is an object: [entries] maps an id
    to a reference and [store] holds the set behind each reference, so two
    ids can name one set. *)
Module Registry.

Record t := mk {
  entries : gmap string nat;
  store : list (gset string)
}.

Definition empty : t := mk ∅ [].

(** [m.has(id)]. *)
Definition has (id : string) (m : t) : bool :=
  bool_decide (is_Some (entries m !! id)).

(** The urls of [m.get(id)], or [None] when it is [undefined]. *)
Definition get (id : string) (m : t) : option (gset string) :=
  r ← entries m !! id; store m !! r.

(** [const urls = m.get(id) || new Set(); m.set(id, urls.add(url))]. *)
Definition add (id url : string) (m : t) : t :=
  match entries m !! id with
  | Some r => mk (<[id := r]> (entries m)) (alter (λ urls, urls ∪ {[url]}) r (store m))
  | None => mk (<[id := List.length (store m)]> (entries m)) (store m ++ [{[url]}])
  end.

(** [m.set(to, m.get(from)!)] when [m.has(from)]. *)
Definition share (to from : string) (m : t) : t :=
  match entries m !! from with
  | Some r => mk (<[to := r]> (entries m)) (store m)
  | None => m
  end.

End Registry.

(** ** The plugin *)

(** The variables [fontless] closes over.  [isDev] is read only through
    [!isDev] and [isDev ||], so an unassigned [isDev] is [false]. *)
Record PluginState := {
  postcssOptions : option TransformOptions;
  isDev : bool
}.

Definition initialPlugin : PluginState :=
  {| postcssOptions := None; isDev := false |}.

(** [a ?? b]. *)
Definition nullish {A} (a : option A) (b : A) : A := default b a.

(** [resolveMinifyCssEsbuildOptions]. *)
Definition resolveMinifyCssEsbuildOptions (options : ESBuildOptions)
  : TransformOptions :=
  let base := {|
    loader := None;
    charset := Some (nullish (esCharset options) "utf8");
    minify := None;
    target := None;
    logLevel := esLogLevel options;
    logLimit := esLogLimit options;
    logOverride := esLogOverride options;
    legalComments := esLegalComments options;
    minifyIdentifiers := None;
    minifySyntax := None;
    minifyWhitespace := None |} in
  if bool_decide (esMinifyIdentifiers options ≠ None)
     || bool_decide (esMinifySyntax options ≠ None)
     || bool_decide (esMinifyWhitespace options ≠ None)
  then {|
    loader := loader base; charset := charset base; minify := minify base;
    target := target base; logLevel := logLevel base;
    logLimit := logLimit base; logOverride := logOverride base;
    legalComments := legalComments base;
    minifyIdentifiers := Some (nullish (esMinifyIdentifiers options) true);
    minifySyntax := Some (nullish (esMinifySyntax options) true);
    minifyWhitespace := Some (nullish (esMinifyWhitespace options) true) |}
  else {|
    loader := loader base; charset := charset base; minify := Some true;
    target := target base; logLevel := logLevel base;
    logLimit := logLimit base; logOverride := logOverride base;
    legalComments := legalComments base;
    minifyIdentifiers := minifyIdentifiers base;
    minifySyntax := minifySyntax base;
    minifyWhitespace := minifyWhitespace base |}.

(** Vite's resolved config: [command] and [esbuild] ([false] is [None]). *)
Record ResolvedConfig := {
  command : string;
  esbuild : option ESBuildOptions
}.

(** [configResolved]. *)
Definition configResolved (config : ResolvedConfig) (plugin : PluginState)
  : PluginState :=
  let isDev' := String.eqb (command config) "serve" in
  match esbuild config with
  | Some es =>
      if isDev' || bool_decide (postcssOptions plugin ≠ None)
      then {| postcssOptions := postcssOptions plugin; isDev := isDev' |}
      else
        let m := resolveMinifyCssEsbuildOptions es in
        {| postcssOptions := Some {|
             loader := loader m; charset := charset m; minify := minify m;
             target := esTarget es; logLevel := logLevel m;
             logLimit := logLimit m; logOverride := logOverride m;
             legalComments := legalComments m;
             minifyIdentifiers := minifyIdentifiers m;
             minifySyntax := minifySyntax m;
             minifyWhitespace := minifyWhitespace m |};
           isDev := isDev' |}
  | None => {| postcssOptions := postcssOptions plugin; isDev := isDev' |}
  end.

(** [{ ...a, ...b }] on transform options: a field of [b] that is set wins. *)
Definition spread (a b : TransformOptions) : TransformOptions := {|
  loader := from_option Some (loader a) (loader b);
  charset := from_option Some (charset a) (charset b);
  minify := from_option Some (minify a) (minify b);
  target := from_option Some (target a) (target b);
  logLevel := from_option Some (logLevel a) (logLevel b);
  logLimit := from_option Some (logLimit a) (logLimit b);
  logOverride := from_option Some (logOverride a) (logOverride b);
  legalComments := from_option Some (legalComments a) (legalComments b);
  minifyIdentifiers := from_option Some (minifyIdentifiers a) (minifyIdentifiers b);
  minifySyntax := from_option Some (minifySyntax a) (minifySyntax b);
  minifyWhitespace := from_option Some (minifyWhitespace a) (minifyWhitespace b)
|}.

Definition noTransformOptions : TransformOptions := {|
  loader := None; charset := None; minify := None; target := None;
  logLevel := None; logLimit := None; logOverride := None;
  legalComments := None; minifyIdentifiers := None; minifySyntax := None;
  minifyWhitespace := None |}.

(** The options of the [transform] call in [addFontFaceDeclaration]:
    [{ loader: 'css', charset: 'utf8', minify: true, ...postcssOptions }]. *)
Definition minifyOptions (plugin : PluginState) : TransformOptions :=
  spread
    {| loader := Some "css"; charset := Some "utf8"; minify := Some true;
       target := None; logLevel := None; logLimit := None;
       logOverride := None; legalComments := None;
       minifyIdentifiers := None; minifySyntax := None;
       minifyWhitespace := None |}
    (nullish (postcssOptions plugin) noTransformOptions).

(** The third argument of [transformCSS]. *)
Record TransformCSSOptions := {
  relative : option bool
}.

(** The optional second argument of [addFontFaceDeclaration]. *)
Record FallbackOptions := {
  generic : option GenericCSSFamily;
  fallbackNames : list string;
  index : nat
}.

(** What a stylesheet rewrite mutates: the edit buffer [s], the set
    [injectedDeclarations] and the registry [options.fontsToPreload]. *)
Record RewriteState := {
  s : MagicString.t;
  injectedDeclarations : gset string;
  fontsToPreload : Registry.t
}.

(** The local variables of a running [addFontFaceDeclaration]. *)
Record Frame := {
  fontFamily : string;
  fallbackOptions : option FallbackOptions;
  fallbackMap : list FallbackEntry;
  insertFontFamilies : bool;
  prefaces : list string
}.

Definition pushPreface (declaration : string) (fr : Frame) : Frame :=
  {| fontFamily := fontFamily fr; fallbackOptions := fallbackOptions fr;
     fallbackMap := fallbackMap fr;
     insertFontFamilies := insertFontFamilies fr;
     prefaces := prefaces fr ++ [declaration] |}.

Definition setInsert (fr : Frame) : Frame :=
  {| fontFamily := fontFamily fr; fallbackOptions := fallbackOptions fr;
     fallbackMap := fallbackMap fr;
     insertFontFamilies := true;
     prefaces := prefaces fr |}.

(** A call of [addFontFaceDeclaration], suspended at one of its [await]s:
    on [resolveFontFace], on [generateFontFallbacks] for [font], on
    [transform] of [declaration], or settled. *)
Inductive Task :=
| AwaitResolve (fontFamily : string) (fallbackOptions : option FallbackOptions)
| AwaitFallbacks (fr : Frame) (font : FontFaceData) (rest : list FontFaceData)
| AwaitTransform (fr : Frame) (declaration : string) (todo : list string)
    (fallbackCount : nat) (rest : list FontFaceData)
| Settled.

Definition isSettled (t : Task) : bool :=
  match t with Settled => true | _ => false end.

Section Fontless.

Context `{Imports}.
Variable options : FontlessOptions.
Variable plugin : PluginState.

(** *** addFontFaceDeclaration *)

Section AddFontFaceDeclaration.

(** The arguments of the enclosing [transformCSS]. *)
Variable id : string.
Variable opts : TransformCSSOptions.

(** [fallbackMap]: one entry per resolved fallback font name. *)
Definition makeFallbackMap (fontFamily : string) (result : FontFaceResolution)
  : list FallbackEntry :=
  match fallbacks result with
  | Some fs =>
      (λ f, {| font := f; name := fontFamily +:+ " Fallback: " +:+ f |}) <$> fs
  | None => []
  end.

(** [src.find((s) => 'url' in s)?.url]. *)
Definition firstRemoteUrl (sources : list FontSource) : option string :=
  match List.find (λ s, match s with RemoteFontSource _ => true | _ => false end) sources with
  | Some (RemoteFontSource url) => Some url
  | _ => None
  end.

(** Lines 52-58: record the first font's url for [id]. *)
Definition recordPreload (fontFamily : string) (first : FontFaceData)
    (σ : RewriteState) : RewriteState :=
  if shouldPreload options fontFamily first then
    match firstRemoteUrl (src first) with
    | Some fontToPreload =>
        if truthy fontToPreload then
          {| s := s σ; injectedDeclarations := injectedDeclarations σ;
             fontsToPreload := Registry.add id fontToPreload (fontsToPreload σ) |}
        else σ
    | None => σ
    end
  else σ.

(** The text spliced into the declaration: [`, ${insertedFamilies}`]. *)
Definition insertedText (fallbackMap : list FallbackEntry) : string :=
  ", " +:+ join ", " ((λ f, dquote +:+ name f +:+ dquote) <$> fallbackMap).

(** Lines 90-95, after the loop over the fonts. *)
Definition finish (fr : Frame) (σ : RewriteState) : RewriteState :=
  let s1 := MagicString.prepend (join "" (prefaces fr)) (s σ) in
  let s2 :=
    match fallbackOptions fr with
    | Some fo =>
        if insertFontFamilies fr
        then MagicString.prependLeft (index fo) (insertedText (fallbackMap fr)) s1
        else s1
    | None => s1
    end in
  {| s := s2; injectedDeclarations := injectedDeclarations σ;
     fontsToPreload := fontsToPreload σ |}.

(** The head of [for (const font of result.fonts)]: the next font's
    fallbacks are awaited, or the loop is over. *)
Definition fontLoop (fr : Frame) (remaining : list FontFaceData)
    (σ : RewriteState) : RewriteState * Task :=
  match remaining with
  | [] => (finish fr σ, Settled)
  | font :: rest => (σ, AwaitFallbacks fr font rest)
  end.

(** [injectedDeclarations.add(declaration)]. *)
Definition markInjected (declaration : string) (σ : RewriteState) : RewriteState :=
  {| s := s σ;
     injectedDeclarations := injectedDeclarations σ ∪ {[declaration]};
     fontsToPreload := fontsToPreload σ |}.

(** [for (let declaration of declarations)] up to its next [await], and
    the rest of the font's iteration when it is over. *)
Fixpoint declarationLoop (fr : Frame) (declarations : list string)
    (fallbackCount : nat) (rest : list FontFaceData) (σ : RewriteState)
  : RewriteState * Task :=
  match declarations with
  | [] =>
      fontLoop (if (0 <? fallbackCount)%nat then setInsert fr else fr) rest σ
  | declaration :: todo =>
      if decide (declaration ∈ injectedDeclarations σ)
      then declarationLoop fr todo fallbackCount rest σ
      else
        let σ' := markInjected declaration σ in
        if isDev plugin
        then declarationLoop (pushPreface (declaration +:+ newline) fr)
               todo fallbackCount rest σ'
        else (σ', AwaitTransform fr declaration todo fallbackCount rest)
  end.

(** [.then(r => r.code || declaration).catch(() => declaration)]. *)
Definition minified (declaration : string) : string :=
  match transform declaration (minifyOptions plugin) with
  | Fulfilled r => if truthy (code r) then code r else declaration
  | Rejected => declaration
  end.

(** [opts.relative ? relativiseFontSources(font, ...) : font]. *)
Definition placed (font : FontFaceData) : FontFaceData :=
  if default false (relative opts)
  then relativiseFontSources font (withLeadingSlash (dirname id))
  else font.

(** The second argument of the [resolveFontFace] call (lines 42-45). *)
Definition resolveArguments (fallbackOptions : option FallbackOptions)
  : ResolveOptions :=
  {| resolveGeneric := fo ← fallbackOptions; generic fo;
     resolveFallbacks := default [] (fallbackNames <$> fallbackOptions) |}.

(** One resumption: the code between one [await] and the next. *)
Definition resume (σ : RewriteState) (t : Task) : RewriteState * Task :=
  match t with
  | AwaitResolve fontFamily fallbackOptions =>
      let result :=
        default {| fonts := None; fallbacks := None |}
          (resolveFontFace options fontFamily (resolveArguments fallbackOptions)) in
      match fonts result with
      | None | Some [] => (σ, Settled)
      | Some ((first :: _) as all) =>
          let fallbackMap := makeFallbackMap fontFamily result in
          fontLoop
            {| fontFamily := fontFamily; fallbackOptions := fallbackOptions;
               fallbackMap := fallbackMap; insertFontFamilies := false;
               prefaces := [] |}
            all (recordPreload fontFamily first σ)
      end
  | AwaitFallbacks fr font rest =>
      let fallbackDeclarations :=
        generateFontFallbacks (fontFamily fr) font (fallbackMap fr) in
      let declarations :=
        generateFontFace (fontFamily fr) (placed font) :: fallbackDeclarations in
      declarationLoop fr declarations (List.length fallbackDeclarations) rest σ
  | AwaitTransform fr declaration todo fallbackCount rest =>
      declarationLoop (pushPreface (minified declaration) fr)
        todo fallbackCount rest σ
  | Settled => (σ, Settled)
  end.

(** [await Promise.all(promises)]: pending tasks are resumed one at a
    time, in any order; [schedule] names the task resumed at each turn. *)
Fixpoint run (schedule : list nat) (σ : RewriteState) (tasks : list Task)
  : RewriteState * list Task :=
  match schedule with
  | [] => (σ, tasks)
  | i :: later =>
      match tasks !! i with
      | Some t =>
          let '(σ', t') := resume σ t in
          run later σ' (<[i := t']> tasks)
      | None => run later σ tasks
      end
  end.

End AddFontFaceDeclaration.

(** *** processNode *)

(** The first walk (lines 99-110): the families added to
    [existingFontFamilies]. *)
Definition scanExisting (visited : list (WalkContext * DeclarationNode))
    (existing : gset string) : gset string :=
  fold_left
    (λ acc entry,
       if bool_decide (atrule entry.1 = Some "font-family")
          && String.eqb (property entry.2) "font-family"
       then acc ∪ list_to_set (extractFontFamilies entry.2)
       else acc)
    visited existing.

(** The guard of the second walk (line 115): the callback returns at once. *)
Definition skipped (this : WalkContext) (node : DeclarationNode) : bool :=
  ((negb (String.eqb (property node) "font-family")
    && negb (String.eqb (property node) "font"))
   && (negb (default false (processCSSVariables options))
       || negb (startsWith "--" (property node))))
  || bool_decide (atrule this = Some "font-face").

(** The second walk's callback (lines 114-130): the call of
    [addFontFaceDeclaration] it pushes on [promises], if any. *)
Definition candidate (existing : gset string) (parentOffset : nat)
    (this : WalkContext) (node : DeclarationNode) : option Task :=
  if skipped this node then None
  else
    match extractFontFamilies node with
    | [] => None
    | fontFamily :: fallbacks =>
        if truthy fontFamily && negb (bool_decide (fontFamily ∈ existing))
        then Some (AwaitResolve fontFamily
               (if negb (isRaw (value node))
                then Some {| fallbackNames := fallbacks;
                             generic := extractGeneric node;
                             index := extractEndOfFirstChild node + parentOffset |}
                else None))
        else None
    end.

(** [processNode(node, parentOffset)]: the two walks, on the variables
    [existingFontFamilies] and [promises] of [transformCSS]. *)
Definition processNode (node : CssNode) (parentOffset : nat)
    (existing : gset string) (promises : list Task)
  : gset string * list Task :=
  let existing' := scanExisting (walk node) existing in
  (existing',
   promises ++ omap (λ entry, candidate existing' parentOffset entry.1 entry.2) (walk node)).

(** *** transformCSS *)

Definition initialState (code : string) (registry : Registry.t) : RewriteState :=
  {| s := MagicString.new code; injectedDeclarations := ∅;
     fontsToPreload := registry |}.

(** [transformCSS(code, id, opts)] under one order of resumption.  The
    result is the edit buffer and the registry, or [None] while a task of
    [Promise.all] is still pending at the end of [schedule]. *)
Definition transformCSS (code id : string) (opts : TransformCSSOptions)
    (registry : Registry.t) (schedule : list nat)
  : option (MagicString.t * Registry.t) :=
  let ast := parse code in
  let '(_, promises) := processNode ast 0 ∅ [] in
  let '(σ, tasks) := run id opts schedule (initialState code registry) promises in
  if forallb isSettled tasks then Some (s σ, fontsToPreload σ) else None.

End Fontless.

(** ** The hooks *)

(** [IS_CSS_RE]: a dot, one of the extensions, then optionally [?] and one
    or more characters that are not a dot, up to the end of the name. *)
Definition cssExtensions : list string :=
  ["css"; "scss"; "sass"; "postcss"; "pcss"; "less"; "stylus"; "styl"].

Definition endsWithCssExtension (x : string) : bool :=
  existsb (λ ext, endsWith ("." +:+ ext) x) cssExtensions.

Definition noDot (x : string) : bool :=
  forallb (λ c, negb (Ascii.eqb c "."%char)) (chars x).

Definition isCSS (id : string) : bool :=
  endsWithCssExtension id
  || existsb
       (λ k,
          let query := String.substring (S k) (String.length id - S k) id in
          bool_decide (String.get k id = Some "?"%char)
          && endsWithCssExtension (String.substring 0 k id)
          && (0 <? String.length query)%nat
          && noDot query)
       (seq 0 (String.length id)).

(** Rollup's output bundle: an object from file names to assets and chunks,
    enumerated by [for (const key in bundle)]. *)
Inductive OutputItem :=
| OutputAsset (fileName : string) (source : string)
| OutputChunk (fileName : string) (chunkCode : string).

Definition OutputBundle := list (string * OutputItem).

(** The chunk passed to [renderChunk]. *)
Record RenderedChunk := {
  facadeModuleId : option string;
  moduleIds : list string
}.

Section Hooks.

Context `{Imports}.
Variable options : FontlessOptions.
Variable plugin : PluginState.

(** [renderChunk(code, chunk)]. *)
Definition renderChunk (chunk : RenderedChunk) (registry : Registry.t)
  : Registry.t :=
  match facadeModuleId chunk with
  | Some facade =>
      if truthy facade then
        fold_left
          (λ m file, if Registry.has file m then Registry.share facade file m else m)
          (moduleIds chunk) registry
      else registry
  | None => registry
  end.

(** [generateBundle.handler(_outputOptions, bundle)]; [schedules] gives the
    order of resumption inside the rewrite of each asset. *)
Fixpoint generateBundle (schedules : string → list nat) (bundle : OutputBundle)
    (registry : Registry.t) : option (OutputBundle * Registry.t) :=
  match bundle with
  | [] => Some ([], registry)
  | (key, chunk) :: rest =>
      match chunk with
      | OutputAsset fileName source =>
          if isCSS fileName then
            match transformCSS options plugin source key {| relative := Some true |}
                    registry (schedules key) with
            | Some (s, registry') =>
                let chunk' :=
                  if MagicString.hasChanged s
                  then OutputAsset fileName (MagicString.toString s)
                  else chunk in
                match generateBundle schedules rest registry' with
                | Some (rest', registry'') => Some ((key, chunk') :: rest', registry'')
                | None => None
                end
            | None => None
            end
          else
            match generateBundle schedules rest registry with
            | Some (rest', registry') => Some ((key, chunk) :: rest', registry')
            | None => None
            end
      | OutputChunk _ _ =>
          match generateBundle schedules rest registry with
          | Some (rest', registry') => Some ((key, chunk) :: rest', registry')
          | None => None
          end
      end
  end.

End Hooks.

(** ** Sample helpers and stylesheets

    One choice of the imported functions, a resolver and a few stylesheets,
    on which the definitions above are evaluated in the examples. *)
Module Sample.

Definition sheetFoo : string := "a{font-family:'Foo'}".
Definition sheetDeclared : string :=
  "@font-face{font-family:'Foo'}a{font-family:'Foo'}".
Definition sheetTwice : string :=
  "a{font-family:'Foo',sans-serif}b{font-family:'Foo',sans-serif}".
Definition sheetVariable : string := "a{--f:Foo}".
Definition sheetPlain : string := "a{color:red}".

Definition quoted (family : string) (endOffset : nat) : ValueChild :=
  {| childType := "String"; childText := family; childEnd := endOffset |}.
Definition operator (text : string) (endOffset : nat) : ValueChild :=
  {| childType := "Operator"; childText := text; childEnd := endOffset |}.
Definition identifier (text : string) (endOffset : nat) : ValueChild :=
  {| childType := "Identifier"; childText := text; childEnd := endOffset |}.

Definition fontFamilyOf (children : list ValueChild) : CssNode :=
  Declaration {| property := "font-family"; value := Value children |}.

(** The trees css-tree builds for the sample stylesheets. *)
Definition parseSheet (code : string) : CssNode :=
  if String.eqb code sheetFoo then
    StyleSheet [Rule "a" [fontFamilyOf [quoted "Foo" 19]]]
  else if String.eqb code sheetDeclared then
    StyleSheet [Atrule "font-face" [fontFamilyOf [quoted "Foo" 28]];
                Rule "a" [fontFamilyOf [quoted "Foo" 48]]]
  else if String.eqb code sheetTwice then
    StyleSheet
      [Rule "a" [fontFamilyOf [quoted "Foo" 19; operator "," 20; identifier "sans-serif" 30]];
       Rule "b" [fontFamilyOf [quoted "Foo" 50; operator "," 51; identifier "sans-serif" 61]]]
  else if String.eqb code sheetVariable then
    StyleSheet [Rule "a" [Declaration {| property := "--f"; value := Raw "Foo" |}]]
  else if String.eqb code sheetPlain then
    StyleSheet [Rule "a" [Declaration {| property := "color";
                                         value := Value [identifier "red" 11] |}]]
  else StyleSheet [].

Definition generics : list string :=
  ["serif"; "sans-serif"; "monospace"; "cursive"; "fantasy"; "system-ui"].

Definition isGeneric (x : string) : bool :=
  existsb (String.eqb x) generics.

Definition familiesOf (node : DeclarationNode) : list string :=
  match value node with
  | Value children =>
      childText <$> List.filter (λ c, String.eqb (childType c) "String") children
  | Raw text => [text]
  end.

Definition genericOf (node : DeclarationNode) : option GenericCSSFamily :=
  match value node with
  | Value children =>
      childText <$> List.find (λ c, String.eqb (childType c) "Identifier"
                                    && isGeneric (childText c)) children
  | Raw _ => None
  end.

Definition endOfFirstChild (node : DeclarationNode) : nat :=
  match value node with
  | Value (first :: _) => childEnd first
  | _ => 0
  end.

Definition sourceText (source : FontSource) : string :=
  match source with
  | LocalFontSource name => "local('" +:+ name +:+ "')"
  | RemoteFontSource url => "url(" +:+ url +:+ ")"
  end.

Definition fontFaceText (family : string) (face : FontFaceData) : string :=
  "@font-face{font-family:'" +:+ family +:+ "';src:"
  +:+ join "," (sourceText <$> src face) +:+ "}".

Definition fallbackTexts (family : string) (_ : FontFaceData)
    (fallbackMap : list FallbackEntry) : list string :=
  (λ entry, "@font-face{font-family:'" +:+ name entry +:+ "';src:local('"
            +:+ font entry +:+ "')}") <$> fallbackMap.

(** A minifier that fails on the empty text and returns any other text as
    it is. *)
Definition minifier (input : string) (_ : TransformOptions)
  : Settlement TransformResult :=
  if String.eqb input "" then Rejected else Fulfilled {| code := input |}.

Definition imports : Imports := {|
  parse := parseSheet;
  extractFontFamilies := familiesOf;
  extractGeneric := genericOf;
  extractEndOfFirstChild := endOfFirstChild;
  generateFontFace := fontFaceText;
  generateFontFallbacks := fallbackTexts;
  relativiseFontSources := λ face _, face;
  dirname := λ path, path;
  withLeadingSlash := λ path, "/" +:+ path;
  transform := minifier
|}.

Definition fooUrl : string := "https://fonts.test/foo.woff2".

Definition fontFoo : FontFaceData :=
  {| src := [LocalFontSource "Foo"; RemoteFontSource fooUrl];
     weight := None; style := None |}.

(** A resolver that knows "Foo", with the fallback font "Arial", and
    resolves "Bar" to an empty list of fonts. *)
Definition resolver (family : string) (_ : ResolveOptions)
  : option FontFaceResolution :=
  if String.eqb family "Foo"
  then Some {| fonts := Some [fontFoo]; fallbacks := Some ["Arial"] |}
  else if String.eqb family "Bar"
  then Some {| fonts := Some []; fallbacks := None |}
  else None.

Definition options : FontlessOptions := {|
  resolveFontFace := resolver;
  processCSSVariables := None;
  shouldPreload := λ _ _, true
|}.

Definition optionsWithVariables : FontlessOptions := {|
  resolveFontFace := resolver;
  processCSSVariables := Some true;
  shouldPreload := λ _ _, true
|}.

Definition noEsbuildOptions : ESBuildOptions := {|
  esCharset := None; esLogLevel := None; esLogLimit := None;
  esLogOverride := None; esLegalComments := None;
  esMinifyIdentifiers := None; esMinifySyntax := None;
  esMinifyWhitespace := None; esTarget := None |}.

(** The plugin after [configResolved] of a build and of a dev server. *)
Definition build : PluginState :=
  configResolved {| command := "build"; esbuild := Some noEsbuildOptions |}
    initialPlugin.
Definition serve : PluginState :=
  configResolved {| command := "serve"; esbuild := Some noEsbuildOptions |}
    initialPlugin.

End Sample.

(** A second sample for the minifier: the generated rules are written with
    spaces, the fallback rules are left without their closing brace, and
    the minifier removes the spaces of a text that ends with a brace and
    rejects any other text. *)
Module Spaced.

Fixpoint squeeze (text : string) : string :=
  match text with
  | EmptyString => EmptyString
  | String c rest =>
      if Ascii.eqb c " "%char then squeeze rest else String c (squeeze rest)
  end.

Definition minifier (input : string) (_ : TransformOptions)
  : Settlement TransformResult :=
  if endsWith "}" input then Fulfilled {| code := squeeze input |} else Rejected.

Definition fontFaceText (family : string) (_ : FontFaceData) : string :=
  "@font-face { font-family: '" +:+ family +:+ "' }".

Definition fallbackTexts (family : string) (_ : FontFaceData)
    (fallbackMap : list FallbackEntry) : list string :=
  (λ entry, "@font-face { font-family: '" +:+ name entry +:+ "'") <$> fallbackMap.

Definition imports : Imports := {|
  parse := Sample.parseSheet;
  extractFontFamilies := Sample.familiesOf;
  extractGeneric := Sample.genericOf;
  extractEndOfFirstChild := Sample.endOfFirstChild;
  generateFontFace := fontFaceText;
  generateFontFallbacks := fallbackTexts;
  relativiseFontSources := λ face _, face;
  dirname := λ path, path;
  withLeadingSlash := λ path, "/" +:+ path;
  transform := minifier
|}.

End Spaced.

(** ** Predicates of the statements *)

(** The resolver gave nothing usable: nothing at all, no [fonts], or an
    empty list of fonts. *)
Definition unresolved (r : option FontFaceResolution) : Prop :=
  match r with
  | None => True
  | Some result => fonts result = None ∨ fonts result = Some []
  end.

(** The plugin after any number of [configResolved] calls. *)
Definition configured (configs : list ResolvedConfig) : PluginState :=
  fold_left (λ plugin config, configResolved config plugin) configs initialPlugin.

(** A declaration the second walk looks at: its property is [font-family]
    or [font], or custom properties are processed and it starts with [--];
    and it is not inside [@font-face]. *)
Definition eligible (options : FontlessOptions) (this : WalkContext)
    (node : DeclarationNode) : Prop :=
  (property node = "font-family" ∨ property node = "font"
   ∨ (processCSSVariables options = Some true
      ∧ startsWith "--" (property node) = true))
  ∧ atrule this ≠ Some "font-face".

(** Every id of the registry names a set of the store. *)
Definition wellFormed (m : Registry.t) : Prop :=
  ∀ id r, Registry.entries m !! id = Some r → r < List.length (Registry.store m).

Section Specification.

Context `{Imports}.
Variable options : FontlessOptions.
Variable plugin : PluginState.
Variable id : string.
Variable opts : TransformCSSOptions.

(** The declarations generated for one font (lines 63-64). *)
Definition declarationsOf (fontFamily : string) (fallbackMap : list FallbackEntry)
    (font : FontFaceData) : list string :=
  generateFontFace fontFamily (placed id opts font)
  :: generateFontFallbacks fontFamily font fallbackMap.

(** [fallbackDeclarations.length] is truthy for this font. *)
Definition hasFallbackDeclarations (fontFamily : string)
    (fallbackMap : list FallbackEntry) (font : FontFaceData) : bool :=
  (0 <? List.length (generateFontFallbacks fontFamily font fallbackMap))%nat.

(** The text queued for a newly injected declaration. *)
Definition rendered (declaration : string) : string :=
  if isDev plugin then declaration +:+ newline else minified plugin declaration.

(** The splice of lines 92-95 on an edit buffer. *)
Definition splice (fallbackOptions : option FallbackOptions) (insert : bool)
    (fallbackMap : list FallbackEntry) (s1 : MagicString.t) : MagicString.t :=
  match fallbackOptions with
  | Some fo =>
      if insert
      then MagicString.prependLeft (index fo) (insertedText fallbackMap) s1
      else s1
  | None => s1
  end.

(** The states a task can be in, when every state it is resumed in
    satisfies [P]: the other tasks may have changed the state in between. *)
Inductive reaches (P : RewriteState → Prop) (t0 : Task) : Task → Prop :=
| reaches_start : reaches P t0 t0
| reaches_resume σ t :
    reaches P t0 t → P σ → reaches P t0 (resume options plugin id opts σ t).2.

(** Every queued text renders a generated declaration that was not injected
    in a state satisfying [P]. *)
Definition queuedUnder (P : RewriteState → Prop) (generated : list string)
    (texts : list string) : Prop :=
  Forall (λ text, ∃ declaration σ0,
            P σ0 ∧ (declaration ∉ injectedDeclarations σ0)
            ∧ declaration ∈ generated ∧ text = rendered declaration) texts.

Definition frameOf (fontFamily0 : string) (fallbackOptions0 : option FallbackOptions)
    (fallbackMap0 : list FallbackEntry) (fr : Frame) : Prop :=
  fontFamily fr = fontFamily0 ∧ fallbackOptions fr = fallbackOptions0
  ∧ fallbackMap fr = fallbackMap0.

(** What is known of a task started for [fontFamily0] whose resolution gave
    the fonts [all]: its frame keeps the family, the options and the
    fallback map, and the fonts before the current one decide
    [insertFontFamilies]. *)
Definition taskInvariant (P : RewriteState → Prop) (fontFamily0 : string)
    (fallbackOptions0 : option FallbackOptions)
    (fallbackMap0 : list FallbackEntry) (all : list FontFaceData) (t : Task) : Prop :=
  let generated := flat_map (declarationsOf fontFamily0 fallbackMap0) all in
  match t with
  | AwaitResolve fontFamily fallbackOptions =>
      fontFamily = fontFamily0 ∧ fallbackOptions = fallbackOptions0
  | AwaitFallbacks fr font rest =>
      frameOf fontFamily0 fallbackOptions0 fallbackMap0 fr
      ∧ queuedUnder P generated (prefaces fr)
      ∧ ∃ done, all = done ++ font :: rest
          ∧ insertFontFamilies fr
            = existsb (hasFallbackDeclarations fontFamily0 fallbackMap0) done
  | AwaitTransform fr declaration todo fallbackCount rest =>
      frameOf fontFamily0 fallbackOptions0 fallbackMap0 fr
      ∧ queuedUnder P generated (prefaces fr)
      ∧ isDev plugin = false
      ∧ (∃ σ0, P σ0 ∧ (declaration ∉ injectedDeclarations σ0))
      ∧ declaration ∈ generated
      ∧ (∀ d, d ∈ todo → d ∈ generated)
      ∧ ∃ done font, all = done ++ font :: rest
          ∧ insertFontFamilies fr
            = existsb (hasFallbackDeclarations fontFamily0 fallbackMap0) done
          ∧ fallbackCount
            = List.length (generateFontFallbacks fontFamily0 font fallbackMap0)
  | Settled => True
  end.

(** The edit a task makes when its loop over the fonts is over: the queued
    texts are prepended, then the fallback names are spliced in if there is
    an offset and some font had fallback declarations. *)
Definition finalEdit (P : RewriteState → Prop) (fontFamily0 : string)
    (fallbackOptions0 : option FallbackOptions)
    (fallbackMap0 : list FallbackEntry) (all : list FontFaceData)
    (before after : MagicString.t) : Prop :=
  ∃ texts,
    queuedUnder P (flat_map (declarationsOf fontFamily0 fallbackMap0) all) texts
    ∧ after
      = splice fallbackOptions0
          (existsb (hasFallbackDeclarations fontFamily0 fallbackMap0) all)
          fallbackMap0 (MagicString.prepend (join "" texts) before).

End Specification.

(** ** The whole rewrite *)

(** The first [n] characters of a text and what follows them. *)
Fixpoint before (n : nat) (text : string) : string :=
  match n, text with
  | S n', String c rest => String c (before n' rest)
  | _, _ => ""
  end.

Fixpoint from (n : nat) (text : string) : string :=
  match n, text with
  | S n', String c rest => from n' rest
  | _, _ => text
  end.

(** The contents inserted at [index] with [prependLeft], oldest first. *)
Definition insertedAt (index : nat) (edits : list MagicString.edit) : list string :=
  omap (λ e, match e with
             | MagicString.PrependLeft i content =>
                 if (i =? index)%nat then Some content else None
             | MagicString.Prepend _ => None
             end) edits.

(** The contents that went in front of the intro, oldest first: every
    [prepend], and a [prependLeft] at an offset where no chunk ends. *)
Definition introduced (code : string) (edits : list MagicString.edit) : list string :=
  omap (λ e, match e with
             | MagicString.Prepend content => Some content
             | MagicString.PrependLeft i content =>
                 if MagicString.byEnd (MagicString.new code) i then None
                 else Some content
             end) edits.

(** What a settled task left in the edit buffer: the declarations it
    queued, as generated, and the splice it made, if any. *)
Record LogEntry := {
  queued : list string;
  spliced : option (nat * string)
}.

(** A candidate: the arguments of its [addFontFaceDeclaration] call. *)
Definition Origin : Type := string * option FallbackOptions.

Definition start (origin : Origin) : Task := AwaitResolve origin.1 origin.2.

Section Tracking.

Context `{Imports}.
Variable options : FontlessOptions.
Variable plugin : PluginState.
Variable id : string.
Variable opts : TransformCSSOptions.

Definition entryEdits (entry : LogEntry) : list MagicString.edit :=
  MagicString.Prepend (join "" (rendered plugin <$> queued entry))
  :: match spliced entry with
     | Some (i, content) => [MagicString.PrependLeft i content]
     | None => []
     end.

Definition logEdits (log : list LogEntry) : list MagicString.edit :=
  flat_map entryEdits log.

(** The fonts and the fallback map a candidate's resolution gives. *)
Definition resolvedFonts (origin : Origin) : list FontFaceData :=
  match resolveFontFace options origin.1 (resolveArguments origin.2) with
  | Some result => default [] (fonts result)
  | None => []
  end.

Definition resolvedMap (origin : Origin) : list FallbackEntry :=
  match resolveFontFace options origin.1 (resolveArguments origin.2) with
  | Some result => makeFallbackMap origin.1 result
  | None => []
  end.

(** A task of [origin] in state [t] holds the declarations [held], queued
    but not yet prepended, in the rewrite state [σ]; every declaration it
    has gone past is injected. *)
Definition tracked (σ : RewriteState) (origin : Origin) (t : Task)
    (held : list string) : Prop :=
  let all := resolvedFonts origin in
  let declarations := declarationsOf id opts origin.1 (resolvedMap origin) in
  let seen := λ l : list string, ∀ d, d ∈ l → d ∈ injectedDeclarations σ in
  match t with
  | AwaitResolve fontFamily fallbackOptions =>
      (fontFamily, fallbackOptions) = origin ∧ held = []
  | AwaitFallbacks fr font rest =>
      frameOf origin.1 origin.2 (resolvedMap origin) fr
      ∧ prefaces fr = rendered plugin <$> held
      ∧ ∃ done, all = done ++ font :: rest ∧ seen (flat_map declarations done)
  | AwaitTransform fr declaration todo fallbackCount rest =>
      frameOf origin.1 origin.2 (resolvedMap origin) fr
      ∧ isDev plugin = false
      ∧ (∃ earlier, held = earlier ++ [declaration]
                    ∧ prefaces fr = rendered plugin <$> earlier)
      ∧ ∃ done font passed,
          all = done ++ font :: rest
          ∧ declarations font = passed ++ declaration :: todo
          ∧ fallbackCount
            = List.length (generateFontFallbacks origin.1 font (resolvedMap origin))
          ∧ seen (flat_map declarations done ++ passed ++ [declaration])
  | Settled => held = [] ∧ seen (flat_map declarations all)
  end.

(** A splice in the log is the one of its candidate: at the candidate's
    offset, with the names of the candidate's fallback map. *)
Definition splicedBy (origin : Origin) (entry : LogEntry) : Prop :=
  ∀ i content,
    spliced entry = Some (i, content) →
    ∃ fo, origin.2 = Some fo ∧ i = index fo
          ∧ content = insertedText (resolvedMap origin).

(** What one resumption does to a task of [origin] holding [held]: it
    injects the declarations [new], none of them injected before, and
    either keeps them and leaves the buffer alone, or settles and adds one
    entry to the log. *)
Definition stepOutcome (σ : RewriteState) (origin : Origin)
    (held : list string) (after : RewriteState * Task) : Prop :=
  ∃ new,
    NoDup new
    ∧ (∀ d, d ∈ new → d ∉ injectedDeclarations σ)
    ∧ (∀ d, d ∈ injectedDeclarations after.1
            ↔ d ∈ injectedDeclarations σ ∨ d ∈ new)
    ∧ ((s after.1 = s σ ∧ tracked after.1 origin after.2 (held ++ new))
       ∨ (after.2 = Settled
          ∧ tracked after.1 origin Settled []
          ∧ ∃ entry,
              queued entry = held ++ new
              ∧ splicedBy origin entry
              ∧ s after.1 = MagicString.applyAll (entryEdits entry) (s σ))).

(** The invariant of [run] on the rewrite of [code] with the candidates
    [origins]: the buffer is the original text edited as the log says; no
    splice in the log is the one of a candidate; no declaration is queued
    twice, in the log or in a task; the injected declarations are exactly
    the queued ones. *)
Definition runInvariant (code : string) (origins : list Origin)
    (σ : RewriteState) (tasks : list Task) : Prop :=
  ∃ (log : list LogEntry) (held : list (list string)),
    List.length tasks = List.length origins
    ∧ List.length held = List.length origins
    ∧ (∀ i origin t h,
         origins !! i = Some origin → tasks !! i = Some t → held !! i = Some h →
         tracked σ origin t h)
    ∧ s σ = MagicString.applyAll (logEdits log) (MagicString.new code)
    ∧ (∀ entry, entry ∈ log → ∃ origin, origin ∈ origins ∧ splicedBy origin entry)
    ∧ NoDup (concat (queued <$> log) ++ concat held)
    ∧ (∀ d, d ∈ injectedDeclarations σ
            ↔ d ∈ concat (queued <$> log) ++ concat held).

(** Resumptions that settle a task: a bound on how many it needs. *)
Definition fontCost (fontFamily : string) (fallbackMap : list FallbackEntry)
    (font : FontFaceData) : nat :=
  2 + List.length (generateFontFallbacks fontFamily font fallbackMap).

Definition fontsCost (fontFamily : string) (fallbackMap : list FallbackEntry)
    (remaining : list FontFaceData) : nat :=
  foldr (λ font n, fontCost fontFamily fallbackMap font + n) 0 remaining.

Definition cost (t : Task) : nat :=
  match t with
  | AwaitResolve fontFamily fallbackOptions =>
      1 + fontsCost fontFamily (resolvedMap (fontFamily, fallbackOptions))
            (resolvedFonts (fontFamily, fallbackOptions))
  | AwaitFallbacks fr font rest =>
      fontsCost (fontFamily fr) (fallbackMap fr) (font :: rest)
  | AwaitTransform fr declaration todo fallbackCount rest =>
      1 + List.length todo + fontsCost (fontFamily fr) (fallbackMap fr) rest
  | Settled => 0
  end.

(** Each task in turn, as often as its cost. *)
Definition sequential (tasks : list Task) : list nat :=
  flat_map (λ i, replicate (cost (default Settled (tasks !! i))) i)
    (seq 0 (List.length tasks)).

End Tracking.

(** ** Predicates of the further properties *)

(** What [IS_CSS_RE] accepts, read off the pattern: any prefix, a dot, one
    of the extensions, and then nothing, or a question mark followed by one
    or more characters none of which is a dot. *)
Definition matchesCssPattern (id : string) : Prop :=
  ∃ prefix ext tail,
    id = prefix +:+ "." +:+ ext +:+ tail
    ∧ ext ∈ cssExtensions
    ∧ (tail = "" ∨ ∃ query, tail = "?" +:+ query ∧ query ≠ "" ∧ noDot query = true).

(** The url lines 52-57 record for a candidate, if any: the first remote
    source of the first resolved font, when [shouldPreload] accepts the font
    and the url is not empty. *)
Definition preloadUrl `{Imports} (options : FontlessOptions) (origin : Origin)
  : option string :=
  match resolveFontFace options origin.1 (resolveArguments origin.2) with
  | Some result =>
      match fonts result with
      | Some (first :: _) =>
          if shouldPreload options origin.1 first then
            match firstRemoteUrl (src first) with
            | Some url => if truthy url then Some url else None
            | None => None
            end
          else None
      | _ => None
      end
  | None => None
  end.

(** The urls recorded one after the other for [id]. *)
Definition recordAll (id : string) (urls : list string) (m : Registry.t)
  : Registry.t :=
  fold_left (λ acc url, Registry.add id url acc) urls m.

Definition isAwaitResolve (t : Task) : bool :=
  match t with AwaitResolve _ _ => true | _ => false end.

Definition isAwaitTransform (t : Task) : bool :=
  match t with AwaitTransform _ _ _ _ _ => true | _ => false end.

(** The invariant of [run] on the registry: it is the registry the rewrite
    started with and, recorded for [id] in some order, the urls of the
    candidates whose task has gone past the resolver. *)
Definition preloadInvariant `{Imports} (options : FontlessOptions) (id : string)
    (registry : Registry.t) (origins : list Origin) (σ : RewriteState)
    (tasks : list Task) : Prop :=
  ∃ (urls : list string) (marks : list (list string)),
    List.length tasks = List.length origins
    ∧ List.length marks = List.length origins
    ∧ (∀ i origin t mark,
         origins !! i = Some origin → tasks !! i = Some t → marks !! i = Some mark →
         (t = start origin ∧ mark = [])
         ∨ (isAwaitResolve t = false
            ∧ mark = option_list (preloadUrl options origin)))
    ∧ urls ≡ₚ concat marks
    ∧ fontsToPreload σ = recordAll id urls registry.

(** A registry [m'] keeps what [m] has: every id bound in [m] names the same
    set in [m'], and every set of [m] is still there with at least its urls. *)
Definition grows (m m' : Registry.t) : Prop :=
  (∀ k r, Registry.entries m !! k = Some r → Registry.entries m' !! k = Some r)
  ∧ (∀ r urls, Registry.store m !! r = Some urls →
       ∃ urls', Registry.store m' !! r = Some urls' ∧ urls ⊆ urls').

(** ** The outcome of a rewrite *)

(** A configuration for which [configResolved] goes past its guard when
    [postcssOptions] is not set yet: not the dev server, and with esbuild
    options. *)
Definition computes (config : ResolvedConfig) : bool :=
  negb (String.eqb (command config) "serve")
  && bool_decide (is_Some (esbuild config)).

Section Outcome.

Context `{Imports}.
Variable options : FontlessOptions.
Variable plugin : PluginState.
Variable id : string.
Variable opts : TransformCSSOptions.

(** The resolver gave the candidate at least one font: its call goes past
    line 47. *)
Definition hasFonts (origin : Origin) : bool :=
  match resolvedFonts options origin with [] => false | _ :: _ => true end.

(** The declarations generated for a candidate, font by font, in the order
    of the two loops. *)
Definition generatedFor (origin : Origin) : list string :=
  flat_map (declarationsOf id opts origin.1 (resolvedMap options origin))
    (resolvedFonts options origin).

(** [insertFontFamilies] after the loop over the fonts: some font had
    fallback declarations. *)
Definition insertsNames (origin : Origin) : bool :=
  existsb (hasFallbackDeclarations origin.1 (resolvedMap options origin))
    (resolvedFonts options origin).

(** The edits of lines 90-95 for a candidate whose call queued the
    declarations [q]: their texts, joined, are prepended; then the quoted
    fallback names are inserted at the offset, when there is an offset and
    some font had fallback declarations. *)
Definition taskEdits (origin : Origin) (q : list string) : list MagicString.edit :=
  MagicString.Prepend (join "" (rendered plugin <$> q))
  :: match origin.2 with
     | Some fo =>
         if insertsNames origin
         then [MagicString.PrependLeft (index fo)
                 (insertedText (resolvedMap options origin))]
         else []
     | None => []
     end.

(** The edits of the [i]-th candidate. *)
Definition editsAt (origins : list Origin) (queues : list (list string))
    (i : nat) : list MagicString.edit :=
  match origins !! i, queues !! i with
  | Some origin, Some q => taskEdits origin q
  | _, _ => []
  end.

(** A call for [origin] in state [t] has queued the declarations [q] so
    far, in the rewrite state [σ]: they are the texts of its [prefaces], in
    the order in which the loops generated them; [insertFontFamilies] is
    decided by the fonts it is done with; every declaration it has gone
    past is injected. *)
Definition follows (σ : RewriteState) (origin : Origin) (t : Task)
    (q : list string) : Prop :=
  let all := resolvedFonts options origin in
  let declarations := declarationsOf id opts origin.1 (resolvedMap options origin) in
  let anyFallback := existsb (hasFallbackDeclarations origin.1 (resolvedMap options origin)) in
  let seen := λ l : list string, ∀ d, d ∈ l → d ∈ injectedDeclarations σ in
  match t with
  | AwaitResolve fontFamily fallbackOptions =>
      (fontFamily, fallbackOptions) = origin ∧ q = []
  | AwaitFallbacks fr font rest =>
      frameOf origin.1 origin.2 (resolvedMap options origin) fr
      ∧ prefaces fr = rendered plugin <$> q
      ∧ ∃ done,
          all = done ++ font :: rest
          ∧ insertFontFamilies fr = anyFallback done
          ∧ sublist q (flat_map declarations done)
          ∧ seen (flat_map declarations done)
  | AwaitTransform fr declaration todo fallbackCount rest =>
      frameOf origin.1 origin.2 (resolvedMap options origin) fr
      ∧ isDev plugin = false
      ∧ (∃ earlier, q = earlier ++ [declaration]
                    ∧ prefaces fr = rendered plugin <$> earlier)
      ∧ ∃ done font passed,
          all = done ++ font :: rest
          ∧ declarations font = passed ++ declaration :: todo
          ∧ fallbackCount
            = List.length (generateFontFallbacks origin.1 font (resolvedMap options origin))
          ∧ insertFontFamilies fr = anyFallback done
          ∧ sublist q (flat_map declarations done ++ passed ++ [declaration])
          ∧ seen (flat_map declarations done ++ passed ++ [declaration])
  | Settled =>
      sublist q (flat_map declarations all) ∧ seen (flat_map declarations all)
  end.

(** What one resumption does to a pending call of [origin] that has queued
    [q]: it injects and queues the declarations [new], none of them
    injected before; and either it leaves the buffer alone, settling only
    when the resolver gave no font, or it settles and makes the edits of
    the candidate with everything it queued. *)
Definition stepResult (σ : RewriteState) (origin : Origin) (q : list string)
    (after : RewriteState * Task) : Prop :=
  ∃ new,
    NoDup new
    ∧ (∀ d, d ∈ new → d ∉ injectedDeclarations σ)
    ∧ (∀ d, d ∈ injectedDeclarations after.1
            ↔ d ∈ injectedDeclarations σ ∨ d ∈ new)
    ∧ follows after.1 origin after.2 (q ++ new)
    ∧ ((s after.1 = s σ ∧ (after.2 = Settled → hasFonts origin = false))
       ∨ (after.2 = Settled
          ∧ hasFonts origin = true
          ∧ s after.1
            = MagicString.applyAll (taskEdits origin (q ++ new)) (s σ))).

(** The invariant of [run] that fixes the buffer: the calls that went past
    line 47 and settled did so in the order [order], each one once; the
    buffer is the original text with the edits of these calls, in that
    order; [queues] holds what each call has queued; no declaration is
    queued twice, and the injected declarations are the queued ones. *)
Definition exactInvariant (code : string) (origins : list Origin)
    (σ : RewriteState) (tasks : list Task) : Prop :=
  ∃ (order : list nat) (queues : list (list string)),
    List.length tasks = List.length origins
    ∧ List.length queues = List.length origins
    ∧ (∀ i origin t q,
         origins !! i = Some origin → tasks !! i = Some t → queues !! i = Some q →
         follows σ origin t q)
    ∧ NoDup order
    ∧ (∀ i, i ∈ order
            ↔ ∃ origin, origins !! i = Some origin
                        ∧ tasks !! i = Some Settled
                        ∧ hasFonts origin = true)
    ∧ s σ = MagicString.applyAll (flat_map (editsAt origins queues) order)
              (MagicString.new code)
    ∧ NoDup (concat queues)
    ∧ (∀ d, d ∈ injectedDeclarations σ ↔ d ∈ concat queues).

(** The buffer [s0] a rewrite of [code] with the candidates [origins]
    returns, given the order [order] in which the calls settled and the
    declarations [queues] each call queued.  Each call queued some of the
    declarations generated for its candidate, in the order of generation;
    over all calls no declaration is queued twice and every generated
    declaration is queued; the calls that settled with an edit are, each
    once, the ones whose candidate resolved to at least one font; and the
    buffer is the original text with the edits of these calls, one after
    the other. *)
Definition rewriteResult (code : string) (origins : list Origin)
    (queues : list (list string)) (order : list nat) (s0 : MagicString.t) : Prop :=
  Forall2 (λ origin q, sublist q (generatedFor origin)) origins queues
  ∧ NoDup (concat queues)
  ∧ (∀ origin d, origin ∈ origins → d ∈ generatedFor origin → d ∈ concat queues)
  ∧ NoDup order
  ∧ (∀ i, i ∈ order
          ↔ ∃ origin, origins !! i = Some origin ∧ hasFonts origin = true)
  ∧ s0 = MagicString.applyAll (flat_map (editsAt origins queues) order)
           (MagicString.new code).

End Outcome.

(** * Properties *)

Example toString_sample :
  MagicString.toString
    (MagicString.prependLeft 3 ", b"
       (MagicString.prepend "@x;" (MagicString.new "f:a;")))
  = "@x;f:a, b;".
Proof. reflexivity. Qed.

Example isCSS_samples :
  isCSS "assets/index.css" = true ∧ isCSS "a.scss?v=1" = true
  ∧ isCSS "a.css?v=1.2" = false ∧ isCSS "a.js" = false ∧ isCSS "a.css?" = false.
Proof. repeat split; reflexivity. Qed.

Lemma truthy_true x : truthy x = true ↔ x ≠ "".
Proof.
  unfold truthy. rewrite negb_true_iff. apply String.eqb_neq.
Qed.

Lemma eligible_skipped options this node :
  skipped options this node = false ↔ eligible options this node.
Proof.
  unfold skipped, eligible.
  rewrite orb_false_iff, bool_decide_eq_false, andb_false_iff, andb_false_iff,
    orb_false_iff, !negb_false_iff, !String.eqb_eq.
  destruct (processCSSVariables options) as [[]|]; simpl; intuition congruence.
Qed.

Section Scheduling.

Context `{Imports}.
Variable options : FontlessOptions.
Variable plugin : PluginState.

(** C7. The second walk schedules a resolution for a declaration exactly
    when the declaration is eligible (property [font-family] or [font], or
    a custom property while custom properties are processed; not inside
    [@font-face]) and its first extracted family is not empty and not in
    the existing-family set; the task then waits on the resolver for that
    family.  The callback does nothing else: the promises of [processNode]
    are these tasks, in document order. *)
Theorem candidate_scheduled_iff (existing : gset string) (parentOffset : nat)
    (this : WalkContext) (node : DeclarationNode) :
  (is_Some (candidate options existing parentOffset this node)
   ↔ eligible options this node
     ∧ ∃ fontFamily others,
         extractFontFamilies node = fontFamily :: others
         ∧ fontFamily ≠ "" ∧ fontFamily ∉ existing)
  ∧ (∀ t, candidate options existing parentOffset this node = Some t →
       ∃ fallbackOptions,
         t = AwaitResolve (default "" (head (extractFontFamilies node))) fallbackOptions)
  ∧ (∀ root promises,
       (processNode options root parentOffset existing promises).2
       = promises
         ++ omap (λ entry,
              candidate options (scanExisting (walk root) existing)
                parentOffset entry.1 entry.2) (walk root)).
Proof.
  split; [|split].
  - unfold candidate. rewrite <- eligible_skipped.
    destruct (skipped options this node).
    + split; [intros [? [=]] | intros [[=] _]].
    + destruct (extractFontFamilies node) as [|fontFamily others].
      * split; [intros [? [=]] | intros [_ (? & ? & [=] & _)]].
      * destruct (truthy fontFamily) eqn:Ht; simpl.
        -- apply truthy_true in Ht. case_bool_decide; simpl.
           ++ split; [intros [? [=]] | intros [_ (? & ? & [= -> ->] & _ & ?)]; done].
           ++ split; [eauto 10 | eauto].
        -- split; [intros [? [=]] |].
           intros [_ (? & ? & [= -> ->] & Hne & _)].
           apply truthy_true in Hne. congruence.
  - intros t. unfold candidate.
    destruct (skipped options this node); [done|].
    destruct (extractFontFamilies node) as [|fontFamily others]; [done|].
    destruct (truthy fontFamily && _); [|done].
    intros [= <-]. eauto.
  - reflexivity.
Qed.

(** C5. When the resolver returns nothing for the family, or a result
    without fonts or with an empty list of fonts, resuming the task ends it
    and leaves the edit buffer, the injected-declaration set and the
    preload registry as they were. *)
Theorem unresolved_family_no_effect (id : string) (opts : TransformCSSOptions)
    (σ : RewriteState) (fontFamily : string)
    (fallbackOptions : option FallbackOptions) :
  unresolved (resolveFontFace options fontFamily (resolveArguments fallbackOptions)) →
  resume options plugin id opts σ (AwaitResolve fontFamily fallbackOptions)
  = (σ, Settled).
Proof.
  unfold unresolved, resolveArguments. simpl.
  destruct (resolveFontFace options fontFamily _) as [result|]; simpl; [|done].
  intros [-> | ->]; done.
Qed.

End Scheduling.

(** The declaration [font-family:'Foo'] of the sample, outside any at-rule
    and with nothing declared yet. *)
Lemma candidate_scheduled_iff_witness :
  is_Some
    (candidate (H := Sample.imports) Sample.options ∅ 0 {| atrule := None |}
       {| property := "font-family"; value := Value [Sample.quoted "Foo" 19] |}).
Proof.
  apply (candidate_scheduled_iff (H := Sample.imports)). split.
  - split; [by left|done].
  - exists "Foo", []. split; [reflexivity|]. split; [done|set_solver].
Defined.

(** The unknown family "Baz" of the sample resolver. *)
Lemma unresolved_family_no_effect_witness :
  resume (H := Sample.imports) Sample.options Sample.build "k"
    {| relative := Some true |}
    (initialState Sample.sheetFoo Registry.empty) (AwaitResolve "Baz" None)
  = (initialState Sample.sheetFoo Registry.empty, Settled).
Proof.
  apply (unresolved_family_no_effect (H := Sample.imports)).
  exact I.
Defined.

(** ** Minification *)

(** What [configResolved] can store in [postcssOptions]: no loader, and
    [minify] either absent or [true]. *)
Lemma resolveMinify_fields es :
  loader (resolveMinifyCssEsbuildOptions es) = None
  ∧ (minify (resolveMinifyCssEsbuildOptions es) = None
     ∨ minify (resolveMinifyCssEsbuildOptions es) = Some true).
Proof.
  unfold resolveMinifyCssEsbuildOptions.
  destruct (_ || _); simpl; auto.
Qed.

Lemma configResolved_fields config plugin :
  (∀ o, postcssOptions plugin = Some o →
        loader o = None ∧ (minify o = None ∨ minify o = Some true)) →
  ∀ o, postcssOptions (configResolved config plugin) = Some o →
       loader o = None ∧ (minify o = None ∨ minify o = Some true).
Proof.
  intros Hp o. unfold configResolved.
  destruct (esbuild config) as [es|]; [|apply Hp].
  destruct (_ || _); [apply Hp|]. simpl. intros [= <-]. simpl.
  apply resolveMinify_fields.
Qed.

Lemma configured_fields configs o :
  postcssOptions (configured configs) = Some o →
  loader o = None ∧ (minify o = None ∨ minify o = Some true).
Proof.
  unfold configured. revert o.
  induction configs as [|config configs IH] using rev_ind; [done|].
  rewrite fold_left_app. simpl. by apply configResolved_fields.
Qed.

Lemma configured_minifies configs :
  loader (minifyOptions (configured configs)) = Some "css"
  ∧ minify (minifyOptions (configured configs)) = Some true.
Proof.
  unfold minifyOptions, nullish.
  destruct (postcssOptions (configured configs)) as [o|] eqn:Ho; [|done].
  destruct (configured_fields _ _ Ho) as [Hl [Hm | Hm]]; simpl;
    rewrite Hl, Hm; done.
Qed.


(** ** The untouched edit buffer *)

Lemma weave_nothing (out : nat → string) (k : nat) (text : string) :
  (∀ i, out i = "") → MagicString.weave out k text = text.
Proof.
  intros Hout. revert k.
  induction text as [|c text IH]; intros k; simpl; [done|].
  by rewrite Hout, IH.
Qed.

Lemma toString_new (code : string) :
  MagicString.toString (MagicString.new code) = code.
Proof.
  unfold MagicString.toString. simpl.
  apply weave_nothing. intros i. unfold MagicString.outroAt. simpl.
  by rewrite lookup_empty.
Qed.

Lemma hasChanged_new (code : string) :
  MagicString.hasChanged (MagicString.new code) = false.
Proof.
  unfold MagicString.hasChanged. rewrite toString_new. simpl.
  by rewrite String.eqb_refl.
Qed.

Section NoCandidates.

Context `{Imports}.
Variable options : FontlessOptions.
Variable plugin : PluginState.

Lemma run_no_tasks id opts schedule σ :
  run options plugin id opts schedule σ [] = (σ, []).
Proof. induction schedule as [|i schedule IH]; simpl; [done|apply IH]. Qed.

Lemma candidate_not_eligible existing parentOffset this node :
  ¬ eligible options this node →
  candidate options existing parentOffset this node = None.
Proof.
  intros Hno. unfold candidate.
  destruct (skipped options this node) eqn:Hs; [done|].
  by apply eligible_skipped in Hs.
Qed.

Lemma no_eligible_no_tasks root parentOffset existing :
  (∀ entry, entry ∈ walk root → ¬ eligible options entry.1 entry.2) →
  (processNode options root parentOffset existing []).2 = [].
Proof.
  intros Hno. unfold processNode. simpl.
  generalize (scanExisting (walk root) existing). intros existing'.
  induction (walk root) as [|entry entries IH]; [done|]. simpl.
  rewrite candidate_not_eligible by (apply Hno; left).
  apply IH. intros e He. apply Hno. by right.
Qed.

Lemma transformCSS_no_tasks code id opts registry schedule :
  (∀ entry, entry ∈ walk (parse code) → ¬ eligible options entry.1 entry.2) →
  transformCSS options plugin code id opts registry schedule
  = Some (MagicString.new code, registry).
Proof.
  intros Hno. unfold transformCSS.
  pose proof (no_eligible_no_tasks (parse code) 0 ∅ Hno) as Ht.
  destruct (processNode options (parse code) 0 ∅ []) as [existing promises].
  simpl in Ht. subst promises. by rewrite run_no_tasks.
Qed.

(** C8, as amended.  The bundle hook changes nothing but the source of a
    CSS asset, and only to the text of an edit buffer that reports a
    change.  When no declaration of any CSS asset is eligible (each one is
    inside [@font-face], or its property is neither [font-family] nor
    [font] nor, while custom properties are processed, a custom property),
    every rewrite reports no change and the hook returns the bundle and the
    registry as they were, under every schedule. *)
Theorem bundle_replaced_only_when_changed (schedules : string → list nat)
    (bundle : OutputBundle) (registry : Registry.t) :
  (∀ bundle' registry',
     generateBundle options plugin schedules bundle registry = Some (bundle', registry') →
     Forall2
       (λ before after,
          before.1 = after.1
          ∧ (after.2 = before.2
             ∨ ∃ fileName source s before_registry after_registry,
                 before.2 = OutputAsset fileName source
                 ∧ isCSS fileName = true
                 ∧ transformCSS options plugin source before.1
                     {| relative := Some true |} before_registry (schedules before.1)
                   = Some (s, after_registry)
                 ∧ MagicString.hasChanged s = true
                 ∧ after.2 = OutputAsset fileName (MagicString.toString s)))
       bundle bundle')
  ∧ ((∀ key fileName source,
        (key, OutputAsset fileName source) ∈ bundle → isCSS fileName = true →
        ∀ entry, entry ∈ walk (parse source) → ¬ eligible options entry.1 entry.2) →
     (∀ key fileName source registry0,
        (key, OutputAsset fileName source) ∈ bundle → isCSS fileName = true →
        ∃ s, transformCSS options plugin source key {| relative := Some true |}
               registry0 (schedules key) = Some (s, registry0)
             ∧ MagicString.hasChanged s = false)
     ∧ generateBundle options plugin schedules bundle registry
       = Some (bundle, registry)).
Proof.
  split.
  - revert registry.
    induction bundle as [|[key chunk] rest IH]; intros registry bundle' registry'.
    + simpl. intros [= <- <-]. constructor.
    + simpl. destruct chunk as [fileName source | fileName chunkCode].
      * destruct (isCSS fileName) eqn:Hcss.
        -- destruct (transformCSS _ _ _ _ _ _ _) as [[s0 registry0]|] eqn:Ht; [|done].
           destruct (generateBundle _ _ _ rest registry0) as [[rest' registry'']|] eqn:Hg; [|done].
           intros [= <- <-]. constructor; [|by eapply IH].
           simpl. split; [done|].
           destruct (MagicString.hasChanged s0) eqn:Hch; [|by left].
           right. by exists fileName, source, s0, registry, registry0.
        -- destruct (generateBundle _ _ _ rest registry) as [[rest' registry'']|] eqn:Hg; [|done].
           intros [= <- <-]. constructor; [by split; [|left]|by eapply IH].
      * destruct (generateBundle _ _ _ rest registry) as [[rest' registry'']|] eqn:Hg; [|done].
        intros [= <- <-]. constructor; [by split; [|left]|by eapply IH].
  - intros Hno. split.
    + intros key fileName source registry0 Hin Hcss.
      exists (MagicString.new source). split; [|apply hasChanged_new].
      apply transformCSS_no_tasks. by eapply Hno.
    + revert registry.
      induction bundle as [|[key chunk] rest IH]; intros registry; [done|].
      assert (∀ registry0, generateBundle options plugin schedules rest registry0
                           = Some (rest, registry0)) as Hrest.
      { apply IH. intros k f src0 Hin. apply (Hno k f src0). by right. }
      simpl. destruct chunk as [fileName source | fileName chunkCode].
      * destruct (isCSS fileName) eqn:Hcss; [|by rewrite Hrest].
        rewrite transformCSS_no_tasks by (eapply Hno; [left|done]).
        by rewrite hasChanged_new, Hrest.
      * by rewrite Hrest.
Qed.

End NoCandidates.

(** A bundle whose only stylesheet has no eligible declaration. *)
Lemma bundle_replaced_only_when_changed_witness :
  generateBundle (H := Sample.imports) Sample.options Sample.build (λ _, [0; 0])
    [("assets/a.css", OutputAsset "assets/a.css" Sample.sheetPlain);
     ("assets/a.js", OutputChunk "assets/a.js" "export {}")]
    Registry.empty
  = Some ([("assets/a.css", OutputAsset "assets/a.css" Sample.sheetPlain);
           ("assets/a.js", OutputChunk "assets/a.js" "export {}")],
          Registry.empty).
Proof.
  apply (bundle_replaced_only_when_changed (H := Sample.imports)).
  intros key fileName source Hin Hcss entry Hentry.
  apply list_elem_of_In in Hin. simpl in Hin.
  destruct Hin as [[= <- <- <-] | [[=] | []]].
  apply list_elem_of_In in Hentry. vm_compute in Hentry.
  destruct Hentry as [<- | []].
  intros [[Hp | [Hp | [Hp _]]] _]; vm_compute in Hp; discriminate Hp.
Defined.

(** C8 as stated fails while custom properties are processed: the sample
    stylesheet [a{--f:Foo}] has no [font-family] or [font] declaration, yet
    its rewrite reports a change and the hook replaces the asset's source. *)
Lemma custom_property_sheet_replaced :
  (∀ entry, entry ∈ walk (parse (Imports := Sample.imports) Sample.sheetVariable) →
            property entry.2 ≠ "font-family" ∧ property entry.2 ≠ "font")
  ∧ (MagicString.hasChanged <$>
       (fst <$> transformCSS (H := Sample.imports) Sample.optionsWithVariables
                  Sample.build Sample.sheetVariable "assets/a.css"
                  {| relative := Some true |} Registry.empty [0; 0; 0; 0]))
    = Some true
  ∧ (fst <$> generateBundle (H := Sample.imports) Sample.optionsWithVariables
               Sample.build (λ _, [0; 0; 0; 0])
               [("assets/a.css", OutputAsset "assets/a.css" Sample.sheetVariable)]
               Registry.empty)
    = Some [("assets/a.css",
             OutputAsset "assets/a.css"
               ("@font-face{font-family:'Foo';src:local('Foo'),url(https://fonts.test/foo.woff2)}"
                +:+ "@font-face{font-family:'Foo Fallback: Arial';src:local('Arial')}"
                +:+ "a{--f:Foo}"))].
Proof.
  split; [|split].
  - intros entry Hentry. apply list_elem_of_In in Hentry.
    vm_compute in Hentry. destruct Hentry as [<- | []].
    split; intros Hp; vm_compute in Hp; discriminate Hp.
  - vm_compute. reflexivity.
  - vm_compute. reflexivity.
Qed.

(** ** The first walk *)

Section FirstWalk.

Context `{Imports}.

(** The first walk adds families only for declarations whose closest
    at-rule is named [font-family]. *)
Lemma scanExisting_other_atrules visited existing :
  (∀ entry, entry ∈ visited → atrule entry.1 ≠ Some "font-family") →
  scanExisting visited existing = existing.
Proof.
  unfold scanExisting. revert existing.
  induction visited as [|entry visited IH]; intros existing Hno; [done|].
  simpl. rewrite bool_decide_eq_false_2 by (apply Hno; left). simpl.
  apply IH. intros e He. apply Hno. by right.
Qed.

End FirstWalk.

(** C1, on the code.  For [@font-face{font-family:'Foo'}a{font-family:'Foo'}]
    the first walk leaves the existing-family set empty, the second walk
    schedules a resolution of "Foo", and the output starts with a newly
    generated [@font-face] rule for "Foo". *)
Theorem declared_family_resolved_again :
  scanExisting (H := Sample.imports)
    (walk (parse (Imports := Sample.imports) Sample.sheetDeclared)) ∅ = ∅
  ∧ (processNode (H := Sample.imports) Sample.options
       (parse (Imports := Sample.imports) Sample.sheetDeclared) 0 ∅ []).2
    = [AwaitResolve "Foo"
         (Some {| generic := None; fallbackNames := []; index := 48 |})]
  ∧ (MagicString.toString <$>
       (fst <$> transformCSS (H := Sample.imports) Sample.options Sample.build
                  Sample.sheetDeclared "assets/a.css" {| relative := Some true |}
                  Registry.empty [0; 0; 0; 0]))
    = Some (Sample.fontFaceText "Foo" Sample.fontFoo
            +:+ "@font-face{font-family:'Foo Fallback: Arial';src:local('Arial')}"
            +:+ "@font-face{font-family:'Foo'}a{font-family:'Foo', "
            +:+ dquote +:+ "Foo Fallback: Arial" +:+ dquote +:+ "}").
Proof.
  split; [|split]; vm_compute; reflexivity.
Qed.

(** ** The preload registry *)

Lemma wellFormed_empty : wellFormed Registry.empty.
Proof. intros id r. simpl. by rewrite lookup_empty. Qed.

Lemma wellFormed_add id url m : wellFormed m → wellFormed (Registry.add id url m).
Proof.
  intros Hwf id' r'. unfold Registry.add.
  destruct (Registry.entries m !! id) as [r|] eqn:Hid; simpl.
  - rewrite length_alter. rewrite lookup_insert.
    case_decide as Hk; [intros [= <-]; by eapply Hwf | apply Hwf].
  - rewrite length_app. simpl. rewrite lookup_insert.
    case_decide as Hk; [intros [= <-]; lia|].
    intros Hr. apply Hwf in Hr. lia.
Qed.

Lemma wellFormed_share to from m : wellFormed m → wellFormed (Registry.share to from m).
Proof.
  intros Hwf id' r'. unfold Registry.share.
  destruct (Registry.entries m !! from) as [r|] eqn:Hfrom; simpl; [|apply Hwf].
  rewrite lookup_insert.
  case_decide as Hk; [intros [= <-]; by eapply Hwf | apply Hwf].
Qed.

(** The rewrite's mutation of the registry (lines 55-56) is a union with
    the set the id already has. *)
Lemma registry_add_union id url m :
  wellFormed m →
  Registry.get id (Registry.add id url m)
  = Some (default ∅ (Registry.get id m) ∪ {[url]}).
Proof.
  intros Hwf. unfold Registry.get, Registry.add.
  destruct (Registry.entries m !! id) as [r|] eqn:Hid; simpl.
  - rewrite lookup_insert_eq. simpl.
    destruct (lookup_lt_is_Some_2 (Registry.store m) r (Hwf _ _ Hid)) as [urls Hr].
    rewrite list_lookup_alter_eq, Hr. done.
  - rewrite lookup_insert_eq. simpl.
    rewrite lookup_app_r by lia. rewrite Nat.sub_diag. simpl.
    by rewrite union_empty_l_L.
Qed.

(** Two urls recorded for one id end up in its set in either order. *)
Lemma registry_add_comm id url1 url2 m :
  wellFormed m →
  Registry.get id (Registry.add id url1 (Registry.add id url2 m))
  = Registry.get id (Registry.add id url2 (Registry.add id url1 m)).
Proof.
  intros Hwf.
  rewrite !registry_add_union by auto using wellFormed_add. simpl.
  f_equal. set_solver.
Qed.

(** The loop of [renderChunk] changes the facade's entry only. *)
Lemma renderChunk_loop_others facade files m :
  let m' := fold_left
              (λ m file, if Registry.has file m then Registry.share facade file m else m)
              files m in
  Registry.store m' = Registry.store m
  ∧ ∀ file, file ≠ facade → Registry.entries m' !! file = Registry.entries m !! file.
Proof.
  revert m. induction files as [|f files IH]; intros m; [done|].
  cbn [fold_left]. cbn zeta in IH.
  destruct (Registry.has f m); [|apply IH].
  destruct (IH (Registry.share facade f m)) as [Hstore Hentries].
  unfold Registry.share in *.
  destruct (Registry.entries m !! f) as [r|]; [|done].
  cbn [Registry.store Registry.entries] in *. split; [done|].
  intros file Hne. rewrite Hentries by done. by rewrite lookup_insert_ne.
Qed.

(** Whatever the facade held and whatever the earlier modules hold, after
    [renderChunk] the facade holds the set of the last module, when that
    module has an entry. *)
Lemma renderChunk_last_module facade earlier file m :
  truthy facade = true → file ≠ facade → Registry.has file m = true →
  Registry.get facade
    (renderChunk {| facadeModuleId := Some facade; moduleIds := earlier ++ [file] |} m)
  = Registry.get file m.
Proof.
  intros Hfacade Hne Hhas. unfold renderChunk.
  cbn [facadeModuleId moduleIds]. rewrite Hfacade, fold_left_app.
  destruct (renderChunk_loop_others facade earlier m) as [Hstore Hentries].
  cbn zeta in Hstore, Hentries. cbn [fold_left].
  set (m' := fold_left _ earlier m) in *.
  unfold Registry.has, Registry.get, Registry.share in *.
  rewrite Hentries by done.
  destruct (Registry.entries m !! file) as [r|] eqn:Hfile; [|done].
  rewrite bool_decide_eq_true_2 by eauto.
  cbn [Registry.entries Registry.store]. rewrite lookup_insert_eq.
  cbn. by rewrite Hstore.
Qed.

(** After [renderChunk] the facade and the module name one set: a url
    recorded for the module later is in the facade's entry too. *)
Example facade_shares_the_set :
  let m := Registry.add "a.css" "u1" Registry.empty in
  let chunk := {| facadeModuleId := Some "entry.js"; moduleIds := ["a.css"] |} in
  Registry.get "entry.js" (Registry.add "a.css" "u3" (renderChunk chunk m))
  = Some {["u1"; "u3"]}.
Proof. vm_compute. reflexivity. Qed.

(** C2, on the code.  With "a.css" holding {u1} and "b.css" holding {u2},
    [renderChunk] leaves the facade "entry.js" with the set of whichever
    module comes last in [moduleIds]: {u2} for the order a, b and {u1} for
    the order b, a; in neither order is it the union {u1, u2}. *)
Theorem facade_entry_is_last_module :
  let m := Registry.add "b.css" "u2" (Registry.add "a.css" "u1" Registry.empty) in
  let chunk ids := {| facadeModuleId := Some "entry.js"; moduleIds := ids |} in
  Registry.get "a.css" m = Some {["u1"]}
  ∧ Registry.get "b.css" m = Some {["u2"]}
  ∧ Registry.get "entry.js" (renderChunk (chunk ["a.css"; "b.css"]) m) = Some {["u2"]}
  ∧ Registry.get "entry.js" (renderChunk (chunk ["b.css"; "a.css"]) m) = Some {["u1"]}
  ∧ Registry.get "entry.js" (renderChunk (chunk ["a.css"; "b.css"]) m)
    ≠ Registry.get "entry.js" (renderChunk (chunk ["b.css"; "a.css"]) m).
Proof.
  repeat split; try (vm_compute; reflexivity).
  vm_compute. discriminate.
Qed.

(** ** One task under interference *)

Section OneTask.

Context `{Imports}.
Variable options : FontlessOptions.
Variable plugin : PluginState.
Variable id : string.
Variable opts : TransformCSSOptions.

Variable P : RewriteState → Prop.
Variable fontFamily0 : string.
Variable fallbackOptions0 : option FallbackOptions.
Variable result : FontFaceResolution.
Variable first : FontFaceData.
Variable others : list FontFaceData.

Hypothesis resolved :
  resolveFontFace options fontFamily0 (resolveArguments fallbackOptions0) = Some result.
Hypothesis resolvedFonts : fonts result = Some (first :: others).

Local Abbreviation all := (first :: others).
Local Abbreviation fallbackMap0 := (makeFallbackMap fontFamily0 result).
Local Abbreviation generated :=
  (flat_map (declarationsOf id opts fontFamily0 fallbackMap0) all).
Local Abbreviation invariant :=
  (taskInvariant plugin id opts P fontFamily0 fallbackOptions0 fallbackMap0 all).
Local Abbreviation hasFallbacks := (hasFallbackDeclarations fontFamily0 fallbackMap0).

Local Abbreviation lastEdit :=
  (finalEdit plugin id opts P fontFamily0 fallbackOptions0 fallbackMap0 all).

Lemma recordPreload_s fontFamily font σ :
  s (recordPreload options id fontFamily font σ) = s σ.
Proof.
  unfold recordPreload.
  destruct (shouldPreload options fontFamily font); [|done].
  destruct (firstRemoteUrl (src font)); [|done].
  by destruct (truthy _).
Qed.

Lemma fontLoop_invariant fr done rest σ :
  frameOf fontFamily0 fallbackOptions0 fallbackMap0 fr →
  queuedUnder plugin P generated (prefaces fr) →
  all = done ++ rest →
  insertFontFamilies fr = existsb hasFallbacks done →
  invariant (fontLoop fr rest σ).2
  ∧ ((fontLoop fr rest σ).2 = Settled → lastEdit (s σ) (s (fontLoop fr rest σ).1)).
Proof.
  intros (HF & Hfo & Hfm) Hq Hall Hins.
  destruct rest as [|font rest]; cbn [fontLoop fst snd].
  - split; [done|]. intros _. exists (prefaces fr). split; [done|].
    rewrite app_nil_r in Hall. rewrite Hall, <- Hins.
    unfold finish, splice. cbn [s]. by rewrite Hfo, Hfm.
  - split; [|done]. split; [done|]. split; [done|]. by exists done.
Qed.

Lemma in_generated done font rest d :
  all = done ++ font :: rest →
  d ∈ declarationsOf id opts fontFamily0 fallbackMap0 font →
  d ∈ generated.
Proof.
  intros -> Hd. apply list_elem_of_In, in_flat_map.
  exists font. split; [apply in_or_app; right; by left|].
  by apply list_elem_of_In.
Qed.

Lemma declarationLoop_invariant declarations :
  ∀ fr σ σ0 done font rest,
    P σ0 → injectedDeclarations σ0 ⊆ injectedDeclarations σ →
    frameOf fontFamily0 fallbackOptions0 fallbackMap0 fr →
    queuedUnder plugin P generated (prefaces fr) →
    (∀ d, d ∈ declarations → d ∈ generated) →
    all = done ++ font :: rest →
    insertFontFamilies fr = existsb hasFallbacks done →
    invariant
      (declarationLoop plugin fr declarations
         (List.length (generateFontFallbacks fontFamily0 font fallbackMap0)) rest σ).2
    ∧ ((declarationLoop plugin fr declarations
          (List.length (generateFontFallbacks fontFamily0 font fallbackMap0)) rest σ).2
       = Settled →
       lastEdit (s σ)
         (s (declarationLoop plugin fr declarations
               (List.length (generateFontFallbacks fontFamily0 font fallbackMap0))
               rest σ).1)).
Proof.
  induction declarations as [|declaration todo IH];
    intros fr σ σ0 done font rest HP Hsub Hfr Hq Hgen Hall Hins;
    cbn [declarationLoop].
  - apply (fontLoop_invariant _ (done ++ [font])).
    + destruct (0 <? _)%nat; [|done]. by destruct Hfr as (? & ? & ?).
    + by destruct (0 <? _)%nat.
    + by rewrite <- app_assoc.
    + rewrite existsb_app. cbn [existsb]. rewrite orb_false_r, <- Hins.
      unfold hasFallbackDeclarations.
      destruct (0 <? _)%nat; cbn [setInsert insertFontFamilies];
        [by rewrite orb_true_r|by rewrite orb_false_r].
  - assert (∀ d, d ∈ todo → d ∈ generated) as Hgen'
      by (intros d Hd; apply Hgen; by right).
    destruct (decide (declaration ∈ injectedDeclarations σ)) as [Hin|Hnew].
    + by eapply IH.
    + assert (declaration ∉ injectedDeclarations σ0) as Hnew0 by set_solver.
      assert (declaration ∈ generated) as Hd by (apply Hgen; left).
      destruct (isDev plugin) eqn:Hdev.
      * eapply (IH _ (markInjected declaration σ) σ0); try done.
        -- cbn [markInjected injectedDeclarations]. set_solver.
        -- unfold queuedUnder. cbn [pushPreface prefaces].
           apply Forall_app. split; [done|].
           constructor; [|done]. exists declaration, σ0.
           unfold rendered. by rewrite Hdev.
      * cbn [fst snd]. split; [|done].
        split; [done|]. split; [done|]. split; [done|]. split; [eauto|].
        split; [done|]. split; [done|]. by exists done, font.
Qed.

Lemma resume_invariant σ t :
  P σ → invariant t →
  invariant (resume options plugin id opts σ t).2
  ∧ (t ≠ Settled → (resume options plugin id opts σ t).2 = Settled →
     lastEdit (s σ) (s (resume options plugin id opts σ t).1)).
Proof.
  intros HP Ht. destruct t as [fontFamily fo | fr font rest | fr d todo n rest |].
  - destruct Ht as [-> ->]. cbn [resume]. rewrite resolved.
    cbn [from_option Datatypes.id]. rewrite resolvedFonts. cbn [fontLoop fst snd].
    split; [|done].
    split; [done|]. split; [constructor|]. by exists [].
  - destruct Ht as (Hfr & Hq & done & Hall & Hins).
    pose proof Hfr as (HF & Hfo & Hfm). cbn [resume]. rewrite HF, Hfm.
    destruct (declarationLoop_invariant
      (declarationsOf id opts fontFamily0 fallbackMap0 font)
      fr σ σ done font rest HP) as [Hinv Hlast]; try done.
    { intros d Hd. by eapply in_generated. }
  - destruct Ht as (Hfr & Hq & Hdev & (σ0 & HP0 & Hnew) & Hd & Htodo
                    & done & font & Hall & Hins & ->).
    cbn [resume].
    destruct (declarationLoop_invariant todo
      (pushPreface (minified plugin d) fr) σ σ done font rest HP)
      as [Hinv Hlast]; try done.
    unfold queuedUnder. cbn [pushPreface prefaces].
    apply Forall_app. split; [done|].
    constructor; [|done]. exists d, σ0. unfold rendered. by rewrite Hdev.
  - done.
Qed.

Lemma reaches_invariant t :
  reaches options plugin id opts P (AwaitResolve fontFamily0 fallbackOptions0) t →
  invariant t.
Proof.
  induction 1 as [|σ t Hreach IH HP]; [done|].
  by apply resume_invariant.
Qed.

End OneTask.

Lemma prepend_nothing (s0 : MagicString.t) : MagicString.prepend "" s0 = s0.
Proof. by destruct s0. Qed.

Section Splicing.

Context `{Imports}.
Variable options : FontlessOptions.
Variable plugin : PluginState.
Variable id : string.
Variable opts : TransformCSSOptions.

(** C10. When every declaration generated for a candidate's family is
    already in the injected-declaration set each time its task is resumed,
    and some font has fallback declarations, the step in which the task
    settles prepends the empty text, which leaves the buffer as it is, and
    still inserts the quoted fallback names at the candidate's offset. *)
Theorem dedup_keeps_fallback_names (fontFamily : string) (fo : FallbackOptions)
    (result : FontFaceResolution) (first : FontFaceData)
    (others : list FontFaceData) (t : Task) (σ : RewriteState) :
  let fallbackMap0 := makeFallbackMap fontFamily result in
  let allInjected := λ σ0 : RewriteState,
    ∀ d, d ∈ flat_map (declarationsOf id opts fontFamily fallbackMap0) (first :: others) →
         d ∈ injectedDeclarations σ0 in
  resolveFontFace options fontFamily (resolveArguments (Some fo)) = Some result →
  fonts result = Some (first :: others) →
  existsb (hasFallbackDeclarations fontFamily fallbackMap0) (first :: others) = true →
  reaches options plugin id opts allInjected (AwaitResolve fontFamily (Some fo)) t →
  allInjected σ →
  t ≠ Settled →
  (resume options plugin id opts σ t).2 = Settled →
  s (resume options plugin id opts σ t).1
  = MagicString.prependLeft (index fo) (insertedText fallbackMap0)
      (MagicString.prepend "" (s σ))
  ∧ MagicString.prepend "" (s σ) = s σ.
Proof.
  intros fallbackMap0 allInjected Hres Hfonts Hfb Hreach Hσ Hne Hsettled.
  split; [|apply prepend_nothing].
  pose proof (reaches_invariant options plugin id opts allInjected
    fontFamily (Some fo) result first others Hres Hfonts t Hreach) as Hinv.
  destruct (resume_invariant options plugin id opts allInjected
    fontFamily (Some fo) result first others Hres Hfonts σ t Hσ Hinv)
    as [_ Hlast].
  destruct (Hlast Hne Hsettled) as (texts & Hq & ->).
  assert (texts = []) as ->.
  { destruct texts as [|text texts]; [done|].
    apply Forall_cons in Hq as [(d & σ0 & Hσ0 & Hnew & Hgen & _) _].
    destruct Hnew. by apply Hσ0. }
  unfold splice. fold fallbackMap0. by rewrite Hfb.
Qed.

End Splicing.


(** The dev-server rewrite of the sample with two uses of "Foo", after the
    first task has settled: the second task finds both generated
    declarations injected, prepends nothing and splices at offset 50. *)
Lemma dedup_keeps_fallback_names_witness :
  let opts := {| relative := Some true |} in
  let second :=
    Some {| generic := Some "sans-serif"; fallbackNames := []; index := 50 |} in
  let σ1 :=
    (run (H := Sample.imports) Sample.options Sample.serve "k" opts [0; 0]
       (initialState Sample.sheetTwice Registry.empty)
       (processNode (H := Sample.imports) Sample.options
          (parse (Imports := Sample.imports) Sample.sheetTwice) 0 ∅ []).2).1 in
  let t1 :=
    (resume (H := Sample.imports) Sample.options Sample.serve "k" opts σ1
       (AwaitResolve "Foo" second)).2 in
  s (resume (H := Sample.imports) Sample.options Sample.serve "k" opts σ1 t1).1
  = MagicString.prependLeft 50
      (", " +:+ dquote +:+ "Foo Fallback: Arial" +:+ dquote) (s σ1).
Proof.
  intros opts second σ1 t1.
  assert (∀ d,
    d ∈ flat_map
          (declarationsOf (H := Sample.imports) "k" opts "Foo"
             (makeFallbackMap "Foo"
                {| fonts := Some [Sample.fontFoo]; fallbacks := Some ["Arial"] |}))
          [Sample.fontFoo] →
    d ∈ injectedDeclarations σ1) as Hσ1.
  { intros d Hd. apply list_elem_of_In in Hd. simpl in Hd.
    destruct Hd as [<- | [<- | []]];
      apply (bool_decide_unpack _); vm_compute; exact I. }
  destruct (dedup_keeps_fallback_names (H := Sample.imports) Sample.options
              Sample.serve "k" opts "Foo"
              {| generic := Some "sans-serif"; fallbackNames := []; index := 50 |}
              {| fonts := Some [Sample.fontFoo]; fallbacks := Some ["Arial"] |}
              Sample.fontFoo [] t1 σ1) as [Hs Hsame].
  - reflexivity.
  - reflexivity.
  - reflexivity.
  - apply reaches_resume; [apply reaches_start | exact Hσ1].
  - exact Hσ1.
  - discriminate.
  - reflexivity.
  - rewrite Hsame in Hs. exact Hs.
Defined.

(** ** The edit buffer after a sequence of edits *)

Lemma append_cons (c : ascii) (x y : string) :
  String c x +:+ y = String c (x +:+ y).
Proof. reflexivity. Qed.

Lemma append_empty_r (x : string) : x +:+ "" = x.
Proof.
  induction x as [|c x IH]; [done|]. by rewrite append_cons, IH.
Qed.

Lemma append_associative (x y z : string) : (x +:+ y) +:+ z = x +:+ y +:+ z.
Proof.
  induction x as [|c x IH]; [done|]. by rewrite !append_cons, IH.
Qed.

Lemma join_cons (x : string) (l : list string) :
  join "" (x :: l) = x +:+ join "" l.
Proof.
  destruct l as [|y l]; [|done]. symmetry. apply append_empty_r.
Qed.

Lemma join_app (l1 l2 : list string) :
  join "" (l1 ++ l2) = join "" l1 +:+ join "" l2.
Proof.
  induction l1 as [|x l1 IH]; [done|].
  rewrite <- app_comm_cons, !join_cons, IH. by rewrite append_associative.
Qed.

Lemma chars_app (x y : string) : chars (x +:+ y) = chars x ++ chars y.
Proof.
  unfold chars. induction x as [|c x IH]; [done|].
  rewrite append_cons. cbn. by f_equal.
Qed.

Lemma before_from (n : nat) (text : string) :
  before n text +:+ from n text = text.
Proof.
  revert text. induction n as [|n IH]; intros [|c text]; cbn; try done.
  by rewrite append_cons, IH.
Qed.

Lemma length_before (n : nat) (text : string) :
  n ≤ String.length text → String.length (before n text) = n.
Proof.
  revert text. induction n as [|n IH]; intros [|c text]; simpl; try done; try lia.
  intros Hn. rewrite IH; lia.
Qed.

Lemma applyAll_snoc es e s0 :
  MagicString.applyAll (es ++ [e]) s0
  = MagicString.apply e (MagicString.applyAll es s0).
Proof. unfold MagicString.applyAll. by rewrite fold_left_app. Qed.

Lemma applyAll_app es1 es2 s0 :
  MagicString.applyAll (es1 ++ es2) s0
  = MagicString.applyAll es2 (MagicString.applyAll es1 s0).
Proof. unfold MagicString.applyAll. by rewrite fold_left_app. Qed.

Lemma original_apply e s0 :
  MagicString.original (MagicString.apply e s0) = MagicString.original s0.
Proof.
  destruct e as [content | index content]; simpl; [done|].
  unfold MagicString.prependLeft. by destruct (MagicString.byEnd s0 index).
Qed.

Lemma original_applyAll es s0 :
  MagicString.original (MagicString.applyAll es s0) = MagicString.original s0.
Proof.
  induction es as [|e es IH] using rev_ind; [done|].
  by rewrite applyAll_snoc, original_apply.
Qed.

Lemma byEnd_original s1 s2 index :
  MagicString.original s1 = MagicString.original s2 →
  MagicString.byEnd s1 index = MagicString.byEnd s2 index.
Proof. unfold MagicString.byEnd. by intros ->. Qed.

Lemma intro_applyAll code es :
  MagicString.intro (MagicString.applyAll es (MagicString.new code))
  = join "" (rev (introduced code es)).
Proof.
  induction es as [|e es IH] using rev_ind; [done|].
  rewrite applyAll_snoc. unfold introduced in *. rewrite omap_app.
  destruct e as [content | index content]; simpl.
  - rewrite rev_app_distr. cbn [rev app]. by rewrite join_cons, IH.
  - unfold MagicString.prependLeft.
    rewrite (byEnd_original _ (MagicString.new code))
      by apply original_applyAll.
    destruct (MagicString.byEnd (MagicString.new code) index); simpl.
    + by rewrite app_nil_r.
    + rewrite rev_app_distr. cbn [rev app]. by rewrite join_cons, IH.
Qed.

Lemma outroAt_applyAll code es index :
  MagicString.byEnd (MagicString.new code) index = true →
  MagicString.outroAt (MagicString.applyAll es (MagicString.new code)) index
  = join "" (rev (insertedAt index es)).
Proof.
  intros Hend.
  induction es as [|e es IH] using rev_ind.
  - unfold MagicString.outroAt. simpl. by rewrite lookup_empty.
  - rewrite applyAll_snoc. unfold insertedAt in *. rewrite omap_app.
    destruct e as [content | i content]; simpl.
    + by rewrite app_nil_r.
    + unfold MagicString.prependLeft.
      rewrite (byEnd_original _ (MagicString.new code))
        by apply original_applyAll.
      destruct (i =? index)%nat eqn:Hi.
      * apply Nat.eqb_eq in Hi as ->. rewrite Hend.
        unfold MagicString.outroAt at 1. simpl. rewrite lookup_insert_eq. simpl.
        rewrite rev_app_distr. cbn [rev app]. by rewrite join_cons, IH.
      * apply Nat.eqb_neq in Hi. simpl. rewrite app_nil_r.
        destruct (MagicString.byEnd (MagicString.new code) i); [|done].
        unfold MagicString.outroAt at 1. simpl.
        by rewrite lookup_insert_ne.
Qed.

Lemma outroAt_no_chunk code es index :
  MagicString.byEnd (MagicString.new code) index = false →
  MagicString.outroAt (MagicString.applyAll es (MagicString.new code)) index = "".
Proof.
  intros Hend.
  induction es as [|e es IH] using rev_ind.
  - unfold MagicString.outroAt. simpl. by rewrite lookup_empty.
  - rewrite applyAll_snoc.
    destruct e as [content | i content]; simpl; [done|].
    unfold MagicString.prependLeft.
    rewrite (byEnd_original _ (MagicString.new code))
      by apply original_applyAll.
    destruct (MagicString.byEnd (MagicString.new code) i) eqn:Hi; [|done].
    unfold MagicString.outroAt at 1. simpl.
    rewrite lookup_insert_ne; [done|]. intros ->. congruence.
Qed.

Lemma weave_keeps_text (out : nat → string) (k : nat) (text : string) :
  sublist (chars text) (chars (MagicString.weave out k text)).
Proof.
  revert k. induction text as [|c text IH]; intros k; simpl; [constructor|].
  unfold chars. simpl. apply sublist_skip. fold (chars text).
  change (String.list_ascii_of_string ?x) with (chars x).
  rewrite chars_app. by apply sublist_inserts_l.
Qed.

Lemma weave_app (out : nat → string) (k : nat) (x y : string) :
  MagicString.weave out k (x +:+ y)
  = MagicString.weave out k x +:+ MagicString.weave out (k + String.length x) y.
Proof.
  revert k. induction x as [|c x IH]; intros k; simpl.
  - by rewrite Nat.add_0_r.
  - rewrite IH, append_cons, append_associative.
    by replace (k + S (String.length x)) with (S k + String.length x) by lia.
Qed.

(** The woven text ends with what was inserted after its last character. *)
Lemma weave_last (out : nat → string) (k : nat) (text : string) :
  text ≠ "" →
  ∃ woven, MagicString.weave out k text = woven +:+ out (k + String.length text)
           ∧ sublist (chars text) (chars woven).
Proof.
  revert k. induction text as [|c text IH]; intros k Hne; [done|].
  destruct text as [|c' text].
  - exists (String c ""). split; [|done].
    cbn [MagicString.weave String.length]. rewrite append_empty_r, append_cons.
    by replace (k + 1) with (S k) by lia.
  - destruct (IH (S k)) as (woven & Hw & Hsub); [done|].
    exists (String c (out (S k) +:+ woven)). split.
    + change (MagicString.weave out k (String c (String c' text)))
        with (String c (out (S k) +:+ MagicString.weave out (S k) (String c' text))).
      rewrite Hw, append_cons, append_associative.
      by replace (k + String.length (String c (String c' text)))
        with (S k + String.length (String c' text)) by (cbn [String.length]; lia).
    + unfold chars. simpl. apply sublist_skip.
      change (String.list_ascii_of_string ?x) with (chars x).
      rewrite chars_app. by apply sublist_inserts_l.
Qed.

Lemma before_not_empty (n : nat) (text : string) :
  0 < n → n ≤ String.length text → before n text ≠ "".
Proof. destruct n, text; simpl; try lia; done. Qed.

Lemma byEnd_inside (code : string) (index : nat) :
  0 < index → index ≤ String.length code →
  MagicString.byEnd (MagicString.new code) index = true.
Proof.
  intros Hpos Hle. unfold MagicString.byEnd. simpl.
  destruct (String.length code =? 0)%nat eqn:Hlen.
  - apply Nat.eqb_eq in Hlen. lia.
  - apply andb_true_iff. split; [by apply Nat.ltb_lt|by apply Nat.leb_le].
Qed.

(** Where everything is in the text of an edit buffer that was only
    prepended to and inserted into. *)
Lemma buffer_layout (code : string) (edits : list MagicString.edit) :
  let s0 := MagicString.applyAll edits (MagicString.new code) in
  sublist (chars code) (chars (MagicString.toString s0))
  ∧ (∃ body,
       MagicString.toString s0 = MagicString.intro s0 +:+ body
       ∧ ∀ c rest, code = String c rest → ∃ rest', body = String c rest')
  ∧ (∀ content,
       MagicString.Prepend content ∈ edits →
       ∃ a b, MagicString.intro s0 = a +:+ content +:+ b)
  ∧ (∀ index,
       0 < index ≤ String.length code →
       ∃ left right,
         MagicString.toString s0
         = left +:+ join "" (rev (insertedAt index edits)) +:+ right
         ∧ sublist (chars (before index code)) (chars left)
         ∧ sublist (chars (from index code)) (chars right)
         ∧ ∀ c rest, from index code = String c rest → ∃ rest', right = String c rest').
Proof.
  intros s0.
  assert (MagicString.original s0 = code) as Horig by apply original_applyAll.
  unfold MagicString.toString. rewrite Horig.
  split; [|split; [|split]].
  - rewrite !chars_app. do 2 apply sublist_inserts_l. apply weave_keeps_text.
  - eexists. split; [done|]. intros c rest ->.
    unfold s0 at 1. rewrite outroAt_no_chunk by done. simpl. eauto.
  - intros content Hin. unfold s0. rewrite intro_applyAll.
    assert (content ∈ rev (introduced code edits)) as Hrev.
    { apply list_elem_of_In. rewrite <- in_rev. apply list_elem_of_In.
      unfold introduced. apply list_elem_of_omap.
      by exists (MagicString.Prepend content). }
    apply list_elem_of_split in Hrev as (l1 & l2 & ->).
    exists (join "" l1), (join "" l2). by rewrite join_app, join_cons.
  - intros index [Hpos Hle].
    pose proof (weave_app (MagicString.outroAt s0) 0
      (before index code) (from index code)) as Hsplit.
    rewrite before_from, length_before in Hsplit by done.
    destruct (weave_last (MagicString.outroAt s0) 0 (before index code))
      as (woven & Hwoven & Hsub); [by apply before_not_empty|].
    rewrite length_before in Hwoven by done.
    rewrite Hwoven in Hsplit. cbn [Nat.add] in Hsplit. rewrite Hsplit.
    exists (MagicString.intro s0 +:+ MagicString.outroAt s0 0 +:+ woven),
      (MagicString.weave (MagicString.outroAt s0) index (from index code)).
    split; [|split; [|split]].
    + rewrite <- (outroAt_applyAll code edits index) by by apply byEnd_inside.
      fold s0. by rewrite !append_associative.
    + rewrite !chars_app. by do 2 apply sublist_inserts_l.
    + apply weave_keeps_text.
    + intros c rest ->. simpl. eauto.
Qed.

(** ** Every task of a rewrite, under every schedule *)

Lemma concat_take_out {A} (l : list (list A)) (i : nat) (h : list A) :
  l !! i = Some h → concat l ≡ₚ h ++ concat (<[i := []]> l).
Proof.
  revert i. induction l as [|x l IH]; intros [|i] Hi; simpl in *; try done.
  - by injection Hi as ->.
  - rewrite (IH i Hi). by rewrite Permutation_app_swap_app.
Qed.

Lemma concat_put_in {A} (l : list (list A)) (i : nat) (h : list A) :
  i < List.length l → concat (<[i := h]> l) ≡ₚ h ++ concat (<[i := []]> l).
Proof.
  revert i. induction l as [|x l IH]; intros [|i] Hi; simpl in *; try lia.
  - done.
  - rewrite (IH i) by lia. by rewrite Permutation_app_swap_app.
Qed.

Lemma concat_replace {A} (l : list (list A)) (i : nat) (h new : list A) :
  l !! i = Some h → concat (<[i := h ++ new]> l) ≡ₚ concat l ++ new.
Proof.
  intros Hi. rewrite concat_put_in by by eapply lookup_lt_Some.
  rewrite (concat_take_out l i h Hi).
  rewrite <- !app_assoc. apply Permutation_app_head, Permutation_app_comm.
Qed.

Section RunTracking.

Context `{Imports}.
Variable options : FontlessOptions.
Variable plugin : PluginState.
Variable id : string.
Variable opts : TransformCSSOptions.

Local Abbreviation track := (tracked options plugin id opts).
Local Abbreviation outcome := (stepOutcome options plugin id opts).
Local Abbreviation step := (resume options plugin id opts).

Lemma tracked_mono σ σ' origin t held :
  injectedDeclarations σ ⊆ injectedDeclarations σ' →
  track σ origin t held → track σ' origin t held.
Proof.
  intros Hsub. destruct t as [F fo | fr font rest | fr d todo n rest |];
    unfold tracked; cbn beta iota zeta.
  - done.
  - intros (Hfr & Hp & done & Hall & Hseen).
    split; [done|]. split; [done|]. exists done. split; [done|].
    intros x Hx. apply Hsub. by apply Hseen.
  - intros (Hfr & Hdev & Hheld & done & font & passed & Hall & Hdecl & Hn & Hseen).
    split; [done|]. split; [done|]. split; [done|].
    exists done, font, passed. repeat split; try done.
    intros x Hx. apply Hsub. by apply Hseen.
  - intros [Hheld Hseen]. split; [done|].
    intros x Hx. apply Hsub. by apply Hseen.
Qed.

Lemma recordPreload_injected fontFamily font σ :
  injectedDeclarations (recordPreload options id fontFamily font σ)
  = injectedDeclarations σ.
Proof.
  unfold recordPreload.
  destruct (shouldPreload options fontFamily font); [|done].
  destruct (firstRemoteUrl (src font)); [|done].
  by destruct (truthy _).
Qed.

Lemma finish_entry origin fr σ held :
  frameOf origin.1 origin.2 (resolvedMap options origin) fr →
  prefaces fr = rendered plugin <$> held →
  ∃ entry,
    queued entry = held
    ∧ splicedBy options origin entry
    ∧ s (finish fr σ) = MagicString.applyAll (entryEdits plugin entry) (s σ).
Proof.
  intros (HF & Hfo & Hfm) Hp.
  exists {| queued := held;
            spliced := match fallbackOptions fr with
                       | Some fo =>
                           if insertFontFamilies fr
                           then Some (index fo, insertedText (fallbackMap fr))
                           else None
                       | None => None
                       end |}.
  split; [done|]. split.
  - intros i content. cbn [spliced]. rewrite <- Hfo, <- Hfm.
    destruct (fallbackOptions fr) as [fo|]; [|done].
    destruct (insertFontFamilies fr); [|done].
    intros [= <- <-]. by exists fo.
  - unfold finish, entryEdits. cbn [s queued spliced]. rewrite Hp.
    destruct (fallbackOptions fr) as [fo|]; [|done].
    by destruct (insertFontFamilies fr).
Qed.

Lemma declarationLoop_outcome origin declarations :
  ∀ fr σ held done font passed rest,
    frameOf origin.1 origin.2 (resolvedMap options origin) fr →
    prefaces fr = rendered plugin <$> held →
    resolvedFonts options origin = done ++ font :: rest →
    declarationsOf id opts origin.1 (resolvedMap options origin) font
    = passed ++ declarations →
    (∀ d, d ∈ flat_map (declarationsOf id opts origin.1 (resolvedMap options origin)) done
              ++ passed →
          d ∈ injectedDeclarations σ) →
    outcome σ origin held
      (declarationLoop plugin fr declarations
         (List.length (generateFontFallbacks origin.1 font (resolvedMap options origin)))
         rest σ).
Proof.
  induction declarations as [|declaration todo IH];
    intros fr σ held done font passed rest Hfr Hp Hall Hdecl Hseen;
    cbn [declarationLoop].
  - rewrite app_nil_r in Hdecl.
    set (fr' := if (0 <? _)%nat then setInsert fr else fr).
    assert (frameOf origin.1 origin.2 (resolvedMap options origin) fr'
            ∧ prefaces fr' = rendered plugin <$> held) as [Hfr' Hp'].
    { unfold fr'. by destruct (0 <? _)%nat. }
    exists []. split; [constructor|]. split; [by intros d Hd%elem_of_nil|].
    rewrite app_nil_r.
    assert (∀ d, d ∈ flat_map
                   (declarationsOf id opts origin.1 (resolvedMap options origin))
                   (done ++ [font]) →
                 d ∈ injectedDeclarations σ) as Hseen'.
    { intros d Hd. apply Hseen. rewrite flat_map_app in Hd.
      cbn [flat_map] in Hd. by rewrite app_nil_r, Hdecl in Hd. }
    destruct rest as [|font' rest]; cbn [fontLoop fst snd].
    + split; [intros d; cbn [finish injectedDeclarations]; set_solver|].
      right. split; [done|]. split.
      * split; [done|]. cbn beta iota zeta. rewrite Hall. apply Hseen'.
      * by apply finish_entry.
    + split; [intros d; set_solver|].
      left. split; [done|]. split; [done|]. split; [done|].
      exists (done ++ [font]). split; [by rewrite <- app_assoc|done].
  - destruct (decide (declaration ∈ injectedDeclarations σ)) as [Hin|Hnew].
    + apply (IH fr σ held done font (passed ++ [declaration]) rest); try done.
      * by rewrite <- app_assoc.
      * intros d Hd. rewrite app_assoc in Hd.
        apply elem_of_app in Hd as [Hd | Hd%list_elem_of_singleton];
          [by apply Hseen|by subst].
    + assert (∀ d,
        d ∈ flat_map (declarationsOf id opts origin.1 (resolvedMap options origin)) done
              ++ (passed ++ [declaration]) →
        d ∈ injectedDeclarations (markInjected declaration σ)) as Hseen'.
      { intros d Hd. rewrite app_assoc in Hd. cbn [markInjected injectedDeclarations].
        apply elem_of_app in Hd as [Hd | Hd%list_elem_of_singleton];
          [apply elem_of_union_l; by apply Hseen|set_solver]. }
      destruct (isDev plugin) eqn:Hdev.
      * destruct (IH (pushPreface (declaration +:+ newline) fr)
                    (markInjected declaration σ) (held ++ [declaration])
                    done font (passed ++ [declaration]) rest)
          as (new & Hnd & Hfresh & Hinj & Hcase); try done.
        { cbn [pushPreface prefaces]. rewrite fmap_app, Hp. f_equal.
          cbn [fmap list_fmap]. unfold rendered. by rewrite Hdev. }
        { by rewrite <- app_assoc. }
        exists (declaration :: new).
        split; [|split; [|split]].
        -- constructor; [|done]. intros Hd. apply (Hfresh _ Hd).
           cbn [markInjected injectedDeclarations]. set_solver.
        -- intros d [-> | Hd]%elem_of_cons; [done|].
           intros Hd'. apply (Hfresh _ Hd).
           cbn [markInjected injectedDeclarations]. set_solver.
        -- intros d. rewrite Hinj. cbn [markInjected injectedDeclarations].
           set_solver.
        -- rewrite <- app_assoc in Hcase. exact Hcase.
      * exists [declaration].
        split; [apply NoDup_singleton|].
        split; [by intros d ->%list_elem_of_singleton|].
        split; [intros d; cbn [fst markInjected injectedDeclarations]; set_solver|].
        left. split; [done|]. cbn [snd]. split; [done|]. split; [done|].
        split; [by exists held|].
        exists done, font, passed. repeat split; done.
Qed.

Lemma unchanged_outcome σ origin t :
  track σ origin t [] → outcome σ origin [] (σ, t).
Proof.
  intros Ht. exists []. split; [constructor|].
  split; [by intros d Hd%elem_of_nil|].
  split; [intros d; set_solver|]. by left.
Qed.

Lemma settled_without_fonts σ origin :
  resolvedFonts options origin = [] → track σ origin Settled [].
Proof.
  intros Hnone. split; [done|]. cbn beta iota zeta. rewrite Hnone.
  by intros d Hd%elem_of_nil.
Qed.

Lemma resume_outcome σ origin t held :
  track σ origin t held → outcome σ origin held (step σ t).
Proof.
  destruct t as [F fo | fr font rest | fr d todo n rest |];
    unfold tracked; cbn beta iota zeta; cbn [resume].
  - intros [<- ->]. cbn [fst snd].
    destruct (resolveFontFace options F (resolveArguments fo)) as [result|] eqn:Hres;
      cbn [from_option Datatypes.id fonts].
    + destruct (fonts result) as [[|first others]|] eqn:Hfonts.
      * apply unchanged_outcome, settled_without_fonts.
        unfold resolvedFonts. cbn [fst snd]. by rewrite Hres, Hfonts.
      * cbn [fontLoop]. exists []. split; [constructor|].
        split; [by intros d Hd%elem_of_nil|].
        split; [intros d; cbn [fst]; rewrite recordPreload_injected; set_solver|].
        left. cbn [fst snd]. split; [apply recordPreload_s|].
        split; [|split; [done|]].
        -- unfold frameOf, resolvedMap. cbn [fst snd fontFamily fallbackOptions fallbackMap].
           by rewrite Hres.
        -- exists []. split; [|by intros d Hd%elem_of_nil].
           unfold resolvedFonts. cbn [fst snd]. by rewrite Hres, Hfonts.
      * apply unchanged_outcome, settled_without_fonts.
        unfold resolvedFonts. cbn [fst snd]. by rewrite Hres, Hfonts.
    + apply unchanged_outcome, settled_without_fonts.
      unfold resolvedFonts. cbn [fst snd]. by rewrite Hres.
  - intros (Hfr & Hp & done & Hall & Hseen).
    pose proof Hfr as (HF & Hfo & Hfm). rewrite HF, Hfm.
    apply (declarationLoop_outcome origin _ fr σ held done font [] rest); try done.
    by rewrite app_nil_r.
  - intros (Hfr & Hdev & (earlier & -> & Hp) & done & font & passed
            & Hall & Hdecl & -> & Hseen).
    apply (declarationLoop_outcome origin _ _ σ (earlier ++ [d]) done font
             (passed ++ [d]) rest); try done.
    + cbn [pushPreface prefaces]. rewrite fmap_app, Hp. f_equal.
      cbn [fmap list_fmap]. unfold rendered. by rewrite Hdev.
    + by rewrite <- app_assoc.
  - intros [-> Hseen]. by apply unchanged_outcome.
Qed.

Lemma step_invariant code origins σ tasks i t :
  runInvariant options plugin id opts code origins σ tasks →
  tasks !! i = Some t →
  runInvariant options plugin id opts code origins
    (step σ t).1 (<[i := (step σ t).2]> tasks).
Proof.
  intros (log & held & Hlen & Hlenh & Htr & Hs & Hlog & Hnd & Hinj) Hi.
  destruct (lookup_lt_is_Some_2 origins i) as [origin Ho];
    [rewrite <- Hlen; by eapply lookup_lt_Some|].
  destruct (lookup_lt_is_Some_2 held i) as [h Hh];
    [rewrite Hlenh; by eapply lookup_lt_Some|].
  destruct (resume_outcome σ origin t h (Htr _ _ _ _ Ho Hi Hh))
    as (new & Hnew & Hfresh & Hinj' & Hcase).
  assert (injectedDeclarations σ ⊆ injectedDeclarations (step σ t).1) as Hsub.
  { intros d Hd. apply Hinj'. by left. }
  assert (NoDup ((concat (queued <$> log) ++ concat held) ++ new)) as Hnd'.
  { apply NoDup_app. split; [done|]. split; [|done].
    intros d Hd Hd'. apply (Hfresh _ Hd'). by apply Hinj. }
  assert (∀ d, d ∈ injectedDeclarations (step σ t).1
               ↔ d ∈ (concat (queued <$> log) ++ concat held) ++ new) as Hinj''.
  { intros d. rewrite Hinj', Hinj. by rewrite (elem_of_app _ new). }
  destruct Hcase as [[Hs' Ht'] | (Hsettled & Ht' & entry & Hq & Hby & Hs')].
  - exists log, (<[i := h ++ new]> held).
    assert (concat (queued <$> log) ++ concat (<[i := h ++ new]> held)
            ≡ₚ (concat (queued <$> log) ++ concat held) ++ new) as Hperm.
    { rewrite (concat_replace held i h new Hh). by rewrite app_assoc. }
    split; [by rewrite length_insert|]. split; [by rewrite length_insert|].
    split; [|split; [by rewrite Hs'|split; [done|split]]].
    + intros j origin' t' h' Ho' Ht'' Hh'.
      destruct (decide (j = i)) as [->|Hne].
      * rewrite list_lookup_insert_eq in Ht'' by by eapply lookup_lt_Some.
        rewrite list_lookup_insert_eq in Hh' by by eapply lookup_lt_Some.
        by simplify_eq.
      * rewrite list_lookup_insert_ne in Ht'' by done.
        rewrite list_lookup_insert_ne in Hh' by done.
        eapply tracked_mono; [done|]. by eapply Htr.
    + by rewrite Hperm.
    + intros d. by rewrite Hperm.
  - exists (log ++ [entry]), (<[i := []]> held).
    assert (concat (queued <$> log ++ [entry]) ++ concat (<[i := []]> held)
            ≡ₚ (concat (queued <$> log) ++ concat held) ++ new) as Hperm.
    { rewrite fmap_app, concat_app. cbn [fmap list_fmap concat].
      rewrite app_nil_r, Hq, (concat_take_out held i h Hh).
      rewrite <- !app_assoc. do 2 apply Permutation_app_head.
      apply Permutation_app_comm. }
    split; [by rewrite length_insert|]. split; [by rewrite length_insert|].
    split; [|split; [|split; [|split]]].
    + intros j origin' t' h' Ho' Ht'' Hh'.
      destruct (decide (j = i)) as [->|Hne].
      * rewrite list_lookup_insert_eq in Ht'' by by eapply lookup_lt_Some.
        rewrite list_lookup_insert_eq in Hh' by by eapply lookup_lt_Some.
        simplify_eq. by rewrite Hsettled.
      * rewrite list_lookup_insert_ne in Ht'' by done.
        rewrite list_lookup_insert_ne in Hh' by done.
        eapply tracked_mono; [done|]. by eapply Htr.
    + rewrite Hs', Hs. unfold logEdits. rewrite flat_map_app. cbn [flat_map].
      by rewrite app_nil_r, applyAll_app.
    + intros e [He | ->%list_elem_of_singleton]%elem_of_app; [by apply Hlog|].
      exists origin. split; [|done]. by eapply list_elem_of_lookup_2.
    + by rewrite Hperm.
    + intros d. by rewrite Hperm.
Qed.

Lemma run_invariant code origins schedule :
  ∀ σ tasks,
    runInvariant options plugin id opts code origins σ tasks →
    runInvariant options plugin id opts code origins
      (run options plugin id opts schedule σ tasks).1
      (run options plugin id opts schedule σ tasks).2.
Proof.
  induction schedule as [|i schedule IH]; intros σ tasks Hinv; [done|].
  cbn [run].
  destruct (tasks !! i) as [t|] eqn:Hi; [|by apply IH].
  pose proof (step_invariant code origins σ tasks i t Hinv Hi) as Hstep.
  destruct (step σ t) as [σ' t']. by apply IH.
Qed.

End RunTracking.

(** ** Termination *)

Lemma flat_map_agree {A B} (f g : A → list B) (l : list A) :
  (∀ a, In a l → f a = g a) → flat_map f l = flat_map g l.
Proof.
  induction l as [|a l IH]; intros Hfg; [done|]. cbn [flat_map].
  rewrite (Hfg a) by by left. rewrite IH; [done|].
  intros b Hb. apply Hfg. by right.
Qed.

Section Termination.

Context `{Imports}.
Variable options : FontlessOptions.
Variable plugin : PluginState.
Variable id : string.
Variable opts : TransformCSSOptions.

Local Abbreviation step := (resume options plugin id opts).
Local Abbreviation runAll := (run options plugin id opts).
Local Abbreviation price := (cost options).

Lemma cost_zero t : price t = 0 → t = Settled.
Proof.
  destruct t as [F fo | fr font rest | fr d todo n rest |]; try done;
    unfold cost, fontsCost, fontCost; simpl; lia.
Qed.

Lemma fontLoop_cost fr remaining σ :
  price (fontLoop fr remaining σ).2
  = fontsCost (fontFamily fr) (fallbackMap fr) remaining.
Proof. by destruct remaining. Qed.

Lemma declarationLoop_cost declarations :
  ∀ fr n rest σ,
    price (declarationLoop plugin fr declarations n rest σ).2
    ≤ List.length declarations + fontsCost (fontFamily fr) (fallbackMap fr) rest.
Proof.
  induction declarations as [|declaration todo IH]; intros fr n rest σ;
    cbn [declarationLoop List.length].
  - rewrite fontLoop_cost. by destruct (0 <? n)%nat.
  - destruct (decide (declaration ∈ injectedDeclarations σ)).
    + etrans; [apply IH|]. lia.
    + destruct (isDev plugin).
      * etrans; [apply IH|]. cbn [pushPreface fontFamily fallbackMap]. lia.
      * cbn [snd cost]. lia.
Qed.

(** Every resumption of a pending task brings it closer to settling. *)
Lemma resume_cost σ t : t ≠ Settled → price (step σ t).2 < price t.
Proof.
  destruct t as [F fo | fr font rest | fr d todo n rest |]; intros Hne; [| | |done].
  - cbn [resume cost]. unfold resolvedFonts, resolvedMap. cbn [fst snd].
    destruct (resolveFontFace options F (resolveArguments fo)) as [result|];
      cbn [from_option Datatypes.id]; [|cbn; lia].
    destruct (fonts result) as [[|first others]|]; cbn [snd cost]; try lia.
    cbn [from_option Datatypes.id fontLoop snd cost fontFamily fallbackMap]. lia.
  - cbn [resume]. eapply Nat.le_lt_trans; [apply declarationLoop_cost|].
    unfold cost, fontsCost. cbn [foldr List.length]. unfold fontCost. lia.
  - cbn [resume]. eapply Nat.le_lt_trans; [apply declarationLoop_cost|].
    unfold cost. cbn [pushPreface fontFamily fallbackMap]. lia.
Qed.

Lemma run_app schedule1 schedule2 σ tasks :
  runAll (schedule1 ++ schedule2) σ tasks
  = runAll schedule2 (runAll schedule1 σ tasks).1 (runAll schedule1 σ tasks).2.
Proof.
  revert σ tasks. induction schedule1 as [|i schedule1 IH]; intros σ tasks; [done|].
  cbn [app run]. destruct (tasks !! i) as [t|]; [|apply IH].
  destruct (step σ t) as [σ' t']. apply IH.
Qed.

(** Resuming one task as often as its cost settles it and leaves the other
    tasks as they are. *)
Lemma run_one_task n :
  ∀ i σ tasks t,
    tasks !! i = Some t → price t ≤ n →
    (runAll (replicate n i) σ tasks).2 = <[i := Settled]> tasks.
Proof.
  induction n as [|n IH]; intros i σ tasks t Hi Hcost.
  - cbn [replicate run snd]. rewrite (cost_zero t) in Hi by lia.
    by rewrite list_insert_id.
  - cbn [replicate run]. rewrite Hi.
    destruct (step σ t) as [σ' t'] eqn:Hstep.
    rewrite (IH i σ' (<[i := t']> tasks) t').
    + by rewrite list_insert_insert_eq.
    + apply list_lookup_insert_eq. by eapply lookup_lt_Some.
    + destruct (isSettled t) eqn:Hsettled.
      * destruct t; try done. cbn in Hstep. injection Hstep as <- <-. cbn. lia.
      * assert (t ≠ Settled) as Hne by (by intros ->).
        pose proof (resume_cost σ t Hne) as Hlt. rewrite Hstep in Hlt.
        cbn [snd] in Hlt. lia.
Qed.

Lemma run_in_turn n :
  ∀ k σ (tasks : list Task),
    k + n = List.length tasks →
    (runAll (flat_map (λ i, replicate (price (default Settled (tasks !! i))) i)
               (seq k n)) σ tasks).2
    = take k tasks ++ replicate n Settled.
Proof.
  induction n as [|n IH]; intros k σ tasks Hlen.
  - cbn [seq flat_map run snd replicate]. rewrite app_nil_r.
    rewrite take_ge; [done|lia].
  - cbn [seq flat_map]. rewrite run_app.
    destruct (lookup_lt_is_Some_2 tasks k) as [t Hk]; [lia|].
    rewrite Hk. cbn [from_option Datatypes.id].
    rewrite (run_one_task _ k σ tasks t Hk) by done.
    rewrite (flat_map_agree _
      (λ i, replicate (price (default Settled (<[k := Settled]> tasks !! i))) i)).
    + rewrite IH by (rewrite length_insert; lia).
      rewrite take_insert_lt by lia.
      rewrite (take_S_r tasks k t Hk), insert_app_r_alt by (rewrite length_take; lia).
      rewrite length_take, Nat.min_l, Nat.sub_diag by lia.
      cbn [replicate]. by rewrite <- app_assoc.
    + intros i Hi. apply in_seq in Hi.
      rewrite list_lookup_insert_ne; [done|lia].
Qed.

(** Under the sequential schedule every task settles. *)
Lemma sequential_settles σ tasks :
  forallb isSettled (runAll (sequential options tasks) σ tasks).2 = true.
Proof.
  unfold sequential. rewrite (run_in_turn _ 0) by done.
  cbn [take app]. induction (List.length tasks) as [|n IH]; [done|].
  cbn [replicate forallb isSettled]. apply IH.
Qed.

End Termination.

(** ** The rewrite as a whole *)

Lemma concat_all_empty {A} (l : list (list A)) :
  (∀ i h, l !! i = Some h → h = []) → concat l = [].
Proof.
  induction l as [|x l IH]; intros Hall; [done|]. cbn [concat].
  rewrite (Hall 0 x) by done. apply IH. intros i h Hi. by apply (Hall (S i)).
Qed.

Section WholeRewrite.

Context `{Imports}.
Variable options : FontlessOptions.
Variable plugin : PluginState.

(** The promises of [processNode] are calls waiting on the resolver, and
    an offset passed to one is the end of the first child of a visited
    declaration, moved by the parent offset. *)
Lemma processNode_origins root parentOffset existing :
  ∃ origins : list Origin,
    (processNode options root parentOffset existing []).2 = start <$> origins
    ∧ ∀ origin fo,
        origin ∈ origins → origin.2 = Some fo →
        ∃ visited, visited ∈ walk root
                   ∧ index fo = extractEndOfFirstChild visited.2 + parentOffset.
Proof.
  unfold processNode. cbn [snd app].
  generalize (scanExisting (walk root) existing). intros existing'.
  induction (walk root) as [|entry entries (origins & IH & Hfrom)].
  { exists []. split; [done|]. by intros origin fo Hin%elem_of_nil. }
  cbn [omap list_omap].
  destruct (candidate options existing' parentOffset entry.1 entry.2) as [t|] eqn:Ht.
  - unfold candidate in Ht.
    destruct (skipped options entry.1 entry.2); [done|].
    destruct (extractFontFamilies entry.2) as [|family others]; [done|].
    destruct (truthy family && _); [|done].
    injection Ht as <-.
    eexists ((family, _) :: origins). split.
    + cbn [fmap list_fmap]. f_equal. exact IH.
    + intros origin fo [-> | Hin]%elem_of_cons Hfo.
      * cbn [snd] in Hfo. destruct (isRaw (value entry.2)); [done|].
        injection Hfo as <-. exists entry. split; [left|done].
      * destruct (Hfrom origin fo Hin Hfo) as (visited & Hvisited & ->).
        exists visited. split; [by right|done].
  - exists origins. split; [done|].
    intros origin fo Hin Hfo.
    destruct (Hfrom origin fo Hin Hfo) as (visited & Hvisited & ->).
    exists visited. split; [by right|done].
Qed.

Lemma initial_invariant id opts code registry (origins : list Origin) :
  runInvariant options plugin id opts code origins
    (initialState code registry) (start <$> origins).
Proof.
  exists [], ((λ _, []) <$> origins).
  split; [by rewrite length_fmap|]. split; [by rewrite length_fmap|].
  assert (concat ((λ _ : Origin, @nil string) <$> origins) = []) as Hempty.
  { apply concat_all_empty. intros i h Hi.
    rewrite list_lookup_fmap in Hi.
    destruct (origins !! i); cbn in Hi; by simplify_eq. }
  split; [|split; [done|split; [|split]]].
  - intros i [F fo] t h Ho Ht Hh.
    rewrite list_lookup_fmap, Ho in Ht. injection Ht as <-.
    rewrite list_lookup_fmap, Ho in Hh. injection Hh as <-.
    done.
  - by intros entry Hentry%elem_of_nil.
  - rewrite Hempty. constructor.
  - intros d. rewrite Hempty. cbn. set_solver.
Qed.

(** What [transformCSS] returns, whatever the schedule: the original text
    edited as a log of settled tasks says, in which no generated declaration
    is queued twice and every declaration generated for a candidate is
    queued. *)
Lemma transformCSS_log code id opts registry schedule s0 registry' :
  transformCSS options plugin code id opts registry schedule = Some (s0, registry') →
  ∃ log : list LogEntry,
    s0 = MagicString.applyAll (logEdits plugin log) (MagicString.new code)
    ∧ NoDup (concat (queued <$> log))
    ∧ (∀ fontFamily fallbackOptions font,
         AwaitResolve fontFamily fallbackOptions
           ∈ (processNode options (parse code) 0 ∅ []).2 →
         font ∈ resolvedFonts options (fontFamily, fallbackOptions) →
         ∀ d, d ∈ declarationsOf id opts fontFamily
                    (resolvedMap options (fontFamily, fallbackOptions)) font →
              d ∈ concat (queued <$> log))
    ∧ (∀ i content,
         MagicString.PrependLeft i content ∈ logEdits plugin log →
         ∃ visited, visited ∈ walk (parse code)
                    ∧ i = extractEndOfFirstChild visited.2 + 0).
Proof.
  unfold transformCSS.
  destruct (processNode_origins (parse code) 0 ∅) as (origins & Horigins & Hfrom).
  destruct (processNode options (parse code) 0 ∅ []) as [existing promises].
  cbn [snd] in Horigins. subst promises.
  pose proof (run_invariant options plugin id opts code origins schedule _ _
    (initial_invariant id opts code registry origins)) as Hinv.
  destruct (run options plugin id opts schedule (initialState code registry)
              (start <$> origins)) as [σ tasks].
  cbn [fst snd] in Hinv.
  destruct (forallb isSettled tasks) eqn:Hsettled; [|done].
  intros [= <- <-].
  destruct Hinv as (log & held & Hlen & Hlenh & Htr & Hs & Hlog & Hnd & Hinj).
  assert (∀ i t, tasks !! i = Some t → t = Settled) as Hall.
  { intros i t Hi. apply list_elem_of_lookup_2 in Hi.
    rewrite forallb_forall in Hsettled.
    apply list_elem_of_In, Hsettled in Hi. by destruct t. }
  assert (concat held = []) as Hempty.
  { apply concat_all_empty. intros i h Hh.
    destruct (lookup_lt_is_Some_2 origins i) as [origin Ho];
      [rewrite <- Hlenh; by eapply lookup_lt_Some|].
    destruct (lookup_lt_is_Some_2 tasks i) as [t Ht];
      [rewrite Hlen; by eapply lookup_lt_Some|].
    pose proof (Htr _ _ _ _ Ho Ht Hh) as Htracked.
    rewrite (Hall _ _ Ht) in Htracked. by destruct Htracked as [-> _]. }
  rewrite Hempty, app_nil_r in Hnd.
  exists log. split; [done|]. split; [done|]. split; cycle 1.
  { intros i content Hin.
    apply list_elem_of_In, in_flat_map in Hin as (entry & Hentry & Hin).
    apply list_elem_of_In in Hentry.
    destruct (Hlog entry Hentry) as (origin & Horigin & Hby).
    unfold entryEdits in Hin. destruct Hin as [[=] | Hin].
    destruct (spliced entry) as [[i' content']|] eqn:Hspliced; [|done].
    destruct Hin as [[= -> ->] | []].
    destruct (Hby i content Hspliced) as (fo & Hfo & -> & _).
    by apply (Hfrom origin fo). }
  intros F fo font Hin Hfont d Hd.
  apply list_elem_of_fmap in Hin as ([F' fo'] & [= <- <-] & Hin).
  apply list_elem_of_lookup in Hin as [i Ho].
  destruct (lookup_lt_is_Some_2 tasks i) as [t Ht];
    [rewrite Hlen; by eapply lookup_lt_Some|].
  destruct (lookup_lt_is_Some_2 held i) as [h Hh];
    [rewrite Hlenh; by eapply lookup_lt_Some|].
  pose proof (Htr _ _ _ _ Ho Ht Hh) as Htracked.
  rewrite (Hall _ _ Ht) in Htracked. destruct Htracked as [_ Hseen].
  specialize (Hinj d). rewrite Hempty, app_nil_r in Hinj. apply Hinj, Hseen.
  apply list_elem_of_In, in_flat_map. exists font.
  split; by apply list_elem_of_In.
Qed.

(** Some schedule lets every task settle, so the rewrite returns. *)
Lemma transformCSS_returns code id opts registry :
  ∃ schedule, is_Some (transformCSS options plugin code id opts registry schedule).
Proof.
  exists (sequential options (processNode options (parse code) 0 ∅ []).2).
  unfold transformCSS.
  destruct (processNode options (parse code) 0 ∅ []) as [existing promises].
  cbn [snd].
  pose proof (sequential_settles options plugin id opts
    (initialState code registry) promises) as Hsettled.
  destruct (run options plugin id opts (sequential options promises)
              (initialState code registry) promises) as [σ tasks].
  cbn [snd] in Hsettled. rewrite Hsettled. eauto.
Qed.

End WholeRewrite.

(** ** The buffer a rewrite returns *)

Section ExactTracking.

Context `{Imports}.
Variable options : FontlessOptions.
Variable plugin : PluginState.
Variable id : string.
Variable opts : TransformCSSOptions.

Local Abbreviation step := (resume options plugin id opts).
Local Abbreviation keeps := (follows options plugin id opts).
Local Abbreviation result := (stepResult options plugin id opts).

Lemma follows_mono σ σ' origin t q :
  injectedDeclarations σ ⊆ injectedDeclarations σ' →
  keeps σ origin t q → keeps σ' origin t q.
Proof.
  intros Hsub. destruct t as [F fo | fr font rest | fr d todo n rest |];
    unfold follows; cbn beta iota zeta.
  - done.
  - intros (Hfr & Hp & done & Hall & Hins & Hq & Hseen).
    split; [done|]. split; [done|]. exists done. repeat split; try done.
    intros x Hx. apply Hsub. by apply Hseen.
  - intros (Hfr & Hdev & Hheld & done & font & passed
            & Hall & Hdecl & Hn & Hins & Hq & Hseen).
    split; [done|]. split; [done|]. split; [done|].
    exists done, font, passed. repeat split; try done.
    intros x Hx. apply Hsub. by apply Hseen.
  - intros [Hq Hseen]. split; [done|].
    intros x Hx. apply Hsub. by apply Hseen.
Qed.

Lemma hasFonts_middle origin done font rest :
  resolvedFonts options origin = done ++ font :: rest →
  hasFonts options origin = true.
Proof. unfold hasFonts. intros ->. by destruct done. Qed.

Lemma finish_edits origin fr σ q :
  frameOf origin.1 origin.2 (resolvedMap options origin) fr →
  prefaces fr = rendered plugin <$> q →
  insertFontFamilies fr = insertsNames options origin →
  s (finish fr σ) = MagicString.applyAll (taskEdits options plugin origin q) (s σ).
Proof.
  intros (HF & Hfo & Hfm) Hp Hins.
  unfold finish, taskEdits. cbn [s]. rewrite Hp, Hfo, Hins, Hfm.
  destruct origin.2 as [fo|]; [|done].
  by destruct (insertsNames options origin).
Qed.

Lemma declarationLoop_exact origin declarations :
  ∀ fr σ q done font passed rest,
    frameOf origin.1 origin.2 (resolvedMap options origin) fr →
    prefaces fr = rendered plugin <$> q →
    resolvedFonts options origin = done ++ font :: rest →
    declarationsOf id opts origin.1 (resolvedMap options origin) font
    = passed ++ declarations →
    insertFontFamilies fr
    = existsb (hasFallbackDeclarations origin.1 (resolvedMap options origin)) done →
    sublist q
      (flat_map (declarationsOf id opts origin.1 (resolvedMap options origin)) done
       ++ passed) →
    (∀ d, d ∈ flat_map (declarationsOf id opts origin.1 (resolvedMap options origin)) done
              ++ passed →
          d ∈ injectedDeclarations σ) →
    result σ origin q
      (declarationLoop plugin fr declarations
         (List.length (generateFontFallbacks origin.1 font (resolvedMap options origin)))
         rest σ).
Proof.
  induction declarations as [|declaration todo IH];
    intros fr σ q done font passed rest Hfr Hp Hall Hdecl Hins Hq Hseen;
    cbn [declarationLoop].
  - rewrite app_nil_r in Hdecl.
    set (fr' := if (0 <? _)%nat then setInsert fr else fr).
    assert (frameOf origin.1 origin.2 (resolvedMap options origin) fr'
            ∧ prefaces fr' = rendered plugin <$> q) as [Hfr' Hp'].
    { unfold fr'. by destruct (0 <? _)%nat. }
    assert (insertFontFamilies fr'
            = existsb (hasFallbackDeclarations origin.1 (resolvedMap options origin))
                (done ++ [font])) as Hins'.
    { rewrite existsb_app. cbn [existsb]. unfold hasFallbackDeclarations at 2.
      unfold fr'. destruct (0 <? _)%nat; cbn [setInsert insertFontFamilies].
      - by rewrite !orb_true_r.
      - by rewrite !orb_false_r. }
    assert (flat_map (declarationsOf id opts origin.1 (resolvedMap options origin))
              (done ++ [font])
            = flat_map (declarationsOf id opts origin.1 (resolvedMap options origin)) done
              ++ passed) as Hflat.
    { rewrite flat_map_app. cbn [flat_map]. by rewrite app_nil_r, Hdecl. }
    exists []. split; [constructor|]. split; [by intros d Hd%elem_of_nil|].
    rewrite app_nil_r.
    destruct rest as [|font' rest]; cbn [fontLoop fst snd].
    + split; [intros d; cbn [finish injectedDeclarations]; set_solver|].
      split.
      * unfold follows. cbn beta iota zeta. rewrite Hall, Hflat. done.
      * right. split; [done|]. split; [by eapply hasFonts_middle|].
        apply finish_edits; [done|done|].
        unfold insertsNames. by rewrite Hall.
    + split; [intros d; set_solver|]. split.
      * unfold follows. cbn beta iota zeta. split; [done|]. split; [done|].
        exists (done ++ [font]). rewrite Hflat.
        split; [by rewrite <- app_assoc|done].
      * left. done.
  - destruct (decide (declaration ∈ injectedDeclarations σ)) as [Hin|Hnew].
    + apply (IH fr σ q done font (passed ++ [declaration]) rest); try done.
      * by rewrite <- app_assoc.
      * rewrite app_assoc. by apply sublist_inserts_r.
      * intros d Hd. rewrite app_assoc in Hd.
        apply elem_of_app in Hd as [Hd | Hd%list_elem_of_singleton];
          [by apply Hseen|by subst].
    + assert (∀ d,
        d ∈ flat_map (declarationsOf id opts origin.1 (resolvedMap options origin)) done
              ++ (passed ++ [declaration]) →
        d ∈ injectedDeclarations (markInjected declaration σ)) as Hseen'.
      { intros d Hd. rewrite app_assoc in Hd. cbn [markInjected injectedDeclarations].
        apply elem_of_app in Hd as [Hd | Hd%list_elem_of_singleton];
          [apply elem_of_union_l; by apply Hseen|set_solver]. }
      assert (sublist (q ++ [declaration])
                (flat_map (declarationsOf id opts origin.1 (resolvedMap options origin))
                   done ++ (passed ++ [declaration]))) as Hq'.
      { rewrite app_assoc. by apply sublist_app. }
      destruct (isDev plugin) eqn:Hdev.
      * destruct (IH (pushPreface (declaration +:+ newline) fr)
                    (markInjected declaration σ) (q ++ [declaration])
                    done font (passed ++ [declaration]) rest)
          as (new & Hnd & Hfresh & Hinj & Hfol & Hcase); try done.
        { cbn [pushPreface prefaces]. rewrite fmap_app, Hp. f_equal.
          cbn [fmap list_fmap]. unfold rendered. by rewrite Hdev. }
        { by rewrite <- app_assoc. }
        exists (declaration :: new).
        split; [|split; [|split; [|split]]].
        -- constructor; [|done]. intros Hd. apply (Hfresh _ Hd).
           cbn [markInjected injectedDeclarations]. set_solver.
        -- intros d [-> | Hd]%elem_of_cons; [done|].
           intros Hd'. apply (Hfresh _ Hd).
           cbn [markInjected injectedDeclarations]. set_solver.
        -- intros d. rewrite Hinj. cbn [markInjected injectedDeclarations].
           set_solver.
        -- rewrite <- app_assoc in Hfol. exact Hfol.
        -- rewrite <- app_assoc in Hcase. exact Hcase.
      * exists [declaration].
        split; [apply NoDup_singleton|].
        split; [by intros d ->%list_elem_of_singleton|].
        split; [intros d; cbn [fst markInjected injectedDeclarations]; set_solver|].
        split.
        -- unfold follows. cbn [snd]. cbn beta iota zeta.
           split; [done|]. split; [done|]. split; [by exists q|].
           exists done, font, passed. repeat split; done.
        -- left. done.
Qed.

Lemma resume_exact σ origin t q :
  t ≠ Settled → keeps σ origin t q → result σ origin q (step σ t).
Proof.
  intros Hpending.
  destruct t as [F fo | fr font rest | fr d todo n rest |];
    unfold follows; cbn beta iota zeta; cbn [resume]; [| | |done].
  - intros [<- ->]. cbn [fst snd].
    assert (resolvedFonts options (F, fo) = []
            → result σ (F, fo) [] (σ, Settled)) as Hnone.
    { intros Hempty. exists []. split; [constructor|].
      split; [by intros d Hd%elem_of_nil|].
      split; [intros d; set_solver|]. split.
      - unfold follows. cbn beta iota zeta. rewrite Hempty. split; [done|].
        by intros d Hd%elem_of_nil.
      - left. split; [done|]. intros _. unfold hasFonts. by rewrite Hempty. }
    destruct (resolveFontFace options F (resolveArguments fo)) as [found|] eqn:Hres;
      cbn [from_option Datatypes.id fonts].
    + destruct (fonts found) as [[|first others]|] eqn:Hfonts.
      * apply Hnone. unfold resolvedFonts. cbn [fst snd]. by rewrite Hres, Hfonts.
      * cbn [fontLoop]. exists []. split; [constructor|].
        split; [by intros d Hd%elem_of_nil|].
        split; [intros d; cbn [fst]; rewrite recordPreload_injected; set_solver|].
        split.
        -- unfold follows. cbn [fst snd]. cbn beta iota zeta.
           split; [|split; [done|]].
           ++ unfold frameOf, resolvedMap.
              cbn [fst snd fontFamily fallbackOptions fallbackMap].
              by rewrite Hres.
           ++ exists []. split.
              ** unfold resolvedFonts. cbn [fst snd]. by rewrite Hres, Hfonts.
              ** split; [done|]. split; [constructor|].
                 by intros d Hd%elem_of_nil.
        -- left. cbn [fst snd]. split; [apply recordPreload_s|done].
      * apply Hnone. unfold resolvedFonts. cbn [fst snd]. by rewrite Hres, Hfonts.
    + apply Hnone. unfold resolvedFonts. cbn [fst snd]. by rewrite Hres.
  - intros (Hfr & Hp & done & Hall & Hins & Hq & Hseen).
    pose proof Hfr as (HF & Hfo & Hfm). rewrite HF, Hfm.
    apply (declarationLoop_exact origin _ fr σ q done font [] rest); try done.
    + by rewrite app_nil_r.
    + by rewrite app_nil_r.
  - intros (Hfr & Hdev & (earlier & -> & Hp) & done & font & passed
            & Hall & Hdecl & -> & Hins & Hq & Hseen).
    apply (declarationLoop_exact origin _ _ σ (earlier ++ [d]) done font
             (passed ++ [d]) rest); try done.
    + cbn [pushPreface prefaces]. rewrite fmap_app, Hp. f_equal.
      cbn [fmap list_fmap]. unfold rendered. by rewrite Hdev.
    + by rewrite <- app_assoc.
Qed.

Lemma editsAt_insert_other origins queues i j q :
  j ≠ i →
  editsAt options plugin origins (<[i := q]> queues) j
  = editsAt options plugin origins queues j.
Proof. intros Hne. unfold editsAt. by rewrite list_lookup_insert_ne. Qed.

Lemma step_exact code origins σ tasks i t :
  exactInvariant options plugin id opts code origins σ tasks →
  tasks !! i = Some t →
  exactInvariant options plugin id opts code origins
    (step σ t).1 (<[i := (step σ t).2]> tasks).
Proof.
  intros Hinv Hi.
  destruct (isSettled t) eqn:Hsettled.
  { destruct t; try done. cbn [resume fst snd]. by rewrite list_insert_id. }
  assert (t ≠ Settled) as Hpending by (by intros ->).
  destruct Hinv as (order & queues & Hlen & Hlenq & Hf & Hnd & Hord & Hs & Hndq & Hinj).
  destruct (lookup_lt_is_Some_2 origins i) as [origin Ho];
    [rewrite <- Hlen; by eapply lookup_lt_Some|].
  destruct (lookup_lt_is_Some_2 queues i) as [q Hq];
    [rewrite Hlenq; by eapply lookup_lt_Some|].
  assert (i ∉ order) as Hout.
  { intros (origin' & _ & Ht & _)%Hord. congruence. }
  destruct (resume_exact σ origin t q Hpending (Hf _ _ _ _ Ho Hi Hq))
    as (new & Hnew & Hfresh & Hinj' & Hfol & Hcase).
  assert (injectedDeclarations σ ⊆ injectedDeclarations (step σ t).1) as Hsub.
  { intros d Hd. apply Hinj'. by left. }
  assert (concat (<[i := q ++ new]> queues) ≡ₚ concat queues ++ new) as Hperm
    by by apply concat_replace.
  assert (NoDup (concat queues ++ new)) as Hndq'.
  { apply NoDup_app. split; [done|]. split; [|done].
    intros d Hd Hd'. apply (Hfresh _ Hd'). by apply Hinj. }
  assert (flat_map (editsAt options plugin origins (<[i := q ++ new]> queues)) order
          = flat_map (editsAt options plugin origins queues) order) as Hedits.
  { apply flat_map_agree. intros j Hj. apply editsAt_insert_other.
    intros ->. by apply Hout, list_elem_of_In. }
  assert (∀ j origin' t' q',
            origins !! j = Some origin' →
            <[i := (step σ t).2]> tasks !! j = Some t' →
            <[i := q ++ new]> queues !! j = Some q' →
            keeps (step σ t).1 origin' t' q') as Hf'.
  { intros j origin' t' q' Ho' Ht' Hq'.
    destruct (decide (j = i)) as [->|Hne].
    - rewrite list_lookup_insert_eq in Ht' by by eapply lookup_lt_Some.
      rewrite list_lookup_insert_eq in Hq' by by eapply lookup_lt_Some.
      by simplify_eq.
    - rewrite list_lookup_insert_ne in Ht' by done.
      rewrite list_lookup_insert_ne in Hq' by done.
      eapply follows_mono; [done|]. by eapply Hf. }
  assert (∀ d, d ∈ injectedDeclarations (step σ t).1
               ↔ d ∈ concat (<[i := q ++ new]> queues)) as Hinj''.
  { intros d. rewrite Hperm, Hinj', Hinj. by rewrite elem_of_app. }
  destruct Hcase as [[Hs' Hnofonts] | (Hdone & Hfonts & Hs')].
  - exists order, (<[i := q ++ new]> queues).
    split; [by rewrite length_insert|]. split; [by rewrite length_insert|].
    split; [done|]. split; [done|].
    split; [|split; [by rewrite Hedits, Hs'|split; [by rewrite Hperm|done]]].
    intros j. destruct (decide (j = i)) as [->|Hne].
    + split; [done|]. intros (origin' & Ho' & Ht' & Hfonts).
      rewrite list_lookup_insert_eq in Ht' by by eapply lookup_lt_Some.
      injection Ht' as Ht'. specialize (Hnofonts Ht'). congruence.
    + rewrite list_lookup_insert_ne by done. apply Hord.
  - exists (order ++ [i]), (<[i := q ++ new]> queues).
    split; [by rewrite length_insert|]. split; [by rewrite length_insert|].
    split; [done|].
    split; [|split; [|split; [|split; [by rewrite Hperm|done]]]].
    + apply NoDup_app. split; [done|]. split; [|apply NoDup_singleton].
      by intros j Hj ->%list_elem_of_singleton.
    + intros j. rewrite elem_of_app, list_elem_of_singleton.
      destruct (decide (j = i)) as [->|Hne].
      * split; [|by right]. intros _. exists origin. split; [done|].
        split; [|done].
        rewrite list_lookup_insert_eq by by eapply lookup_lt_Some. by rewrite Hdone.
      * rewrite list_lookup_insert_ne by done. rewrite Hord. split; [|by left].
        by intros [? | ?].
    + rewrite flat_map_app, applyAll_app, Hedits, <- Hs. cbn [flat_map].
      rewrite app_nil_r. unfold editsAt at 1. rewrite Ho.
      rewrite list_lookup_insert_eq by by eapply lookup_lt_Some. done.
Qed.

Lemma run_exact code origins schedule :
  ∀ σ tasks,
    exactInvariant options plugin id opts code origins σ tasks →
    exactInvariant options plugin id opts code origins
      (run options plugin id opts schedule σ tasks).1
      (run options plugin id opts schedule σ tasks).2.
Proof.
  induction schedule as [|i schedule IH]; intros σ tasks Hinv; [done|].
  cbn [run].
  destruct (tasks !! i) as [t|] eqn:Hi; [|by apply IH].
  pose proof (step_exact code origins σ tasks i t Hinv Hi) as Hstep.
  destruct (step σ t) as [σ' t']. by apply IH.
Qed.

Lemma initial_exact code registry (origins : list Origin) :
  exactInvariant options plugin id opts code origins
    (initialState code registry) (start <$> origins).
Proof.
  exists [], ((λ _, []) <$> origins).
  assert (concat ((λ _ : Origin, @nil string) <$> origins) = []) as Hempty.
  { apply concat_all_empty. intros i h Hi.
    rewrite list_lookup_fmap in Hi.
    destruct (origins !! i); cbn in Hi; by simplify_eq. }
  split; [by rewrite length_fmap|]. split; [by rewrite length_fmap|].
  split; [|split; [constructor|split; [|split; [done|split]]]].
  - intros i [F fo] t q Ho Ht Hq.
    rewrite list_lookup_fmap, Ho in Ht. injection Ht as <-.
    rewrite list_lookup_fmap, Ho in Hq. injection Hq as <-.
    done.
  - intros i. split; [by intros Hi%elem_of_nil|].
    intros (origin & Ho & Ht & _).
    rewrite list_lookup_fmap, Ho in Ht. done.
  - rewrite Hempty. constructor.
  - intros d. rewrite Hempty. cbn. set_solver.
Qed.

End ExactTracking.

Section ExactRewrite.

Context `{Imports}.
Variable options : FontlessOptions.
Variable plugin : PluginState.

(** What [transformCSS] returns, whatever the schedule. *)
Lemma transformCSS_exact code id opts registry schedule s0 registry' :
  transformCSS options plugin code id opts registry schedule = Some (s0, registry') →
  ∃ (origins : list Origin) (queues : list (list string)) (order : list nat),
    (processNode options (parse code) 0 ∅ []).2 = start <$> origins
    ∧ rewriteResult options plugin id opts code origins queues order s0.
Proof.
  unfold transformCSS.
  destruct (processNode_origins options (parse code) 0 ∅) as (origins & Hp & _).
  destruct (processNode options (parse code) 0 ∅ []) as [existing promises].
  cbn [snd] in Hp. subst promises.
  pose proof (run_exact options plugin id opts code origins schedule _ _
    (initial_exact options plugin id opts code registry origins)) as Hinv.
  destruct (run options plugin id opts schedule (initialState code registry)
              (start <$> origins)) as [σ tasks].
  cbn [fst snd] in Hinv.
  destruct (forallb isSettled tasks) eqn:Hsettled; [|done].
  intros [= <- <-].
  destruct Hinv as (order & queues & Hlen & Hlenq & Hf & Hnd & Hord & Hs & Hndq & Hinj).
  assert (∀ i t, tasks !! i = Some t → t = Settled) as Hall.
  { intros i t Hi. apply list_elem_of_lookup_2 in Hi.
    rewrite forallb_forall in Hsettled.
    apply list_elem_of_In, Hsettled in Hi. by destruct t. }
  assert (∀ i origin q,
            origins !! i = Some origin → queues !! i = Some q →
            follows options plugin id opts σ origin Settled q) as Hdone.
  { intros i origin q Ho Hq.
    destruct (lookup_lt_is_Some_2 tasks i) as [t Ht];
      [rewrite Hlen; by eapply lookup_lt_Some|].
    pose proof (Hf _ _ _ _ Ho Ht Hq) as Hfol. by rewrite (Hall _ _ Ht) in Hfol. }
  exists origins, queues, order. split; [done|].
  split; [|split; [done|split; [|split; [done|split; [|done]]]]].
  - apply Forall2_same_length_lookup_2; [done|].
    intros i origin q Ho Hq. by destruct (Hdone _ _ _ Ho Hq) as [Hsub _].
  - intros origin d Ho Hd. apply list_elem_of_lookup in Ho as [i Ho].
    destruct (lookup_lt_is_Some_2 queues i) as [q Hq];
      [rewrite Hlenq; by eapply lookup_lt_Some|].
    destruct (Hdone _ _ _ Ho Hq) as [_ Hseen]. by apply Hinj, Hseen.
  - intros i. rewrite Hord. split.
    + intros (origin & Ho & _ & Hfonts). by exists origin.
    + intros (origin & Ho & Hfonts). exists origin. split; [done|].
      split; [|done].
      destruct (lookup_lt_is_Some_2 tasks i) as [t Ht];
        [rewrite Hlen; by eapply lookup_lt_Some|].
      by rewrite Ht, (Hall _ _ Ht).
Qed.

(** Every declaration generated for a candidate is in the queue of a call
    that settled with an edit, and its text, as rendered, is in the output. *)
Lemma generated_in_output code id opts origins queues order s0 origin d :
  rewriteResult options plugin id opts code origins queues order s0 →
  origin ∈ origins → d ∈ generatedFor options id opts origin →
  ∃ i q earlier later a b,
    i ∈ order
    ∧ queues !! i = Some q
    ∧ q = earlier ++ d :: later
    ∧ MagicString.Prepend (join "" (rendered plugin <$> q))
        ∈ flat_map (editsAt options plugin origins queues) order
    ∧ MagicString.toString s0 = a +:+ rendered plugin d +:+ b.
Proof.
  intros (Hqueues & Hnd & Hall & Hndo & Hord & ->) Ho Hd.
  pose proof (Hall origin d Ho Hd) as Hin.
  apply list_elem_of_In, in_concat in Hin as (q & Hq & Hdq).
  apply list_elem_of_In, list_elem_of_lookup in Hq as [i Hi].
  apply list_elem_of_In in Hdq.
  destruct (Forall2_lookup_r _ _ _ _ _ Hqueues Hi) as (origin' & Ho' & Hsub).
  assert (i ∈ order) as Hiorder.
  { apply Hord. exists origin'. split; [done|].
    unfold hasFonts. unfold generatedFor in Hsub.
    destruct (resolvedFonts options origin') as [|font fonts]; [|done].
    cbn [flat_map] in Hsub. apply sublist_nil_r in Hsub. subst q.
    by apply elem_of_nil in Hdq. }
  assert (MagicString.Prepend (join "" (rendered plugin <$> q))
            ∈ flat_map (editsAt options plugin origins queues) order) as Hedit.
  { apply list_elem_of_In, in_flat_map. exists i.
    split; [by apply list_elem_of_In|].
    unfold editsAt. rewrite Ho', Hi. by left. }
  apply list_elem_of_split in Hdq as (earlier & later & ->).
  destruct (buffer_layout code (flat_map (editsAt options plugin origins queues) order))
    as (_ & (body & Hbody & _) & Hprepended & _).
  destruct (Hprepended _ Hedit) as (a & b & Hintro).
  exists i, (earlier ++ d :: later), earlier, later,
    (a +:+ join "" (rendered plugin <$> earlier)),
    (join "" (rendered plugin <$> later) +:+ b +:+ body).
  split; [done|]. split; [done|]. split; [done|]. split; [done|].
  rewrite Hbody, Hintro, fmap_app, join_app. cbn [fmap list_fmap].
  rewrite join_cons. by rewrite !append_associative.
Qed.

End ExactRewrite.

Section Claims.

Context `{Imports}.
Variable options : FontlessOptions.
Variable plugin : PluginState.

(** C3. A call for the family F builds one fallback-map entry per resolved
    fallback font name f, named "F Fallback: f", and the text to insert is
    a comma, a space and these names, each in double quotes, joined by a
    comma and a space.  A declaration whose value is [Raw] is scheduled
    without an offset, any other with the end of its first child plus the
    parent offset.  Some schedule lets the rewrite return, and whenever it
    returns, under any schedule, the buffer is the original text with the
    edits of the calls that got fonts, one call after the other: a call
    prepends the texts of the declarations it queued, and then, when it was
    given an offset and some font had fallback declarations, inserts the
    quoted names at the offset with [prependLeft]; without an offset, or
    without fallback declarations, it only prepends.  With or without an
    offset, every declaration generated for a candidate is queued by some
    call, and its text is in the output. *)
Theorem fallback_names_spliced (code id : string) (opts : TransformCSSOptions)
    (registry : Registry.t) :
  (∀ fontFamily result,
     name <$> makeFallbackMap fontFamily result
     = (λ f, fontFamily +:+ " Fallback: " +:+ f) <$> default [] (fallbacks result)
     ∧ insertedText (makeFallbackMap fontFamily result)
       = ", " +:+ join ", "
           ((λ f, dquote +:+ (fontFamily +:+ " Fallback: " +:+ f) +:+ dquote)
              <$> default [] (fallbacks result)))
  ∧ (∀ existing parentOffset this node t,
       candidate options existing parentOffset this node = Some t →
       ∃ family others,
         extractFontFamilies node = family :: others
         ∧ t = AwaitResolve family
                 (if isRaw (value node) then None
                  else Some {| generic := extractGeneric node;
                               fallbackNames := others;
                               index := extractEndOfFirstChild node + parentOffset |}))
  ∧ (∃ schedule,
       is_Some (transformCSS options plugin code id opts registry schedule))
  ∧ (∀ schedule s0 registry',
       transformCSS options plugin code id opts registry schedule
       = Some (s0, registry') →
       ∃ (origins : list Origin) (queues : list (list string)) (order : list nat),
         (processNode options (parse code) 0 ∅ []).2 = start <$> origins
         ∧ rewriteResult options plugin id opts code origins queues order s0
         ∧ (∀ i (origin : Origin) q,
              i ∈ order → origins !! i = Some origin → queues !! i = Some q →
              ∃ result first others,
                resolveFontFace options origin.1 (resolveArguments origin.2)
                = Some result
                ∧ fonts result = Some (first :: others)
                ∧ editsAt options plugin origins queues i
                  = MagicString.Prepend (join "" (rendered plugin <$> q))
                    :: match origin.2 with
                       | Some fo =>
                           if existsb
                                (hasFallbackDeclarations origin.1
                                   (makeFallbackMap origin.1 result))
                                (first :: others)
                           then [MagicString.PrependLeft (index fo)
                                   (insertedText (makeFallbackMap origin.1 result))]
                           else []
                       | None => []
                       end)
         ∧ (∀ origin d,
              origin ∈ origins → d ∈ generatedFor options id opts origin →
              ∃ i q earlier later a b,
                i ∈ order
                ∧ queues !! i = Some q
                ∧ q = earlier ++ d :: later
                ∧ MagicString.Prepend (join "" (rendered plugin <$> q))
                    ∈ flat_map (editsAt options plugin origins queues) order
                ∧ MagicString.toString s0 = a +:+ rendered plugin d +:+ b)).
Proof.
  split; [|split; [|split; [apply transformCSS_returns|]]].
  - intros fontFamily result. unfold insertedText, makeFallbackMap.
    destruct (fallbacks result) as [fs|]; [|done]. cbn [from_option Datatypes.id].
    rewrite <- !list_fmap_compose. done.
  - intros existing parentOffset this node t. unfold candidate.
    destruct (skipped options this node); [done|].
    destruct (extractFontFamilies node) as [|family others]; [done|].
    destruct (truthy family && _); [|done].
    intros [= <-]. exists family, others. split; [done|].
    by destruct (isRaw (value node)).
  - intros schedule s0 registry' Hresult.
    destruct (transformCSS_exact options plugin code id opts registry schedule
                s0 registry' Hresult) as (origins & queues & order & Hp & Hr).
    exists origins, queues, order. split; [done|]. split; [done|]. split.
    + intros i origin q Hi Ho Hq.
      destruct Hr as (_ & _ & _ & _ & Hord & _).
      apply Hord in Hi as (origin' & Ho' & Hfonts).
      assert (origin' = origin) as -> by congruence.
      unfold editsAt. rewrite Ho, Hq.
      unfold taskEdits, insertsNames, hasFonts, resolvedFonts, resolvedMap in *.
      destruct (resolveFontFace options origin.1 (resolveArguments origin.2))
        as [result|]; [|done].
      destruct (fonts result) as [[|first others]|] eqn:Hf; try done.
      by exists result, first, others.
    + intros origin d Ho Hd. by eapply generated_in_output.
Qed.

(** C4. Some schedule lets the rewrite return, and whenever it returns,
    under any schedule, the buffer is the original text with the edits of
    the calls that got fonts, in which each call prepends the texts of the
    declarations it queued.  Over all calls no declaration is queued twice:
    the [@font-face] declaration of every font resolved for a candidate is
    in the queues exactly once, however many declarations of the
    stylesheet name the family, and the call that queued it prepends its
    text, which is in the output. *)
Theorem generated_declaration_queued_once (code id : string)
    (opts : TransformCSSOptions) (registry : Registry.t) :
  (∃ schedule,
     is_Some (transformCSS options plugin code id opts registry schedule))
  ∧ (∀ schedule s0 registry',
       transformCSS options plugin code id opts registry schedule
       = Some (s0, registry') →
       ∃ (origins : list Origin) (queues : list (list string)) (order : list nat),
         (processNode options (parse code) 0 ∅ []).2 = start <$> origins
         ∧ rewriteResult options plugin id opts code origins queues order s0
         ∧ (∀ d, count_occ String.string_dec (concat queues) d ≤ 1)
         ∧ (∀ origin font,
              origin ∈ origins → font ∈ resolvedFonts options origin →
              let face := generateFontFace origin.1 (placed id opts font) in
              count_occ String.string_dec (concat queues) face = 1
              ∧ ∃ i q earlier later a b,
                  i ∈ order
                  ∧ queues !! i = Some q
                  ∧ q = earlier ++ face :: later
                  ∧ MagicString.Prepend (join "" (rendered plugin <$> q))
                      ∈ flat_map (editsAt options plugin origins queues) order
                  ∧ MagicString.toString s0 = a +:+ rendered plugin face +:+ b)).
Proof.
  split; [apply transformCSS_returns|].
  intros schedule s0 registry' Hresult.
  destruct (transformCSS_exact options plugin code id opts registry schedule
              s0 registry' Hresult) as (origins & queues & order & Hp & Hr).
  exists origins, queues, order. split; [done|]. split; [done|].
  pose proof Hr as (_ & Hnd & Hall & _).
  apply NoDup_ListNoDup in Hnd.
  split; [by apply NoDup_count_occ|].
  intros origin font Ho Hfont face.
  assert (face ∈ generatedFor options id opts origin) as Hface.
  { apply list_elem_of_In, in_flat_map. exists font.
    split; [by apply list_elem_of_In|by left]. }
  split.
  - apply (proj1 (NoDup_count_occ' String.string_dec _) Hnd).
    by apply list_elem_of_In, (Hall origin).
  - by eapply generated_in_output.
Qed.

(** C9. Some schedule lets the rewrite return, and whenever it returns,
    under any schedule, the buffer is the original text changed by
    [prepend] and [prependLeft] only: the characters of the input occur in
    the output in their order; the output is the intro followed by a body
    that starts with the first character of the input, and everything
    prepended is part of the intro; at an offset inside the text, what was
    inserted there (the latest insertion first) stands between the woven
    first [index] characters and the character at the offset; and every
    insertion is at the end of the first value child of a declaration of the
    stylesheet, as css-tree locates it. *)
Theorem original_text_never_moves (code id : string)
    (opts : TransformCSSOptions) (registry : Registry.t) :
  (∃ schedule,
     is_Some (transformCSS options plugin code id opts registry schedule))
  ∧ (∀ schedule s0 registry',
       transformCSS options plugin code id opts registry schedule
       = Some (s0, registry') →
       ∃ edits,
         s0 = MagicString.applyAll edits (MagicString.new code)
         ∧ sublist (chars code) (chars (MagicString.toString s0))
         ∧ (∃ body,
              MagicString.toString s0 = MagicString.intro s0 +:+ body
              ∧ ∀ c rest, code = String c rest → ∃ rest', body = String c rest')
         ∧ (∀ content,
              MagicString.Prepend content ∈ edits →
              ∃ a b, MagicString.intro s0 = a +:+ content +:+ b)
         ∧ (∀ index,
              0 < index ≤ String.length code →
              ∃ left right,
                MagicString.toString s0
                = left +:+ join "" (rev (insertedAt index edits)) +:+ right
                ∧ sublist (chars (before index code)) (chars left)
                ∧ sublist (chars (from index code)) (chars right)
                ∧ ∀ c rest, from index code = String c rest →
                            ∃ rest', right = String c rest')
         ∧ (∀ index content,
              MagicString.PrependLeft index content ∈ edits →
              ∃ visited, visited ∈ walk (parse code)
                         ∧ index = extractEndOfFirstChild visited.2 + 0)).
Proof.
  split; [apply transformCSS_returns|].
  intros schedule s0 registry' Hresult.
  destruct (transformCSS_log options plugin code id opts registry schedule
              s0 registry' Hresult) as (log & -> & _ & _ & Hfrom).
  exists (logEdits plugin log). split; [done|].
  pose proof (buffer_layout code (logEdits plugin log)) as (? & ? & ? & ?).
  done.
Qed.

End Claims.

Section Minification.

Context `{Imports}.
Variable options : FontlessOptions.

(** C6. For the plugin after any number of [configResolved] calls:
    [transform] is called with the [css] loader and [minify: true]; the
    text queued for a newly injected declaration is, on the dev server, the
    declaration with a line feed appended, and otherwise the code
    [transform] returns, or the declaration itself when [transform] rejects
    or returns no code.  Some schedule lets the rewrite return, whatever
    [transform] does, and whenever it returns, under any schedule, the
    buffer is the original text with the edits of the calls that got fonts,
    in which each call prepends these texts for the declarations it queued:
    every declaration generated for a candidate is queued by some call, and
    this text of it is in the output. *)
Theorem new_declaration_minified_or_newline (configs : list ResolvedConfig)
    (sheet id : string) (opts : TransformCSSOptions) (registry : Registry.t) :
  let plugin := configured configs in
  (loader (minifyOptions plugin) = Some "css"
   ∧ minify (minifyOptions plugin) = Some true)
  ∧ (∀ d,
       rendered plugin d
       = if isDev plugin then d +:+ newline
         else match transform d (minifyOptions plugin) with
              | Fulfilled r => if truthy (code r) then code r else d
              | Rejected => d
              end)
  ∧ (∃ schedule,
       is_Some (transformCSS options plugin sheet id opts registry schedule))
  ∧ (∀ schedule s0 registry',
       transformCSS options plugin sheet id opts registry schedule
       = Some (s0, registry') →
       ∃ (origins : list Origin) (queues : list (list string)) (order : list nat),
         (processNode options (parse sheet) 0 ∅ []).2 = start <$> origins
         ∧ rewriteResult options plugin id opts sheet origins queues order s0
         ∧ (∀ origin d,
              origin ∈ origins → d ∈ generatedFor options id opts origin →
              ∃ i q earlier later a b,
                i ∈ order
                ∧ queues !! i = Some q
                ∧ q = earlier ++ d :: later
                ∧ MagicString.Prepend
                    (join "" (rendered plugin <$> earlier)
                     +:+ rendered plugin d
                     +:+ join "" (rendered plugin <$> later))
                    ∈ flat_map (editsAt options plugin origins queues) order
                ∧ MagicString.toString s0 = a +:+ rendered plugin d +:+ b)).
Proof.
  intros plugin.
  split; [apply configured_minifies|].
  split; [done|].
  split; [apply transformCSS_returns|].
  intros schedule s0 registry' Hresult.
  destruct (transformCSS_exact options plugin sheet id opts registry schedule
              s0 registry' Hresult) as (origins & queues & order & Hp & Hr).
  exists origins, queues, order. split; [done|]. split; [done|].
  intros origin d Ho Hd.
  destruct (generated_in_output options plugin sheet id opts origins queues order
              s0 origin d Hr Ho Hd)
    as (i & q & earlier & later & a & b & Hi & Hq & -> & Hedit & Hout).
  exists i, (earlier ++ d :: later), earlier, later, a, b.
  split; [done|]. split; [done|]. split; [done|]. split; [|done].
  rewrite fmap_app, join_app in Hedit. cbn [fmap list_fmap] in Hedit.
  by rewrite join_cons in Hedit.
Qed.

End Minification.

(** The dev-server rewrite of [a{font-family:'Foo'}]: the one call prepends
    what it queued and inserts the fallback name at offset 19. *)
Lemma fallback_names_spliced_witness :
  ∃ s0 registry' queues order q,
    transformCSS (H := Sample.imports) Sample.options Sample.serve
      Sample.sheetFoo "k" {| relative := Some true |} Registry.empty [0; 0]
    = Some (s0, registry')
    ∧ rewriteResult (H := Sample.imports) Sample.options Sample.serve "k"
        {| relative := Some true |} Sample.sheetFoo
        [("Foo", Some {| generic := None; fallbackNames := []; index := 19 |})]
        queues order s0
    ∧ queues !! 0 = Some q
    ∧ editsAt (H := Sample.imports) Sample.options Sample.serve
        [("Foo", Some {| generic := None; fallbackNames := []; index := 19 |})]
        queues 0
      = [MagicString.Prepend
           (join "" (rendered (H := Sample.imports) Sample.serve <$> q));
         MagicString.PrependLeft 19
           (", " +:+ dquote +:+ "Foo Fallback: Arial" +:+ dquote)].
Proof.
  destruct (fallback_names_spliced (H := Sample.imports) Sample.options
              Sample.serve Sample.sheetFoo "k" {| relative := Some true |}
              Registry.empty) as (_ & _ & _ & Hall).
  destruct (transformCSS (H := Sample.imports) Sample.options Sample.serve
              Sample.sheetFoo "k" {| relative := Some true |} Registry.empty
              [0; 0]) as [[s0 registry']|] eqn:Hresult;
    [|vm_compute in Hresult; discriminate Hresult].
  destruct (Hall _ _ _ Hresult) as (origins & queues & order & Hp & Hr & Hedits & _).
  destruct origins as [|[F1 fo1] [|second origins]];
    try (vm_compute in Hp; discriminate Hp).
  vm_compute in Hp. injection Hp as <- <-.
  pose proof Hr as (Hqueues & _ & _ & _ & Hord & _).
  destruct (Forall2_lookup_l _ _ _ 0 _ Hqueues eq_refl) as (q & Hq & _).
  assert (0 ∈ order) as Hfirst.
  { apply Hord. eexists. split; [reflexivity|]. reflexivity. }
  destruct (Hedits 0 _ q Hfirst eq_refl Hq)
    as (result & first & others & Hres & Hfonts & Heq).
  vm_compute in Hres. injection Hres as <-.
  injection Hfonts as <- <-.
  exists s0, registry', queues, order, q.
  split; [done|]. split; [exact Hr|]. split; [done|]. exact Heq.
Defined.

(** The production rewrite of the sample with two uses of "Foo", the two
    calls resumed in turn. *)
Lemma generated_declaration_queued_once_witness :
  ∃ s0 registry' queues order a b,
    transformCSS (H := Sample.imports) Sample.options Sample.build
      Sample.sheetTwice "k" {| relative := Some true |} Registry.empty
      [0; 1; 0; 1; 0; 1; 0; 1]
    = Some (s0, registry')
    ∧ rewriteResult (H := Sample.imports) Sample.options Sample.build "k"
        {| relative := Some true |} Sample.sheetTwice
        [("Foo", Some {| generic := Some "sans-serif"; fallbackNames := [];
                         index := 19 |});
         ("Foo", Some {| generic := Some "sans-serif"; fallbackNames := [];
                         index := 50 |})]
        queues order s0
    ∧ count_occ String.string_dec (concat queues)
        (Sample.fontFaceText "Foo" Sample.fontFoo) = 1
    ∧ MagicString.toString s0
      = a +:+ Sample.fontFaceText "Foo" Sample.fontFoo +:+ b.
Proof.
  destruct (generated_declaration_queued_once (H := Sample.imports)
              Sample.options Sample.build Sample.sheetTwice "k"
              {| relative := Some true |} Registry.empty) as (_ & Hall).
  destruct (transformCSS (H := Sample.imports) Sample.options Sample.build
              Sample.sheetTwice "k" {| relative := Some true |} Registry.empty
              [0; 1; 0; 1; 0; 1; 0; 1]) as [[s0 registry']|] eqn:Hresult;
    [|vm_compute in Hresult; discriminate Hresult].
  destruct (Hall _ _ _ Hresult) as (origins & queues & order & Hp & Hr & _ & Honce).
  destruct origins as [|[F1 fo1] [|[F2 fo2] [|third origins]]];
    try (vm_compute in Hp; discriminate Hp).
  vm_compute in Hp. injection Hp as <- <- <- <-.
  destruct (Honce
    ("Foo", Some {| generic := Some "sans-serif"; fallbackNames := []; index := 19 |})
    Sample.fontFoo) as (Hcount & i & q & earlier & later & a & b & _ & _ & _ & _ & Hout).
  { by left. }
  { apply list_elem_of_In. vm_compute. left. reflexivity. }
  exists s0, registry', queues, order, a, b.
  split; [done|]. split; [exact Hr|]. split; [exact Hcount|]. exact Hout.
Defined.

Lemma sublist_of_two {A} (x y : A) (q : list A) :
  sublist q [x; y] → q = [] ∨ q = [x] ∨ q = [y] ∨ q = [x; y].
Proof.
  intros Hq.
  destruct q as [|a q]; [by left|]. right.
  apply sublist_cons_l in Hq as (k1 & k2 & Heq & Hq).
  destruct k1 as [|b k1].
  - injection Heq as <- <-. destruct q as [|c q]; [by left|].
    apply sublist_cons_l in Hq as (k1 & k2' & Heq & Hq).
    destruct k1 as [|b k1]; [|by destruct k1].
    injection Heq as <- <-. apply sublist_nil_r in Hq as ->. by right; right.
  - destruct k1 as [|c k1]; [|by destruct k1].
    injection Heq as <- <- <-. apply sublist_nil_r in Hq as ->. by right; left.
Qed.

Lemma order_of_two (order : list nat) :
  NoDup order → (∀ i, i ∈ order ↔ i = 0 ∨ i = 1) →
  order = [0; 1] ∨ order = [1; 0].
Proof.
  intros Hnd Hin. apply Permutation_length_2_inv.
  apply NoDup_Permutation; [|done|].
  - constructor; [by intros ?%list_elem_of_singleton|apply NoDup_singleton].
  - intros i. rewrite Hin. rewrite elem_of_cons, list_elem_of_singleton. done.
Qed.

(** The scenario of the two uses of "Foo" under every schedule: whenever
    the production rewrite returns, the output is the stylesheet with both
    declarations given the fallback name and, in front of it, the
    [@font-face] rule for "Foo" and the fallback rule, each once, in one
    order or the other. *)
Example two_uses_any_schedule (schedule : list nat) (s0 : MagicString.t)
    (registry' : Registry.t) :
  let face := Sample.fontFaceText "Foo" Sample.fontFoo in
  let fallback := "@font-face{font-family:'Foo Fallback: Arial';src:local('Arial')}" in
  let names := ", " +:+ dquote +:+ "Foo Fallback: Arial" +:+ dquote in
  let body := "a{font-family:'Foo'" +:+ names +:+ ",sans-serif}b{font-family:'Foo'"
              +:+ names +:+ ",sans-serif}" in
  transformCSS (H := Sample.imports) Sample.options Sample.build
    Sample.sheetTwice "k" {| relative := Some true |} Registry.empty schedule
  = Some (s0, registry') →
  MagicString.toString s0 = face +:+ fallback +:+ body
  ∨ MagicString.toString s0 = fallback +:+ face +:+ body.
Proof.
  intros face fallback names body Hresult.
  destruct (transformCSS_exact (H := Sample.imports) Sample.options Sample.build
              _ _ _ _ _ _ _ Hresult) as (origins & queues & order & Hp & Hr).
  destruct origins as [|[F1 fo1] [|[F2 fo2] [|third origins]]];
    try (vm_compute in Hp; discriminate Hp).
  vm_compute in Hp. injection Hp as <- <- <- <-.
  destruct Hr as (Hq & Hnd & Hall & Hndo & Hord & ->).
  apply Forall2_cons_inv_l in Hq as (q0 & queues' & Hq0 & Hq & ->).
  apply Forall2_cons_inv_l in Hq as (q1 & queues'' & Hq1 & Hq & ->).
  apply Forall2_nil_inv_l in Hq as ->.
  apply (sublist_of_two face fallback) in Hq0, Hq1.
  assert (order = [0; 1] ∨ order = [1; 0]) as Horder.
  { apply order_of_two; [done|]. intros i. rewrite Hord. split.
    - intros (origin & Ho & _). destruct i as [|[|i]]; [by left|by right|done].
    - intros [-> | ->]; eexists; (split; [reflexivity|reflexivity]). }
  assert (bool_decide (NoDup (q0 ++ q1))
          && bool_decide (face ∈ q0 ++ q1)
          && bool_decide (fallback ∈ q0 ++ q1) = true) as Hcheck.
  { cbn [concat] in Hnd, Hall. rewrite app_nil_r in Hnd, Hall.
    rewrite !andb_true_iff, !bool_decide_eq_true.
    split; [split; [done|]|];
      eapply Hall; try (by left); apply list_elem_of_In; vm_compute; tauto. }
  destruct Hq0 as [-> | [-> | [-> | ->]]], Hq1 as [-> | [-> | [-> | ->]]];
    try (vm_compute in Hcheck; discriminate Hcheck);
    destruct Horder as [-> | ->];
    first [left; vm_compute; reflexivity | right; vm_compute; reflexivity].
Qed.


(** The production rewrite of [a{font-family:'Foo'}] of the second sample:
    the [@font-face] rule is in the output without its spaces, and the
    fallback rule, which the minifier rejects, as it was generated. *)
Lemma new_declaration_minified_or_newline_witness :
  ∃ s0 registry' a b a' b',
    transformCSS (H := Spaced.imports) Sample.options
      (configured [{| command := "build"; esbuild := Some Sample.noEsbuildOptions |}])
      Sample.sheetFoo "k" {| relative := Some true |} Registry.empty [0; 0; 0; 0]
    = Some (s0, registry')
    ∧ MagicString.toString s0 = a +:+ "@font-face{font-family:'Foo'}" +:+ b
    ∧ MagicString.toString s0
      = a' +:+ "@font-face { font-family: 'Foo Fallback: Arial'" +:+ b'.
Proof.
  destruct (new_declaration_minified_or_newline (H := Spaced.imports)
              Sample.options
              [{| command := "build"; esbuild := Some Sample.noEsbuildOptions |}]
              Sample.sheetFoo "k" {| relative := Some true |} Registry.empty)
    as (_ & _ & _ & Hall).
  destruct (transformCSS (H := Spaced.imports) Sample.options
              (configured
                 [{| command := "build"; esbuild := Some Sample.noEsbuildOptions |}])
              Sample.sheetFoo "k" {| relative := Some true |} Registry.empty
              [0; 0; 0; 0]) as [[s0 registry']|] eqn:Hresult;
    [|vm_compute in Hresult; discriminate Hresult].
  destruct (Hall _ _ _ Hresult) as (origins & queues & order & Hp & Hr & Hqueued).
  destruct origins as [|[F1 fo1] [|second origins]];
    try (vm_compute in Hp; discriminate Hp).
  vm_compute in Hp. injection Hp as <- <-.
  destruct (Hqueued
    ("Foo", Some {| generic := None; fallbackNames := []; index := 19 |})
    (Spaced.fontFaceText "Foo" Sample.fontFoo))
    as (_ & _ & _ & _ & a & b & _ & _ & _ & _ & Hface).
  { by left. }
  { apply list_elem_of_In. vm_compute. left. reflexivity. }
  destruct (Hqueued
    ("Foo", Some {| generic := None; fallbackNames := []; index := 19 |})
    "@font-face { font-family: 'Foo Fallback: Arial'")
    as (_ & _ & _ & _ & a' & b' & _ & _ & _ & _ & Hfallback).
  { by left. }
  { apply list_elem_of_In. vm_compute. right. left. reflexivity. }
  exists s0, registry', a, b, a', b'.
  split; [done|]. split; [exact Hface|exact Hfallback].
Defined.

(** The second sample, in production and on the dev server: the minifier's
    code for the rule it accepts and the generated text for the one it
    rejects; on the dev server both as generated, each with a line feed. *)
Example minified_or_line_feed :
  let rewritten plugin :=
    MagicString.toString <$>
      (fst <$> transformCSS (H := Spaced.imports) Sample.options plugin
                 Sample.sheetFoo "k" {| relative := Some true |}
                 Registry.empty [0; 0; 0; 0]) in
  let body := "a{font-family:'Foo', " +:+ dquote +:+ "Foo Fallback: Arial"
              +:+ dquote +:+ "}" in
  rewritten Sample.build
  = Some ("@font-face{font-family:'Foo'}"
          +:+ "@font-face { font-family: 'Foo Fallback: Arial'" +:+ body)
  ∧ rewritten Sample.serve
    = Some ("@font-face { font-family: 'Foo' }" +:+ newline
            +:+ "@font-face { font-family: 'Foo Fallback: Arial'" +:+ newline
            +:+ body).
Proof. split; vm_compute; reflexivity. Qed.

(** A custom property with processing of custom properties on: the value is
    [Raw], the call gets no offset, the rules are prepended and nothing is
    inserted into the declaration. *)
Example raw_value_only_prepended :
  MagicString.toString <$>
    (fst <$> transformCSS (H := Sample.imports) Sample.optionsWithVariables
               Sample.build Sample.sheetVariable "k" {| relative := Some true |}
               Registry.empty [0; 0; 0; 0])
  = Some (Sample.fontFaceText "Foo" Sample.fontFoo
          +:+ "@font-face{font-family:'Foo Fallback: Arial';src:local('Arial')}"
          +:+ Sample.sheetVariable).
Proof. vm_compute. reflexivity. Qed.


(** The production rewrite of [a{font-family:'Foo'}]. *)
Lemma original_text_never_moves_witness :
  ∃ s0 registry',
    transformCSS (H := Sample.imports) Sample.options Sample.build
      Sample.sheetFoo "k" {| relative := Some true |} Registry.empty [0; 0; 0; 0]
    = Some (s0, registry')
    ∧ sublist (chars Sample.sheetFoo) (chars (MagicString.toString s0)).
Proof.
  destruct (original_text_never_moves (H := Sample.imports)
              Sample.options Sample.build Sample.sheetFoo "k"
              {| relative := Some true |} Registry.empty) as [_ Hall].
  destruct (transformCSS (H := Sample.imports) Sample.options Sample.build
              Sample.sheetFoo "k" {| relative := Some true |} Registry.empty
              [0; 0; 0; 0]) as [[s0 registry']|] eqn:Hresult;
    [|vm_compute in Hresult; discriminate Hresult].
  destruct (Hall _ _ _ Hresult) as (edits & _ & Hsub & _).
  by exists s0, registry'.
Defined.

(** The scenario of one use of "Foo", in production and on the dev server:
    the rules are prepended, each followed by a line feed on the dev
    server, and the declaration gets the fallback name. *)
Example one_use_rewritten :
  let rewritten plugin :=
    MagicString.toString <$>
      (fst <$> transformCSS (H := Sample.imports) Sample.options plugin
                 Sample.sheetFoo "k" {| relative := Some true |}
                 Registry.empty [0; 0; 0; 0]) in
  let face := Sample.fontFaceText "Foo" Sample.fontFoo in
  let fallback := "@font-face{font-family:'Foo Fallback: Arial';src:local('Arial')}" in
  let body := "a{font-family:'Foo', " +:+ dquote +:+ "Foo Fallback: Arial"
              +:+ dquote +:+ "}" in
  rewritten Sample.build = Some (face +:+ fallback +:+ body)
  ∧ rewritten Sample.serve
    = Some (face +:+ newline +:+ fallback +:+ newline +:+ body).
Proof. split; vm_compute; reflexivity. Qed.

(** The two uses of "Foo" under a sequential and an interleaved schedule:
    one [@font-face] rule for "Foo" and one fallback rule either way, in the
    order in which the tasks queued them, and both declarations spliced. *)
Example two_uses_one_rule :
  let rewritten schedule :=
    MagicString.toString <$>
      (fst <$> transformCSS (H := Sample.imports) Sample.options Sample.build
                 Sample.sheetTwice "k" {| relative := Some true |}
                 Registry.empty schedule) in
  let face := Sample.fontFaceText "Foo" Sample.fontFoo in
  let fallback := "@font-face{font-family:'Foo Fallback: Arial';src:local('Arial')}" in
  let names := ", " +:+ dquote +:+ "Foo Fallback: Arial" +:+ dquote in
  let body := "a{font-family:'Foo'" +:+ names +:+ ",sans-serif}b{font-family:'Foo'"
              +:+ names +:+ ",sans-serif}" in
  rewritten [0; 0; 0; 0; 1; 1] = Some (face +:+ fallback +:+ body)
  ∧ rewritten [0; 1; 0; 1; 0; 1; 0; 1] = Some (fallback +:+ face +:+ body).
Proof. split; vm_compute; reflexivity. Qed.

(** * Further properties *)

(** ** The two walks *)

Section Walks.

Context `{Imports}.
Variable options : FontlessOptions.

(** X1. After the first walk the existing-family set holds what it held
    before and, besides, exactly the families extracted from the
    [font-family] declarations whose closest at-rule is named
    [font-family]. *)
Theorem first_walk_families (visited : list (WalkContext * DeclarationNode))
    (existing : gset string) (family : string) :
  family ∈ scanExisting visited existing
  ↔ family ∈ existing
    ∨ ∃ entry, entry ∈ visited
               ∧ atrule entry.1 = Some "font-family"
               ∧ property entry.2 = "font-family"
               ∧ family ∈ extractFontFamilies entry.2.
Proof.
  unfold scanExisting. revert existing.
  induction visited as [|entry visited IH]; intros existing; cbn [fold_left].
  - split; [by left|]. intros [Hin | (entry & Hentry%elem_of_nil & _)]; done.
  - rewrite IH. clear IH.
    destruct (bool_decide (atrule entry.1 = Some "font-family")) eqn:Hat;
      [apply bool_decide_eq_true in Hat | apply bool_decide_eq_false in Hat];
      cbn [andb].
    + destruct (String.eqb (property entry.2) "font-family") eqn:Hp;
        [apply String.eqb_eq in Hp | apply String.eqb_neq in Hp].
      * rewrite elem_of_union, elem_of_list_to_set. split.
        -- intros [[Hin | Hin] | (e & He & Hrest)]; [by left| |].
           ++ right. exists entry. split; [left|done].
           ++ right. exists e. split; [by right|done].
        -- intros [Hin | (e & [-> | He]%elem_of_cons & Ha & Hb & Hc)].
           ++ by left; left.
           ++ by left; right.
           ++ right. by exists e.
      * split.
        -- intros [Hin | (e & He & Hrest)]; [by left|].
           right. exists e. split; [by right|done].
        -- intros [Hin | (e & [-> | He]%elem_of_cons & Ha & Hb & Hc)];
             [by left|done|]. right. by exists e.
    + split.
      * intros [Hin | (e & He & Hrest)]; [by left|].
        right. exists e. split; [by right|done].
      * intros [Hin | (e & [-> | He]%elem_of_cons & Ha & Hb & Hc)];
          [by left|done|]. right. by exists e.
Qed.

Lemma scanExisting_grows visited existing :
  existing ⊆ scanExisting visited existing.
Proof.
  unfold scanExisting. revert existing.
  induction visited as [|entry visited IH]; intros existing; [done|].
  cbn [fold_left]. etrans; [|apply IH].
  destruct (_ && _); set_solver.
Qed.

(** X2. A call that [processNode] adds to the promises is for the first
    family of an eligible declaration of the tree; that family is not empty
    and is neither in the existing-family set the walk started with nor in
    the one the first walk built. *)
Theorem scheduled_family_is_new (root : CssNode) (parentOffset : nat)
    (existing : gset string) (promises : list Task) (fontFamily : string)
    (fallbackOptions : option FallbackOptions) :
  AwaitResolve fontFamily fallbackOptions
    ∈ (processNode options root parentOffset existing promises).2 →
  AwaitResolve fontFamily fallbackOptions ∈ promises
  ∨ (fontFamily ≠ ""
     ∧ fontFamily ∉ existing
     ∧ fontFamily ∉ (processNode options root parentOffset existing promises).1
     ∧ ∃ entry, entry ∈ walk root
                ∧ eligible options entry.1 entry.2
                ∧ head (extractFontFamilies entry.2) = Some fontFamily).
Proof.
  unfold processNode. cbn [fst snd].
  pose proof (scanExisting_grows (walk root) existing) as Hgrows.
  set (existing' := scanExisting (walk root) existing) in *.
  intros [Hin | Hin]%elem_of_app; [by left|]. right.
  apply list_elem_of_omap in Hin as (entry & Hentry & Hcandidate).
  unfold candidate in Hcandidate.
  destruct (skipped options entry.1 entry.2) eqn:Hskipped; [done|].
  apply eligible_skipped in Hskipped.
  destruct (extractFontFamilies entry.2) as [|family others] eqn:Hfamilies; [done|].
  destruct (truthy family) eqn:Htruthy; [|done].
  destruct (bool_decide (family ∈ existing')) eqn:Hknown; [done|].
  cbn [andb negb] in Hcandidate. injection Hcandidate as -> _.
  apply truthy_true in Htruthy. apply bool_decide_eq_false in Hknown.
  split; [done|]. split; [set_solver|]. split; [done|].
  exists entry. by rewrite Hfamilies.
Qed.

End Walks.

(** The declaration of the sample with one use of "Foo". *)
Lemma scheduled_family_is_new_witness :
  "Foo" ≠ ""
  ∧ "Foo" ∉ (∅ : gset string)
  ∧ "Foo" ∉ (processNode (H := Sample.imports) Sample.options
               (parse (Imports := Sample.imports) Sample.sheetFoo) 0 ∅ []).1
  ∧ ∃ entry, entry ∈ walk (parse (Imports := Sample.imports) Sample.sheetFoo)
             ∧ eligible Sample.options entry.1 entry.2
             ∧ head (extractFontFamilies (Imports := Sample.imports) entry.2)
               = Some "Foo".
Proof.
  destruct (scheduled_family_is_new (H := Sample.imports) Sample.options
              (parse (Imports := Sample.imports) Sample.sheetFoo) 0 ∅ [] "Foo"
              (Some {| generic := None; fallbackNames := []; index := 19 |}))
    as [Hin%elem_of_nil | Hnew]; [|done|exact Hnew].
  apply list_elem_of_In. vm_compute. left. reflexivity.
Defined.

(** ** The fallback map *)

(** X3. The synthetic family names of a fallback map are as many as the
    resolved fallback font names, each differs from the primary family, and
    distinct fallback font names get distinct synthetic names. *)
Theorem fallback_names_distinct (fontFamily : string) (result : FontFaceResolution) :
  List.length (makeFallbackMap fontFamily result)
  = List.length (default [] (fallbacks result))
  ∧ font <$> makeFallbackMap fontFamily result = default [] (fallbacks result)
  ∧ (∀ entry, entry ∈ makeFallbackMap fontFamily result → name entry ≠ fontFamily)
  ∧ (NoDup (default [] (fallbacks result)) →
     NoDup (name <$> makeFallbackMap fontFamily result)).
Proof.
  unfold makeFallbackMap.
  destruct (fallbacks result) as [fs|]; cbn [from_option Datatypes.id].
  - split; [by rewrite length_fmap|]. split; [|split].
    + rewrite <- list_fmap_compose. by rewrite <- (list_fmap_id fs) at 2.
    + intros entry (f & -> & _)%list_elem_of_fmap. cbn [name].
      intros Heq. rewrite <- (append_empty_r fontFamily) in Heq at 2.
      by apply (inj (String.append fontFamily)) in Heq.
    + intros Hnd. rewrite <- list_fmap_compose.
      apply NoDup_fmap_2_strong; [|done].
      intros f1 f2 _ _ Heq. cbn in Heq.
      apply (inj (String.append fontFamily)) in Heq.
      by apply (inj (String.append " Fallback: ")) in Heq.
  - repeat split; try done. by intros entry Hin%elem_of_nil.
Qed.

(** Two fallback fonts of a resolution. *)
Lemma fallback_names_distinct_witness :
  NoDup (name <$> makeFallbackMap "Foo"
                    {| fonts := None; fallbacks := Some ["Arial"; "Times"] |}).
Proof.
  apply (fallback_names_distinct "Foo"
    {| fonts := None; fallbacks := Some ["Arial"; "Times"] |}).
  apply (bool_decide_unpack _). vm_compute. exact I.
Defined.

(** ** The options of the minifier *)

Lemma configResolved_keeps config plugin o :
  postcssOptions plugin = Some o →
  postcssOptions (configResolved config plugin) = Some o.
Proof.
  intros Ho. unfold configResolved.
  destruct (esbuild config) as [es|]; [|done].
  rewrite Ho, bool_decide_eq_true_2 by done. by rewrite orb_true_r.
Qed.

Lemma configured_snoc configs config :
  configured (configs ++ [config]) = configResolved config (configured configs).
Proof. unfold configured. by rewrite fold_left_app. Qed.

Lemma computes_iff config :
  computes config = true
  ↔ is_Some (postcssOptions (configResolved config initialPlugin)).
Proof.
  unfold computes, configResolved.
  destruct (esbuild config) as [es|];
    destruct (String.eqb (command config) "serve");
    cbn [negb andb orb initialPlugin postcssOptions].
  - split; [done|]. by intros [o Ho].
  - rewrite bool_decide_eq_true_2 by eauto.
    rewrite bool_decide_eq_false_2 by (by intros []).
    cbn [postcssOptions]. split; [eauto|done].
  - split; [done|]. by intros [o Ho].
  - rewrite bool_decide_eq_false_2 by (by intros [es Hes]).
    split; [done|]. by intros [o Ho].
Qed.

(** What [configResolved] stores depends on the stored options only, not on
    the [isDev] of the calls before. *)
Lemma configResolved_unset config plugin :
  postcssOptions plugin = None →
  postcssOptions (configResolved config plugin)
  = postcssOptions (configResolved config initialPlugin).
Proof.
  intros Hunset. unfold configResolved. cbn [initialPlugin postcssOptions].
  rewrite Hunset. destruct (esbuild config) as [es|]; [|done].
  by destruct (String.eqb (command config) "serve" || _).
Qed.

Lemma configured_from configs :
  ∀ plugin,
    postcssOptions (fold_left (λ plugin config, configResolved config plugin)
                      configs plugin)
    = match postcssOptions plugin with
      | Some o => Some o
      | None =>
          match List.find computes configs with
          | Some config => postcssOptions (configResolved config initialPlugin)
          | None => None
          end
      end.
Proof.
  induction configs as [|config configs IH]; intros plugin; cbn [fold_left List.find].
  - by destruct (postcssOptions plugin).
  - rewrite IH. destruct (postcssOptions plugin) as [o|] eqn:Ho.
    + by rewrite (configResolved_keeps config plugin o Ho).
    + rewrite (configResolved_unset config plugin Ho).
      destruct (computes config) eqn:Hcomputes.
      * apply computes_iff in Hcomputes as [o' Ho']. by rewrite Ho'.
      * destruct (postcssOptions (configResolved config initialPlugin)) as [o'|] eqn:Ho';
          [|done].
        assert (computes config = true) as Hyes by (apply computes_iff; eauto).
        congruence.
Qed.

(** X4. The minifier options are computed once, by the first call of
    [configResolved] whose configuration is not the dev server's and has
    esbuild options, whatever calls came before it, and every later call
    keeps them: after any sequence of calls [postcssOptions] is what that
    first such call computes from its own configuration, and it is unset
    when there was no such call.  [isDev] always follows the last call. *)
Theorem postcssOptions_computed_once :
  (∀ configs,
     postcssOptions (configured configs)
     = match List.find computes configs with
       | Some config => postcssOptions (configResolved config initialPlugin)
       | None => None
       end)
  ∧ (∀ config,
       computes config = true
       ↔ is_Some (postcssOptions (configResolved config initialPlugin)))
  ∧ (∀ configs config,
       isDev (configured (configs ++ [config]))
       = String.eqb (command config) "serve").
Proof.
  split; [|split].
  - intros configs. unfold configured. by rewrite configured_from.
  - apply computes_iff.
  - intros configs config. rewrite configured_snoc. unfold configResolved.
    destruct (esbuild config) as [es|]; [|done]. by destruct (_ || _).
Qed.

(** A dev server, then a build, then a dev server with other options: the
    options are those of the build. *)
Lemma postcssOptions_computed_once_witness :
  postcssOptions
    (configured
       [{| command := "serve"; esbuild := Some Sample.noEsbuildOptions |};
        {| command := "build"; esbuild := Some Sample.noEsbuildOptions |};
        {| command := "serve"; esbuild := None |}])
  = postcssOptions Sample.build
  ∧ is_Some (postcssOptions Sample.build).
Proof.
  destruct postcssOptions_computed_once as (Hfirst & Hcomputes & _).
  split.
  - rewrite Hfirst. reflexivity.
  - apply Hcomputes. reflexivity.
Defined.

(** X5. In a build with esbuild options, [transform] is called with the
    [css] loader and [minify: true], the configured charset or utf8, and
    the configured target and legal-comments setting.  When none of the
    three minify flags is configured none is passed; as soon as one is, all
    three are passed, a configured one as configured and the others as
    [true]. *)
Theorem build_transform_options (config : ResolvedConfig) (es : ESBuildOptions) :
  command config ≠ "serve" → esbuild config = Some es →
  let o := minifyOptions (configResolved config initialPlugin) in
  loader o = Some "css"
  ∧ minify o = Some true
  ∧ charset o = Some (default "utf8" (esCharset es))
  ∧ target o = esTarget es
  ∧ legalComments o = esLegalComments es
  ∧ (esMinifyIdentifiers es = None → esMinifySyntax es = None →
     esMinifyWhitespace es = None →
     minifyIdentifiers o = None ∧ minifySyntax o = None
     ∧ minifyWhitespace o = None)
  ∧ (esMinifyIdentifiers es ≠ None ∨ esMinifySyntax es ≠ None
     ∨ esMinifyWhitespace es ≠ None →
     minifyIdentifiers o = Some (default true (esMinifyIdentifiers es))
     ∧ minifySyntax o = Some (default true (esMinifySyntax es))
     ∧ minifyWhitespace o = Some (default true (esMinifyWhitespace es))).
Proof.
  intros Hbuild Hes o. unfold o, minifyOptions, configResolved. rewrite Hes.
  apply String.eqb_neq in Hbuild. rewrite Hbuild.
  cbn [initialPlugin postcssOptions orb].
  rewrite bool_decide_eq_false_2 by (by intros []).
  unfold resolveMinifyCssEsbuildOptions, nullish.
  destruct (esMinifyIdentifiers es) as [a|], (esMinifySyntax es) as [b|],
    (esMinifyWhitespace es) as [c|], (esCharset es), (esTarget es),
    (esLegalComments es);
    cbn; repeat split; try done; try (by intros [? | [? | ?]]);
    intros; by intuition.
Qed.

(** A build that keeps white space. *)
Lemma build_transform_options_witness :
  minifyWhitespace
    (minifyOptions
       (configResolved
          {| command := "build";
             esbuild := Some {|
               esCharset := None; esLogLevel := None; esLogLimit := None;
               esLogOverride := None; esLegalComments := None;
               esMinifyIdentifiers := None; esMinifySyntax := None;
               esMinifyWhitespace := Some false; esTarget := Some "es2020" |} |}
          initialPlugin))
  = Some false.
Proof.
  pose proof (build_transform_options
    {| command := "build";
       esbuild := Some {|
         esCharset := None; esLogLevel := None; esLogLimit := None;
         esLogOverride := None; esLegalComments := None;
         esMinifyIdentifiers := None; esMinifySyntax := None;
         esMinifyWhitespace := Some false; esTarget := Some "es2020" |} |}
    {| esCharset := None; esLogLevel := None; esLogLimit := None;
       esLogOverride := None; esLegalComments := None;
       esMinifyIdentifiers := None; esMinifySyntax := None;
       esMinifyWhitespace := Some false; esTarget := Some "es2020" |}) as Hthm.
  destruct Hthm as (_ & _ & _ & _ & _ & _ & Hflags);
    [discriminate|reflexivity|].
  destruct Hflags as (_ & _ & Hwhitespace); [right; right; discriminate|].
  exact Hwhitespace.
Defined.

(** ** Stylesheet names *)

Lemma length_append (x y : string) :
  String.length (x +:+ y) = String.length x + String.length y.
Proof.
  induction x as [|c x IH]; [done|].
  rewrite append_cons. cbn [String.length]. by rewrite IH.
Qed.

Lemma substring_before (n : nat) (text : string) :
  String.substring 0 n text = before n text.
Proof.
  revert text. induction n as [|n IH]; intros [|c text]; cbn; try done.
  by rewrite IH.
Qed.

Lemma substring_from (n m : nat) (text : string) :
  String.substring n m text = before m (from n text).
Proof.
  revert text. induction n as [|n IH]; intros text.
  - cbn [from]. destruct text; apply substring_before.
  - destruct text as [|c text]; cbn [String.substring from]; [|apply IH].
    by destruct m.
Qed.

Lemma before_all (n : nat) (text : string) :
  String.length text ≤ n → before n text = text.
Proof.
  revert text. induction n as [|n IH]; intros [|c text]; cbn; try done; try lia.
  intros Hn. rewrite IH; [done|lia].
Qed.

Lemma length_from (n : nat) (text : string) :
  String.length (from n text) = String.length text - n.
Proof.
  revert text. induction n as [|n IH]; intros [|c text]; cbn; done.
Qed.

Lemma from_append (x y : string) : from (String.length x) (x +:+ y) = y.
Proof. induction x as [|c x IH]; [by destruct y|]. by rewrite append_cons. Qed.

Lemma before_append (x y : string) : before (String.length x) (x +:+ y) = x.
Proof.
  induction x as [|c x IH]; [by destruct y|].
  rewrite append_cons. cbn. by rewrite IH.
Qed.

Lemma get_append (x y : string) (c : ascii) :
  String.get (String.length x) (x +:+ String c y) = Some c.
Proof. induction x as [|d x IH]; [done|]. by rewrite append_cons. Qed.

Lemma get_split (k : nat) (text : string) (c : ascii) :
  String.get k text = Some c →
  text = before k text +:+ String c (from (S k) text).
Proof.
  revert k. induction text as [|d text IH]; intros k; [done|].
  destruct k as [|k]; cbn.
  - intros [= ->]. by destruct text.
  - intros Hk. rewrite append_cons. f_equal. rewrite (IH k Hk) at 1.
    by destruct text.
Qed.

Lemma endsWith_spec (p text : string) :
  endsWith p text = true ↔ ∃ prefix, text = prefix +:+ p.
Proof.
  unfold endsWith. rewrite andb_true_iff, Nat.leb_le, String.eqb_eq, substring_from.
  split.
  - intros [Hle Hp].
    exists (before (String.length text - String.length p) text).
    rewrite before_all in Hp by (rewrite length_from; lia).
    set (n := String.length text - String.length p) in *.
    transitivity (before n text +:+ from n text);
      [by rewrite before_from|by rewrite Hp].
  - intros [prefix ->]. rewrite length_append. split; [lia|].
    replace (String.length prefix + String.length p - String.length p)
      with (String.length prefix) by lia.
    rewrite from_append. by apply before_all.
Qed.

Lemma endsWithCssExtension_spec (text : string) :
  endsWithCssExtension text = true
  ↔ ∃ prefix ext, ext ∈ cssExtensions ∧ text = prefix +:+ "." +:+ ext.
Proof.
  unfold endsWithCssExtension. rewrite existsb_exists. split.
  - intros (ext & Hext%list_elem_of_In & [prefix ->]%endsWith_spec). eauto.
  - intros (prefix & ext & Hext%list_elem_of_In & ->).
    exists ext. split; [done|]. apply endsWith_spec. eauto.
Qed.

(** X6. [isCSS] accepts exactly the names the pattern [IS_CSS_RE]
    describes: a name that ends with a dot and one of the eight extensions,
    or with that followed by a question mark and a non-empty query without a
    dot. *)
Theorem isCSS_matches_pattern (id : string) :
  isCSS id = true ↔ matchesCssPattern id.
Proof.
  unfold isCSS, matchesCssPattern. rewrite orb_true_iff. split.
  - intros [Hplain | Hquery].
    + apply endsWithCssExtension_spec in Hplain as (prefix & ext & Hext & ->).
      exists prefix, ext, "". rewrite append_empty_r. eauto.
    + apply existsb_exists in Hquery as (k & Hk%in_seq & Hquery).
      cbn zeta in Hquery.
      rewrite !andb_true_iff, bool_decide_eq_true, substring_before,
        substring_from, Nat.ltb_lt in Hquery.
      rewrite (before_all (String.length id - S k)) in Hquery
        by (rewrite length_from; lia).
      destruct Hquery as [[[Hget Hext] Hlen] Hdot].
      apply endsWithCssExtension_spec in Hext as (prefix & ext & Hext & Hbefore).
      exists prefix, ext, ("?" +:+ from (S k) id).
      split; [|split; [done|]].
      * rewrite (get_split k id _ Hget) at 1. rewrite Hbefore.
        by rewrite !append_associative.
      * right. exists (from (S k) id). split; [done|]. split; [|done].
        intros Hempty. rewrite Hempty in Hlen. cbn in Hlen. lia.
  - intros (prefix & ext & tail & -> & Hext & [-> | (query & -> & Hquery & Hdot)]).
    + left. apply endsWithCssExtension_spec. exists prefix, ext.
      by rewrite append_empty_r.
    + right. apply existsb_exists.
      set (stem := prefix +:+ "." +:+ ext).
      assert (prefix +:+ "." +:+ ext +:+ "?" +:+ query
              = stem +:+ String "?" query) as ->
        by (unfold stem; by rewrite !append_associative).
      exists (String.length stem). split.
      * apply in_seq. rewrite length_append. cbn [String.length]. lia.
      * cbn zeta.
        rewrite !andb_true_iff, bool_decide_eq_true, substring_before,
          substring_from, Nat.ltb_lt.
        rewrite get_append, before_append.
        replace (from (S (String.length stem)) (stem +:+ String "?" query))
          with query.
        2:{ change (S (String.length stem))
              with (String.length (String "?" stem)).
            clear. induction stem as [|c stem IH]; [by destruct query|].
            rewrite append_cons. cbn [String.length from] in *. exact IH. }
        rewrite before_all by (rewrite length_append; cbn [String.length]; lia).
        repeat split; try done.
        -- apply endsWithCssExtension_spec. by exists prefix, ext.
        -- destruct query; [done|]. cbn. lia.
Qed.

(** ** Propagation to the facade *)

Lemma has_false file m :
  Registry.has file m = false ↔ Registry.entries m !! file = None.
Proof.
  unfold Registry.has. rewrite bool_decide_eq_false, <- eq_None_not_Some. done.
Qed.

Lemma has_true file m :
  Registry.has file m = true ↔ is_Some (Registry.entries m !! file).
Proof. unfold Registry.has. by rewrite bool_decide_eq_true. Qed.

Lemma share_itself facade m : Registry.share facade facade m = m.
Proof.
  unfold Registry.share.
  destruct (Registry.entries m !! facade) as [r|] eqn:Hr; [|done].
  destruct m as [entries store]. cbn in *. by rewrite insert_id.
Qed.

(** Modules without an entry, and the facade itself, leave the registry as
    it is. *)
Lemma renderChunk_loop_nothing facade files m :
  Forall (λ file, file = facade ∨ Registry.entries m !! file = None) files →
  fold_left
    (λ m file, if Registry.has file m then Registry.share facade file m else m)
    files m = m.
Proof.
  induction 1 as [|file files [-> | Hnone] _ IH]; [done|..]; cbn [fold_left].
  - rewrite share_itself. by destruct (Registry.has facade m).
  - apply has_false in Hnone. by rewrite Hnone.
Qed.

(** The reference the facade ends with: that of the last module that has an
    entry. *)
Lemma renderChunk_facade_reference facade earlier file later m :
  truthy facade = true → file ≠ facade → Registry.has file m = true →
  Forall (λ f, f = facade ∨ Registry.has f m = false) later →
  let m' := renderChunk {| facadeModuleId := Some facade;
                           moduleIds := earlier ++ file :: later |} m in
  Registry.store m' = Registry.store m
  ∧ Registry.entries m' !! facade = Registry.entries m !! file
  ∧ ∀ other, other ≠ facade →
             Registry.entries m' !! other = Registry.entries m !! other.
Proof.
  intros Hfacade Hne Hhas Hlater. unfold renderChunk.
  cbn [facadeModuleId moduleIds]. rewrite Hfacade, fold_left_app.
  destruct (renderChunk_loop_others facade earlier m) as [Hstore Hentries].
  cbn zeta in Hstore, Hentries. cbn [fold_left].
  set (m1 := fold_left _ earlier m) in *.
  assert (Registry.has file m1 = true) as Hhas1.
  { apply has_true. rewrite Hentries by done. by apply has_true. }
  rewrite Hhas1. apply has_true in Hhas as [r Hr].
  assert (Registry.entries m1 !! file = Some r) as Hr1
    by (by rewrite Hentries).
  rewrite renderChunk_loop_nothing.
  - unfold Registry.share. rewrite Hr1. cbn [Registry.store Registry.entries].
    split; [done|]. split; [by rewrite lookup_insert_eq, Hr|].
    intros other Hother. rewrite lookup_insert_ne by done. by apply Hentries.
  - eapply Forall_impl; [exact Hlater|]. intros f [-> | Hnone]; [by left|].
    destruct (decide (f = facade)) as [->|Hf]; [by left|]. right.
    unfold Registry.share. rewrite Hr1. cbn [Registry.entries].
    rewrite lookup_insert_ne by done. rewrite Hentries by done.
    by apply has_false.
Qed.

(** X7. [renderChunk] never changes a stored set and rebinds no id other
    than the facade: every other id keeps its urls.  Without a facade id, or
    with an empty one, the registry stays as it is, and so it does when no
    module other than the facade has an entry. *)
Theorem renderChunk_changes_facade_only (chunk : RenderedChunk) (m : Registry.t) :
  Registry.store (renderChunk chunk m) = Registry.store m
  ∧ (∀ file, facadeModuleId chunk ≠ Some file →
             Registry.get file (renderChunk chunk m) = Registry.get file m)
  ∧ (facadeModuleId chunk = None ∨ facadeModuleId chunk = Some "" →
     renderChunk chunk m = m)
  ∧ (∀ facade,
       facadeModuleId chunk = Some facade →
       Forall (λ file, file = facade ∨ Registry.has file m = false)
         (moduleIds chunk) →
       renderChunk chunk m = m).
Proof.
  unfold renderChunk.
  destruct (facadeModuleId chunk) as [facade|]; [|by repeat split; intros].
  destruct (truthy facade) eqn:Hfacade.
  - destruct (renderChunk_loop_others facade (moduleIds chunk) m)
      as [Hstore Hentries]. cbn zeta in Hstore, Hentries.
    split; [done|]. split; [|split].
    + intros file Hfile. unfold Registry.get.
      rewrite Hentries by congruence. by rewrite Hstore.
    + intros [[=] | [= ->]]. done.
    + intros ? [= <-] Hnone. apply renderChunk_loop_nothing.
      eapply Forall_impl; [exact Hnone|]. intros f [-> | Hf]; [by left|].
      right. by apply has_false.
  - by repeat split; intros.
Qed.

(** A chunk whose only module with an entry is the facade itself. *)
Lemma renderChunk_changes_facade_only_witness :
  renderChunk {| facadeModuleId := Some "entry.js";
                 moduleIds := ["entry.js"; "a.js"] |}
    (Registry.add "entry.js" "u0" Registry.empty)
  = Registry.add "entry.js" "u0" Registry.empty.
Proof.
  eapply (renderChunk_changes_facade_only
    {| facadeModuleId := Some "entry.js"; moduleIds := ["entry.js"; "a.js"] |}).
  - reflexivity.
  - constructor; [by left|]. constructor; [right; reflexivity|]. constructor.
Defined.

(** X8. When the facade id is not empty, the facade ends with the urls of
    the last module of [moduleIds] that has an entry and is not the facade
    itself, whatever the facade and the earlier modules held. *)
Theorem facade_gets_last_entry (facade : string) (earlier : list string)
    (file : string) (later : list string) (m : Registry.t) :
  truthy facade = true → file ≠ facade → Registry.has file m = true →
  Forall (λ f, f = facade ∨ Registry.has f m = false) later →
  Registry.get facade
    (renderChunk {| facadeModuleId := Some facade;
                    moduleIds := earlier ++ file :: later |} m)
  = Registry.get file m.
Proof.
  intros Hfacade Hne Hhas Hlater.
  destruct (renderChunk_facade_reference facade earlier file later m
              Hfacade Hne Hhas Hlater) as (Hstore & Hentry & _).
  unfold Registry.get. by rewrite Hentry, Hstore.
Qed.

(** Two modules with urls, then the facade and a module without. *)
Lemma facade_gets_last_entry_witness :
  Registry.get "entry.js"
    (renderChunk {| facadeModuleId := Some "entry.js";
                    moduleIds := ["a.css"] ++ "b.css" :: ["entry.js"; "c.js"] |}
       (Registry.add "b.css" "u2" (Registry.add "a.css" "u1" Registry.empty)))
  = Registry.get "b.css"
      (Registry.add "b.css" "u2" (Registry.add "a.css" "u1" Registry.empty)).
Proof.
  apply facade_gets_last_entry.
  - reflexivity.
  - discriminate.
  - reflexivity.
  - constructor; [by left|]. constructor; [right; reflexivity|]. constructor.
Defined.

(** X9. After [renderChunk] the facade and the last module with an entry
    hold one and the same set: a url recorded later for either of the two
    ids is in the urls of both. *)
Theorem facade_and_module_share (facade : string) (earlier : list string)
    (file : string) (later : list string) (m : Registry.t) (url : string)
    (urls : gset string) :
  truthy facade = true → file ≠ facade →
  Registry.get file m = Some urls →
  Forall (λ f, f = facade ∨ Registry.has f m = false) later →
  let m' := renderChunk {| facadeModuleId := Some facade;
                           moduleIds := earlier ++ file :: later |} m in
  Registry.get facade (Registry.add file url m') = Some (urls ∪ {[url]})
  ∧ Registry.get file (Registry.add file url m') = Some (urls ∪ {[url]})
  ∧ Registry.get facade (Registry.add facade url m') = Some (urls ∪ {[url]})
  ∧ Registry.get file (Registry.add facade url m') = Some (urls ∪ {[url]}).
Proof.
  intros Hfacade Hne Hget Hlater m'.
  assert (Registry.has file m = true) as Hhas.
  { apply has_true. unfold Registry.get in Hget.
    by destruct (Registry.entries m !! file). }
  destruct (renderChunk_facade_reference facade earlier file later m
              Hfacade Hne Hhas Hlater) as (Hstore & Hentry & Hothers).
  fold m' in Hstore, Hentry, Hothers.
  apply has_true in Hhas as [r Hr].
  assert (Registry.store m !! r = Some urls) as Hurls.
  { unfold Registry.get in Hget. by rewrite Hr in Hget. }
  assert (Registry.entries m' !! file = Some r) as Hfile
    by (by rewrite Hothers).
  rewrite Hr in Hentry.
  unfold Registry.get, Registry.add. rewrite Hfile, Hentry.
  cbn [Registry.entries Registry.store].
  rewrite !lookup_insert_eq, !lookup_insert_ne, Hfile, Hentry by done.
  rewrite Hstore. cbn [mbind option_bind].
  rewrite list_lookup_alter_eq, Hurls. done.
Qed.

(** The stylesheet "a.css" with one url, propagated to "entry.js". *)
Lemma facade_and_module_share_witness :
  Registry.get "entry.js"
    (Registry.add "a.css" "u3"
       (renderChunk {| facadeModuleId := Some "entry.js";
                       moduleIds := [] ++ "a.css" :: [] |}
          (Registry.add "a.css" "u1" Registry.empty)))
  = Some ({["u1"]} ∪ {["u3"]}).
Proof.
  apply (facade_and_module_share "entry.js" [] "a.css" []
           (Registry.add "a.css" "u1" Registry.empty) "u3" {["u1"]}).
  - reflexivity.
  - discriminate.
  - vm_compute. reflexivity.
  - constructor.
Defined.

(** ** The registry during a rewrite *)

Lemma recordAll_snoc id urls url m :
  recordAll id (urls ++ [url]) m = Registry.add id url (recordAll id urls m).
Proof. unfold recordAll. by rewrite fold_left_app. Qed.

Lemma concat_option_list {A B} (f : A → option B) (l : list A) :
  concat ((λ a, option_list (f a)) <$> l) = omap f l.
Proof.
  induction l as [|a l IH]; [done|]. cbn. rewrite IH. by destruct (f a).
Qed.

Section RegistryOfRewrite.

Context `{Imports}.
Variable options : FontlessOptions.
Variable plugin : PluginState.
Variable id : string.
Variable opts : TransformCSSOptions.

Local Abbreviation step := (resume options plugin id opts).

Lemma fontLoop_registry fr remaining σ :
  fontsToPreload (fontLoop fr remaining σ).1 = fontsToPreload σ
  ∧ isAwaitResolve (fontLoop fr remaining σ).2 = false.
Proof. by destruct remaining. Qed.

Lemma declarationLoop_registry declarations :
  ∀ fr n rest σ,
    fontsToPreload (declarationLoop plugin fr declarations n rest σ).1
    = fontsToPreload σ
    ∧ isAwaitResolve (declarationLoop plugin fr declarations n rest σ).2 = false.
Proof.
  induction declarations as [|declaration todo IH]; intros fr n rest σ;
    cbn [declarationLoop].
  - apply fontLoop_registry.
  - destruct (decide (declaration ∈ injectedDeclarations σ)); [apply IH|].
    destruct (isDev plugin); [|done].
    destruct (IH (pushPreface (declaration +:+ newline) fr) n rest
                (markInjected declaration σ)) as [-> ->]. done.
Qed.

(** Only the step that follows the resolver touches the registry. *)
Lemma resume_registry σ t :
  isAwaitResolve (step σ t).2 = false
  ∧ fontsToPreload (step σ t).1
    = match t with
      | AwaitResolve fontFamily fallbackOptions =>
          match preloadUrl options (fontFamily, fallbackOptions) with
          | Some url => Registry.add id url (fontsToPreload σ)
          | None => fontsToPreload σ
          end
      | _ => fontsToPreload σ
      end.
Proof.
  destruct t as [F fo | fr font rest | fr d todo n rest |]; cbn [resume].
  - unfold preloadUrl. cbn [fst snd].
    destruct (resolveFontFace options F (resolveArguments fo)) as [result|];
      cbn [from_option Datatypes.id fonts]; [|done].
    destruct (fonts result) as [[|first others]|]; [done| |done].
    cbn [fontLoop fst snd isAwaitResolve]. split; [done|].
    unfold recordPreload.
    destruct (shouldPreload options F first); [|done].
    destruct (firstRemoteUrl (src first)) as [url|]; [|done].
    by destruct (truthy url).
  - destruct (declarationLoop_registry
      (generateFontFace (fontFamily fr) (placed id opts font)
       :: generateFontFallbacks (fontFamily fr) font (fallbackMap fr)) fr
      (List.length (generateFontFallbacks (fontFamily fr) font (fallbackMap fr)))
      rest σ) as [-> ->]. done.
  - destruct (declarationLoop_registry todo
      (pushPreface (minified plugin d) fr) n rest σ) as [-> ->]. done.
  - done.
Qed.

Lemma step_preloads registry origins σ tasks i t :
  preloadInvariant options id registry origins σ tasks →
  tasks !! i = Some t →
  preloadInvariant options id registry origins
    (step σ t).1 (<[i := (step σ t).2]> tasks).
Proof.
  intros (urls & marks & Hlen & Hlenm & Hstate & Hperm & Hreg) Hi.
  destruct (lookup_lt_is_Some_2 origins i) as [origin Ho];
    [rewrite <- Hlen; by eapply lookup_lt_Some|].
  destruct (lookup_lt_is_Some_2 marks i) as [mark Hm];
    [rewrite Hlenm; by eapply lookup_lt_Some|].
  destruct (resume_registry σ t) as [Hpast Hafter].
  destruct (Hstate _ _ _ _ Ho Hi Hm) as [[-> ->] | [Hnot ->]].
  - destruct origin as [F fo]. unfold start in Hafter. cbn [fst snd] in Hafter.
    exists (urls ++ option_list (preloadUrl options (F, fo))),
      (<[i := [] ++ option_list (preloadUrl options (F, fo))]> marks).
    split; [by rewrite length_insert|]. split; [by rewrite length_insert|].
    split; [|split].
    + intros j origin' t' mark' Ho' Ht' Hm'.
      destruct (decide (j = i)) as [->|Hne].
      * rewrite list_lookup_insert_eq in Ht' by by eapply lookup_lt_Some.
        rewrite list_lookup_insert_eq in Hm' by by eapply lookup_lt_Some.
        simplify_eq. by right.
      * rewrite list_lookup_insert_ne in Ht' by done.
        rewrite list_lookup_insert_ne in Hm' by done. by eapply Hstate.
    + rewrite (concat_replace marks i [] _ Hm). by rewrite Hperm.
    + unfold start. cbn [fst snd]. rewrite Hafter, Hreg.
      destruct (preloadUrl options (F, fo)) as [url|].
      * change (option_list (Some url)) with [url]. by rewrite recordAll_snoc.
      * change (option_list (@None string)) with (@nil string).
        by rewrite app_nil_r.
  - exists urls, marks.
    split; [by rewrite length_insert|]. split; [done|].
    split; [|split; [done|]].
    + intros j origin' t' mark' Ho' Ht' Hm'.
      destruct (decide (j = i)) as [->|Hne].
      * rewrite list_lookup_insert_eq in Ht' by by eapply lookup_lt_Some.
        simplify_eq. by right.
      * rewrite list_lookup_insert_ne in Ht' by done. by eapply Hstate.
    + rewrite Hafter, Hreg. by destruct t.
Qed.

Lemma run_preloads registry origins schedule :
  ∀ σ tasks,
    preloadInvariant options id registry origins σ tasks →
    preloadInvariant options id registry origins
      (run options plugin id opts schedule σ tasks).1
      (run options plugin id opts schedule σ tasks).2.
Proof.
  induction schedule as [|i schedule IH]; intros σ tasks Hinv; [done|].
  cbn [run].
  destruct (tasks !! i) as [t|] eqn:Hi; [|by apply IH].
  pose proof (step_preloads registry origins σ tasks i t Hinv Hi) as Hstep.
  destruct (step σ t) as [σ' t']. by apply IH.
Qed.

Lemma initial_preloads code registry (origins : list Origin) :
  preloadInvariant options id registry origins
    (initialState code registry) (start <$> origins).
Proof.
  exists [], ((λ _, []) <$> origins).
  split; [by rewrite length_fmap|]. split; [by rewrite length_fmap|].
  split; [|split; [|done]].
  - intros i origin t mark Ho Ht Hm. left.
    rewrite list_lookup_fmap, Ho in Ht. rewrite list_lookup_fmap, Ho in Hm.
    cbn in Ht, Hm. by simplify_eq.
  - rewrite (concat_all_empty ((λ _ : Origin, []) <$> origins)); [done|].
    intros i h Hi. rewrite list_lookup_fmap in Hi.
    destruct (origins !! i); cbn in Hi; by simplify_eq.
Qed.

End RegistryOfRewrite.

(** *** What [add] leaves alone *)

Lemma add_entries_other id url m k :
  k ≠ id → Registry.entries (Registry.add id url m) !! k = Registry.entries m !! k.
Proof.
  intros Hne. unfold Registry.add.
  destruct (Registry.entries m !! id); cbn; by rewrite lookup_insert_ne.
Qed.

Lemma add_entries_bound id url m r :
  Registry.entries m !! id = Some r →
  Registry.entries (Registry.add id url m) !! id = Some r.
Proof.
  intros Hid. unfold Registry.add. rewrite Hid. cbn. by rewrite lookup_insert_eq.
Qed.

Lemma add_entries_new id url m :
  Registry.entries m !! id = None →
  Registry.entries (Registry.add id url m) !! id
  = Some (List.length (Registry.store m)).
Proof.
  intros Hid. unfold Registry.add. rewrite Hid. cbn. by rewrite lookup_insert_eq.
Qed.

Lemma add_store_length id url m :
  List.length (Registry.store m)
  ≤ List.length (Registry.store (Registry.add id url m)).
Proof.
  unfold Registry.add. destruct (Registry.entries m !! id); cbn.
  - by rewrite length_alter.
  - rewrite length_app. lia.
Qed.

Lemma add_store_other id url m r :
  r < List.length (Registry.store m) →
  Registry.entries m !! id ≠ Some r →
  Registry.store (Registry.add id url m) !! r = Registry.store m !! r.
Proof.
  intros Hr Hid. unfold Registry.add.
  destruct (Registry.entries m !! id) as [r'|]; cbn.
  - apply list_lookup_alter_ne. congruence.
  - by apply lookup_app_l.
Qed.

Lemma grows_refl m : grows m m.
Proof. split; [done|]. intros r urls Hr. by exists urls. Qed.

Lemma grows_trans m1 m2 m3 : grows m1 m2 → grows m2 m3 → grows m1 m3.
Proof.
  intros [He1 Hs1] [He2 Hs2]. split.
  - intros k r Hk. by apply He2, He1.
  - intros r urls Hr.
    destruct (Hs1 _ _ Hr) as (urls' & Hr' & Hsub).
    destruct (Hs2 _ _ Hr') as (urls'' & Hr'' & Hsub').
    exists urls''. split; [done|]. set_solver.
Qed.

Lemma add_grows id url m : grows m (Registry.add id url m).
Proof.
  split.
  - intros k r Hk. destruct (decide (k = id)) as [->|Hne].
    + by apply add_entries_bound.
    + by rewrite add_entries_other.
  - intros r urls Hr. unfold Registry.add.
    destruct (Registry.entries m !! id) as [r'|]; cbn.
    + destruct (decide (r = r')) as [<-|Hne].
      * exists (urls ∪ {[url]}). rewrite list_lookup_alter_eq, Hr.
        split; [done|set_solver].
      * exists urls. by rewrite list_lookup_alter_ne by done.
    + exists urls. split; [|done]. apply lookup_app_l_Some, Hr.
Qed.

(** *** What [recordAll] does *)

Lemma recordAll_cons id url urls m :
  recordAll id (url :: urls) m = recordAll id urls (Registry.add id url m).
Proof. done. Qed.

Lemma recordAll_grows id urls : ∀ m, grows m (recordAll id urls m).
Proof.
  induction urls as [|url urls IH]; intros m; [apply grows_refl|].
  rewrite recordAll_cons. eapply grows_trans; [apply add_grows|apply IH].
Qed.

Lemma recordAll_wellFormed id urls :
  ∀ m, wellFormed m → wellFormed (recordAll id urls m).
Proof.
  induction urls as [|url urls IH]; intros m Hwf; [done|].
  rewrite recordAll_cons. by apply IH, wellFormed_add.
Qed.

Lemma recordAll_entries_other id urls k :
  k ≠ id →
  ∀ m, Registry.entries (recordAll id urls m) !! k = Registry.entries m !! k.
Proof.
  intros Hne. induction urls as [|url urls IH]; intros m; [done|].
  by rewrite recordAll_cons, IH, add_entries_other.
Qed.

Lemma recordAll_store_other id urls r :
  ∀ m, r < List.length (Registry.store m) →
       Registry.entries m !! id ≠ Some r →
       Registry.store (recordAll id urls m) !! r = Registry.store m !! r.
Proof.
  induction urls as [|url urls IH]; intros m Hr Hid; [done|].
  rewrite recordAll_cons, IH.
  - by apply add_store_other.
  - pose proof (add_store_length id url m). lia.
  - destruct (Registry.entries m !! id) as [r'|] eqn:Hid'.
    + by rewrite (add_entries_bound id url m r').
    + rewrite add_entries_new by done. intros [= Heq]. lia.
Qed.

Lemma recordAll_get id urls :
  ∀ m, wellFormed m → urls ≠ [] →
       Registry.get id (recordAll id urls m)
       = Some (default ∅ (Registry.get id m) ∪ list_to_set urls).
Proof.
  induction urls as [|url urls IH]; intros m Hwf Hne; [done|].
  rewrite recordAll_cons. destruct urls as [|url' urls].
  - cbn [recordAll fold_left]. rewrite registry_add_union by done.
    f_equal. set_solver.
  - rewrite IH by (by apply wellFormed_add || done).
    rewrite registry_add_union by done. cbn [from_option Datatypes.id].
    f_equal. set_solver.
Qed.

Section RegistryOfRewriteResults.

Context `{Imports}.
Variable options : FontlessOptions.
Variable plugin : PluginState.

Lemma transformCSS_records code id opts registry schedule s0 registry' :
  transformCSS options plugin code id opts registry schedule = Some (s0, registry') →
  ∃ (origins : list Origin) (urls : list string),
    (processNode options (parse code) 0 ∅ []).2 = start <$> origins
    ∧ urls ≡ₚ omap (preloadUrl options) origins
    ∧ registry' = recordAll id urls registry.
Proof.
  unfold transformCSS.
  destruct (processNode_origins options (parse code) 0 ∅) as (origins & Hp & _).
  destruct (processNode options (parse code) 0 ∅ []) as [existing promises].
  cbn [snd] in Hp. subst promises.
  pose proof (run_preloads options plugin id opts registry origins schedule _ _
                (initial_preloads options id code registry origins)) as Hinv.
  destruct (run options plugin id opts schedule (initialState code registry)
              (start <$> origins)) as [σ tasks].
  cbn [fst snd] in Hinv.
  destruct (forallb isSettled tasks) eqn:Hsettled; [|done].
  intros [= <- <-].
  destruct Hinv as (urls & marks & Hlen & Hlenm & Hstate & Hperm & Hreg).
  exists origins, urls. split; [done|]. split; [|done].
  rewrite Hperm. rewrite <- concat_option_list.
  replace marks with ((λ origin, option_list (preloadUrl options origin)) <$> origins);
    [done|].
  apply list_eq. intros i. rewrite list_lookup_fmap.
  destruct (origins !! i) as [origin|] eqn:Ho; cbn.
  - destruct (lookup_lt_is_Some_2 tasks i) as [t Ht];
      [rewrite Hlen; by eapply lookup_lt_Some|].
    destruct (lookup_lt_is_Some_2 marks i) as [mark Hm];
      [rewrite Hlenm; by eapply lookup_lt_Some|].
    rewrite Hm. f_equal.
    destruct (Hstate _ _ _ _ Ho Ht Hm) as [[-> ->] | [_ ->]]; [|done].
    rewrite forallb_forall in Hsettled.
    assert (isSettled (start origin) = true) as Hs
      by (apply Hsettled, list_elem_of_In; by eapply list_elem_of_lookup_2).
    done.
  - symmetry. apply lookup_ge_None. rewrite Hlenm. by apply lookup_ge_None.
Qed.

End RegistryOfRewriteResults.

Lemma firstRemoteUrl_spec (sources : list FontSource) (url : string) :
  firstRemoteUrl sources = Some url
  ↔ ∃ locals rest,
      sources = locals ++ RemoteFontSource url :: rest
      ∧ Forall (λ source, ∃ name, source = LocalFontSource name) locals.
Proof.
  unfold firstRemoteUrl.
  induction sources as [|source sources IH]; cbn [List.find].
  - split; [done|]. intros (locals & rest & Heq & _). by destruct locals.
  - destruct source as [name | remote].
    + rewrite IH. split.
      * intros (locals & rest & -> & Hlocals).
        exists (LocalFontSource name :: locals), rest. split; [done|].
        constructor; [by exists name|done].
      * intros (locals & rest & Heq & Hlocals).
        destruct locals as [|first locals]; [done|].
        injection Heq as <- ->. apply Forall_cons in Hlocals as [_ Hlocals].
        by exists locals, rest.
    + split.
      * intros [= <-]. exists [], sources. split; [done|constructor].
      * intros (locals & rest & Heq & Hlocals).
        destruct locals as [|first locals]; [by injection Heq as ->|].
        injection Heq as <- _. apply Forall_cons in Hlocals as [[name Hname] _].
        done.
Qed.

Lemma preloadUrl_spec `{Imports} (options : FontlessOptions) (origin : Origin)
    (url : string) :
  preloadUrl options origin = Some url
  ↔ ∃ result first others locals rest,
      resolveFontFace options origin.1 (resolveArguments origin.2) = Some result
      ∧ fonts result = Some (first :: others)
      ∧ shouldPreload options origin.1 first = true
      ∧ src first = locals ++ RemoteFontSource url :: rest
      ∧ Forall (λ source, ∃ name, source = LocalFontSource name) locals
      ∧ url ≠ "".
Proof.
  unfold preloadUrl. split.
  - destruct (resolveFontFace options origin.1 (resolveArguments origin.2))
      as [result|] eqn:Hres; [|done].
    destruct (fonts result) as [[|first others]|] eqn:Hfonts; [done| |done].
    destruct (shouldPreload options origin.1 first) eqn:Hpreload; [|done].
    destruct (firstRemoteUrl (src first)) as [found|] eqn:Hfound; [|done].
    destruct (truthy found) eqn:Htruthy; [|done]. intros [= ->].
    apply firstRemoteUrl_spec in Hfound as (locals & rest & Hsrc & Hlocals).
    exists result, first, others, locals, rest.
    repeat split; try done. by apply truthy_true.
  - intros (result & first & others & locals & rest
            & -> & -> & -> & Hsrc & Hlocals & Hurl).
    assert (firstRemoteUrl (src first) = Some url) as ->
      by (apply firstRemoteUrl_spec; by exists locals, rest).
    apply truthy_true in Hurl. by rewrite Hurl.
Qed.

Section RegistryOfRewriteTheorems.

Context `{Imports}.
Variable options : FontlessOptions.
Variable plugin : PluginState.

(** X10.  What a rewrite does to the preload registry.  A call has a url
    to preload when its family resolved to at least one font, [shouldPreload]
    accepts the first font, and the first source of that font that has a url
    has one that is not empty: that url.  When the first url is empty the
    call has none, whatever the later sources are; later fonts and the
    fallbacks are never looked at.  When [transformCSS] returns, the
    registry is the one it was called with and, recorded for the id of the
    rewrite one after the other in some order, the urls of the scheduled
    calls that have one, and nothing else. *)
Theorem registry_records_preload_urls (code id : string) (opts : TransformCSSOptions)
    (registry : Registry.t) (schedule : list nat)
    (s0 : MagicString.t) (registry' : Registry.t) :
  transformCSS options plugin code id opts registry schedule = Some (s0, registry') →
  (∀ (origin : Origin) url,
     preloadUrl options origin = Some url
     ↔ ∃ result first others locals rest,
         resolveFontFace options origin.1 (resolveArguments origin.2) = Some result
         ∧ fonts result = Some (first :: others)
         ∧ shouldPreload options origin.1 first = true
         ∧ src first = locals ++ RemoteFontSource url :: rest
         ∧ Forall (λ source, ∃ name, source = LocalFontSource name) locals
         ∧ url ≠ "")
  ∧ ∃ (origins : list Origin) (urls : list string),
      (processNode options (parse code) 0 ∅ []).2 = start <$> origins
      ∧ urls ≡ₚ omap (preloadUrl options) origins
      ∧ registry' = recordAll id urls registry.
Proof.
  intros Hresult. split; [apply preloadUrl_spec|by eapply transformCSS_records].
Qed.

(** X11.  The sets of the registry after a rewrite.  Starting from a
    registry in which every id names a set, the rewrite of [id] leaves every
    other id bound as it was; an id that shared its set with [id] sees the
    same set as [id] afterwards, and an id that did not keeps its urls; the
    urls of [id] are the ones it had and the preload urls of the scheduled
    calls, and nothing else. *)
Theorem registry_sets_after_rewrite (code id : string) (opts : TransformCSSOptions)
    (registry : Registry.t) (schedule : list nat)
    (s0 : MagicString.t) (registry' : Registry.t) :
  wellFormed registry →
  transformCSS options plugin code id opts registry schedule = Some (s0, registry') →
  wellFormed registry'
  ∧ (∀ k, k ≠ id →
       Registry.entries registry' !! k = Registry.entries registry !! k)
  ∧ (∀ k r, Registry.entries registry !! k = Some r →
            Registry.entries registry !! id = Some r →
            Registry.get k registry' = Registry.get id registry')
  ∧ (∀ k, k ≠ id →
          (∀ r, Registry.entries registry !! k = Some r →
                Registry.entries registry !! id ≠ Some r) →
          Registry.get k registry' = Registry.get k registry)
  ∧ (∀ url,
       url ∈ default ∅ (Registry.get id registry')
       ↔ url ∈ default ∅ (Registry.get id registry)
         ∨ ∃ fontFamily fallbackOptions,
             AwaitResolve fontFamily fallbackOptions
               ∈ (processNode options (parse code) 0 ∅ []).2
             ∧ preloadUrl options (fontFamily, fallbackOptions) = Some url).
Proof.
  intros Hwf Hresult.
  destruct (transformCSS_records _ _ _ _ _ _ _ _ _ Hresult)
    as (origins & urls & Hp & Hperm & ->).
  split; [by apply recordAll_wellFormed|].
  split; [intros k Hne; by apply recordAll_entries_other|].
  split; [|split].
  - intros k r Hk Hid. unfold Registry.get.
    destruct (recordAll_grows id urls registry) as [Hentries _].
    by rewrite (Hentries _ _ Hk), (Hentries _ _ Hid).
  - intros k Hne Hother. unfold Registry.get.
    rewrite recordAll_entries_other by done.
    destruct (Registry.entries registry !! k) as [r|] eqn:Hk; [|done]. cbn.
    apply recordAll_store_other; [by eapply Hwf|by apply Hother].
  - intros url. rewrite Hp.
    assert (url ∈ urls
            ↔ ∃ fontFamily fallbackOptions,
                AwaitResolve fontFamily fallbackOptions ∈ start <$> origins
                ∧ preloadUrl options (fontFamily, fallbackOptions) = Some url)
      as Hurls.
    { rewrite Hperm, list_elem_of_omap. split.
      - intros ([F fo] & Hin & Hurl). exists F, fo. split; [|done].
        apply list_elem_of_fmap. by exists (F, fo).
      - intros (F & fo & Hin & Hurl). exists (F, fo). split; [|done].
        apply list_elem_of_fmap in Hin as ([F' fo'] & Heq & Hin).
        unfold start in Heq. cbn [fst snd] in Heq. by simplify_eq. }
    rewrite <- Hurls. destruct urls as [|first others].
    + cbn [recordAll fold_left]. set_solver.
    + rewrite recordAll_get by done. cbn [from_option Datatypes.id].
      rewrite elem_of_union, elem_of_list_to_set. done.
Qed.

(** X12.  The registry across the bundle hook.  When [generateBundle]
    returns, every id that was bound names the same set as before, every
    set holds at least the urls it held, and an id whose binding is new is
    the key under which the bundle holds a CSS asset. *)
Theorem bundle_registry_grows (schedules : string → list nat)
    (bundle bundle' : OutputBundle) (registry registry' : Registry.t) :
  generateBundle options plugin schedules bundle registry = Some (bundle', registry') →
  grows registry registry'
  ∧ ∀ k, Registry.entries registry' !! k ≠ Registry.entries registry !! k →
         ∃ fileName source,
           (k, OutputAsset fileName source) ∈ bundle ∧ isCSS fileName = true.
Proof.
  revert bundle' registry registry'.
  induction bundle as [|[key chunk] rest IH]; intros bundle' registry registry'.
  { cbn [generateBundle]. intros [= <- <-]. split; [apply grows_refl|done]. }
  cbn [generateBundle].
  assert (∀ rest'' registry'',
            generateBundle options plugin schedules rest registry
            = Some (rest'', registry'') →
            grows registry registry''
            ∧ ∀ k, Registry.entries registry'' !! k ≠ Registry.entries registry !! k →
                   ∃ fileName source,
                     (k, OutputAsset fileName source) ∈ (key, chunk) :: rest
                     ∧ isCSS fileName = true) as Hskip.
  { intros rest'' registry'' Hrest.
    destruct (IH _ _ _ Hrest) as [Hgrows Hnew]. split; [done|].
    intros k Hk. destruct (Hnew k Hk) as (fileName & source & Hin & Hcss).
    exists fileName, source. split; [by apply list_elem_of_further|done]. }
  destruct chunk as [fileName source | fileName chunkCode].
  - destruct (isCSS fileName) eqn:Hcss.
    + destruct (transformCSS options plugin source key {| relative := Some true |}
                  registry (schedules key)) as [[s0 registry0]|] eqn:Hresult;
        [|done].
      destruct (generateBundle options plugin schedules rest registry0)
        as [[rest' registry'']|] eqn:Hrest; [|done].
      intros [= <- <-].
      destruct (transformCSS_records _ _ _ _ _ _ _ _ _ Hresult)
        as (origins & urls & _ & _ & ->).
      destruct (IH _ _ _ Hrest) as [Hgrows Hnew]. split.
      * eapply grows_trans; [apply recordAll_grows|done].
      * intros k Hk.
        destruct (decide (Registry.entries registry'' !! k
                          = Registry.entries (recordAll key urls registry) !! k))
          as [Hsame|Hchanged].
        -- destruct (decide (k = key)) as [->|Hne].
           ++ exists fileName, source. split; [apply list_elem_of_here|done].
           ++ rewrite Hsame, recordAll_entries_other in Hk by done. done.
        -- destruct (Hnew k Hchanged) as (fileName' & source' & Hin & Hcss').
           exists fileName', source'.
           split; [by apply list_elem_of_further|done].
    + destruct (generateBundle options plugin schedules rest registry)
        as [[rest' registry'']|] eqn:Hrest; [|done].
      intros [= <- <-]. by eapply Hskip.
  - destruct (generateBundle options plugin schedules rest registry)
      as [[rest' registry'']|] eqn:Hrest; [|done].
    intros [= <- <-]. by eapply Hskip.
Qed.

End RegistryOfRewriteTheorems.

(** The production rewrite of the sample with two uses of "Foo": two calls
    are scheduled and the url of "Foo" is recorded for each. *)
Lemma registry_records_preload_urls_witness :
  ∃ s0 registry' (origins : list Origin) urls,
    transformCSS (H := Sample.imports) Sample.options Sample.build
      Sample.sheetTwice "k" {| relative := Some true |} Registry.empty
      [0; 1; 0; 1; 0; 1; 0; 1]
    = Some (s0, registry')
    ∧ List.length origins = 2
    ∧ urls ≡ₚ [Sample.fooUrl; Sample.fooUrl]
    ∧ registry' = recordAll "k" urls Registry.empty.
Proof.
  destruct (transformCSS (H := Sample.imports) Sample.options Sample.build
              Sample.sheetTwice "k" {| relative := Some true |} Registry.empty
              [0; 1; 0; 1; 0; 1; 0; 1]) as [[s0 registry']|] eqn:Hresult;
    [|vm_compute in Hresult; discriminate Hresult].
  destruct (registry_records_preload_urls (H := Sample.imports)
              Sample.options Sample.build _ _ _ _ _ _ _ Hresult)
    as (_ & origins & urls & Hp & Hperm & Hreg).
  exists s0, registry', origins, urls. split; [done|].
  destruct origins as [|[F1 fo1] [|[F2 fo2] [|third origins]]];
    try (vm_compute in Hp; discriminate Hp).
  vm_compute in Hp. injection Hp as <- <- <- <-.
  split; [done|]. split; [|done]. rewrite Hperm. vm_compute. done.
Defined.

(** A first font whose first url is empty: nothing is preloaded, although a
    later source has a url. *)
Example empty_first_url_not_preloaded :
  preloadUrl (H := Sample.imports)
    {| resolveFontFace := λ _ _,
         Some {| fonts := Some [{| src := [LocalFontSource "Foo";
                                           RemoteFontSource "";
                                           RemoteFontSource Sample.fooUrl];
                                   weight := None; style := None |}];
                 fallbacks := None |};
       processCSSVariables := None;
       shouldPreload := λ _ _, true |}
    ("Foo", None)
  = None.
Proof. reflexivity. Qed.

(** The production rewrite of [a{font-family:'Foo'}] with a registry in
    which "other" already has a url. *)
Lemma registry_sets_after_rewrite_witness :
  ∃ s0 registry',
    transformCSS (H := Sample.imports) Sample.options Sample.build
      Sample.sheetFoo "k" {| relative := Some true |}
      (Registry.add "other" "https://fonts.test/bar.woff2" Registry.empty)
      [0; 0; 0; 0]
    = Some (s0, registry')
    ∧ Registry.get "other" registry'
      = Registry.get "other"
          (Registry.add "other" "https://fonts.test/bar.woff2" Registry.empty)
    ∧ ∀ url, url ∈ default ∅ (Registry.get "k" registry') ↔ url = Sample.fooUrl.
Proof.
  destruct (transformCSS (H := Sample.imports) Sample.options Sample.build
              Sample.sheetFoo "k" {| relative := Some true |}
              (Registry.add "other" "https://fonts.test/bar.woff2" Registry.empty)
              [0; 0; 0; 0]) as [[s0 registry']|] eqn:Hresult;
    [|vm_compute in Hresult; discriminate Hresult].
  destruct (registry_sets_after_rewrite (H := Sample.imports)
              Sample.options Sample.build _ _ _ _ _ _ _
              (wellFormed_add _ _ _ wellFormed_empty) Hresult)
    as (_ & _ & _ & Hother & Hurls).
  exists s0, registry'. split; [done|]. split.
  - apply Hother; [done|]. intros r _. vm_compute. discriminate.
  - intros url. rewrite Hurls. split.
    + intros [Hold | (F & fo & Hin & Hurl)].
      * vm_compute in Hold. discriminate Hold.
      * apply list_elem_of_In in Hin. vm_compute in Hin.
        destruct Hin as [Heq | []]. injection Heq as <- <-.
        vm_compute in Hurl. by injection Hurl as <-.
    + intros ->. right.
      exists "Foo",
        (Some {| generic := None; fallbackNames := []; index := 19 |}).
      split; [apply list_elem_of_In; vm_compute; by left|].
      vm_compute. done.
Defined.

(** A bundle with one CSS asset, rewritten for production. *)
Lemma bundle_registry_grows_witness :
  ∃ bundle' registry',
    generateBundle (H := Sample.imports) Sample.options Sample.build
      (λ _, [0; 0; 0; 0])
      [("assets/a.css", OutputAsset "assets/a.css" Sample.sheetFoo)]
      Registry.empty
    = Some (bundle', registry')
    ∧ grows Registry.empty registry'
    ∧ ∀ k, Registry.entries registry' !! k ≠ None → k = "assets/a.css".
Proof.
  destruct (generateBundle (H := Sample.imports) Sample.options Sample.build
              (λ _, [0; 0; 0; 0])
              [("assets/a.css", OutputAsset "assets/a.css" Sample.sheetFoo)]
              Registry.empty) as [[bundle' registry']|] eqn:Hresult;
    [|vm_compute in Hresult; discriminate Hresult].
  destruct (bundle_registry_grows (H := Sample.imports)
              Sample.options Sample.build _ _ _ _ _ Hresult) as [Hgrows Hnew].
  exists bundle', registry'. split; [done|]. split; [done|].
  intros k Hk. destruct (Hnew k) as (fileName & source & Hin & _); [done|].
  apply list_elem_of_singleton in Hin. by injection Hin as ->.
Defined.

(** ** The awaits of a rewrite *)

Section Awaits.

Context `{Imports}.
Variable options : FontlessOptions.
Variable plugin : PluginState.
Variable id : string.
Variable opts : TransformCSSOptions.

Local Abbreviation step := (resume options plugin id opts).
Local Abbreviation runAll := (run options plugin id opts).
Local Abbreviation price := (cost options).

Lemma declarationLoop_dev declarations :
  isDev plugin = true →
  ∀ fr n rest σ,
    isAwaitTransform (declarationLoop plugin fr declarations n rest σ).2 = false.
Proof.
  intros Hdev.
  induction declarations as [|declaration todo IH]; intros fr n rest σ;
    cbn [declarationLoop].
  - by destruct rest.
  - destruct (decide (declaration ∈ injectedDeclarations σ)); [apply IH|].
    rewrite Hdev. apply IH.
Qed.

Lemma resume_dev σ t :
  isDev plugin = true →
  isAwaitTransform t = false → isAwaitTransform (step σ t).2 = false.
Proof.
  intros Hdev Ht.
  destruct t as [F fo | fr font rest | fr d todo n rest |]; [| |done|done].
  - cbn [resume].
    destruct (fonts (default {| fonts := None; fallbacks := None |}
                       (resolveFontFace options F (resolveArguments fo))))
      as [[|first others]|]; done.
  - cbn [resume]. by apply declarationLoop_dev.
Qed.

Lemma run_dev schedule :
  isDev plugin = true →
  ∀ σ tasks,
    Forall (λ t, isAwaitTransform t = false) tasks →
    Forall (λ t, isAwaitTransform t = false) (runAll schedule σ tasks).2.
Proof.
  intros Hdev.
  induction schedule as [|i schedule IH]; intros σ tasks Hall; [done|].
  cbn [run]. destruct (tasks !! i) as [t|] eqn:Hi; [|by apply IH].
  pose proof (resume_dev σ t Hdev) as Hstep.
  destruct (step σ t) as [σ' t']. apply IH, Forall_insert; [done|].
  apply Hstep. by eapply (Forall_lookup_1 _ _ _ _ Hall).
Qed.

(** What a task does when the resolver gave nothing usable for it. *)
Lemma resume_nothing_usable σ t :
  (∀ fontFamily fallbackOptions,
     t = AwaitResolve fontFamily fallbackOptions →
     unresolved (resolveFontFace options fontFamily
                   (resolveArguments fallbackOptions))) →
  isAwaitResolve t = true ∨ t = Settled →
  step σ t = (σ, Settled).
Proof.
  intros Hnothing [Ht | ->]; [|done].
  destruct t as [F fo | | |]; try done.
  specialize (Hnothing F fo eq_refl). cbn [resume]. unfold unresolved in Hnothing.
  destruct (resolveFontFace options F (resolveArguments fo)) as [result|];
    cbn [from_option Datatypes.id fonts]; [|done].
  by destruct Hnothing as [-> | ->].
Qed.

Lemma run_nothing_usable schedule :
  ∀ σ tasks,
    (∀ fontFamily fallbackOptions,
       AwaitResolve fontFamily fallbackOptions ∈ tasks →
       unresolved (resolveFontFace options fontFamily
                     (resolveArguments fallbackOptions))) →
    Forall (λ t, isAwaitResolve t = true ∨ t = Settled) tasks →
    (runAll schedule σ tasks).1 = σ.
Proof.
  induction schedule as [|i schedule IH]; intros σ tasks Hnothing Hall; [done|].
  cbn [run]. destruct (tasks !! i) as [t|] eqn:Hi; [|by apply IH].
  rewrite (resume_nothing_usable σ t).
  - apply IH.
    + intros F fo Hin. apply list_elem_of_lookup in Hin as [j Hj].
      destruct (decide (j = i)) as [->|Hne].
      * rewrite list_lookup_insert_eq in Hj by by eapply lookup_lt_Some. done.
      * rewrite list_lookup_insert_ne in Hj by done.
        eapply Hnothing, list_elem_of_lookup_2, Hj.
    + apply Forall_insert; [done|by right].
  - intros F fo ->. eapply Hnothing, list_elem_of_lookup_2, Hi.
  - by eapply (Forall_lookup_1 _ _ _ _ Hall).
Qed.

(** A schedule that names every task at least as often as its cost settles
    them all. *)
Lemma run_fair schedule :
  ∀ σ tasks,
    (∀ i t, tasks !! i = Some t → price t ≤ count_occ Nat.eq_dec schedule i) →
    forallb isSettled (runAll schedule σ tasks).2 = true.
Proof.
  induction schedule as [|i schedule IH]; intros σ tasks Hfair.
  - cbn [run snd]. apply forallb_forall. intros t Hin.
    apply list_elem_of_In, list_elem_of_lookup in Hin as [j Hj].
    rewrite (cost_zero options t); [done|].
    specialize (Hfair j t Hj). cbn [count_occ] in Hfair. lia.
  - cbn [run]. destruct (tasks !! i) as [t|] eqn:Hi.
    + pose proof (resume_cost options plugin id opts σ t) as Hless.
      destruct (step σ t) as [σ' t'] eqn:Hstep. apply IH.
      intros j t'' Hj. destruct (decide (j = i)) as [->|Hne].
      * rewrite list_lookup_insert_eq in Hj by by eapply lookup_lt_Some.
        injection Hj as <-. specialize (Hfair i t Hi).
        rewrite count_occ_cons_eq in Hfair by done.
        destruct (isSettled t) eqn:Hsettled.
        -- destruct t; try done. cbn in Hstep. injection Hstep as <- <-.
           cbn. lia.
        -- assert (t ≠ Settled) as Hpending by (by intros ->).
           specialize (Hless Hpending). cbn [snd] in Hless. lia.
      * rewrite list_lookup_insert_ne in Hj by done.
        specialize (Hfair j t'' Hj).
        by rewrite count_occ_cons_neq in Hfair by done.
    + apply IH. intros j t' Hj. specialize (Hfair j t' Hj).
      destruct (decide (i = j)) as [->|Hne]; [congruence|].
      by rewrite count_occ_cons_neq in Hfair by done.
Qed.

End Awaits.

Section AwaitsOfRewrite.

Context `{Imports}.
Variable options : FontlessOptions.
Variable plugin : PluginState.

(** X13.  The dev server never minifies.  When the last [configResolved]
    was for the [serve] command, no call of [addFontFaceDeclaration] ever
    waits for [transform], whatever the stylesheet and however the calls
    interleave. *)
Theorem dev_never_awaits_transform (code id : string) (opts : TransformCSSOptions)
    (registry : Registry.t) (schedule : list nat) :
  isDev plugin = true →
  Forall (λ t, isAwaitTransform t = false)
    (run options plugin id opts schedule (initialState code registry)
       (processNode options (parse code) 0 ∅ []).2).2.
Proof.
  intros Hdev. apply run_dev; [done|].
  destruct (processNode_origins options (parse code) 0 ∅) as (origins & -> & _).
  apply Forall_fmap, Forall_forall. by intros origin _.
Qed.

(** X14.  A rewrite in which the resolver gives nothing usable.  When
    [resolveFontFace] returns nothing, no [fonts] or an empty list for every
    family the second walk scheduled, the rewrite returns the stylesheet
    with no edit and the registry it was given, and reports no change. *)
Theorem nothing_resolved_nothing_changed (code id : string)
    (opts : TransformCSSOptions) (registry : Registry.t) (schedule : list nat)
    (s0 : MagicString.t) (registry' : Registry.t) :
  (∀ fontFamily fallbackOptions,
     AwaitResolve fontFamily fallbackOptions
       ∈ (processNode options (parse code) 0 ∅ []).2 →
     unresolved (resolveFontFace options fontFamily
                   (resolveArguments fallbackOptions))) →
  transformCSS options plugin code id opts registry schedule = Some (s0, registry') →
  s0 = MagicString.new code
  ∧ registry' = registry
  ∧ MagicString.hasChanged s0 = false.
Proof.
  intros Hnothing. unfold transformCSS.
  destruct (processNode_origins options (parse code) 0 ∅) as (origins & Hp & _).
  destruct (processNode options (parse code) 0 ∅ []) as [existing promises].
  cbn [snd] in Hp, Hnothing.
  pose proof (run_nothing_usable options plugin id opts schedule
                (initialState code registry) promises Hnothing) as Hsame.
  destruct (run options plugin id opts schedule (initialState code registry)
              promises) as [σ tasks].
  cbn [fst] in Hsame. rewrite Hsame.
  - destruct (forallb isSettled tasks); [|done]. intros [= <- <-].
    split; [done|]. split; [done|]. apply hasChanged_new.
  - subst promises. apply Forall_fmap, Forall_forall. intros origin _. by left.
Qed.

(** X15.  The rewrite returns under every fair schedule.  Each call of
    [addFontFaceDeclaration] needs at most [cost] resumptions: one for the
    resolver and, for each font, one for its fallbacks and one for each of
    its declarations.  A schedule that resumes every call at least that
    often, in whatever order, lets [Promise.all] settle and [transformCSS]
    return. *)
Theorem fair_schedule_returns (code id : string) (opts : TransformCSSOptions)
    (registry : Registry.t) (schedule : list nat) :
  (∀ i t, (processNode options (parse code) 0 ∅ []).2 !! i = Some t →
          cost options t ≤ count_occ Nat.eq_dec schedule i) →
  is_Some (transformCSS options plugin code id opts registry schedule).
Proof.
  intros Hfair. unfold transformCSS.
  destruct (processNode options (parse code) 0 ∅ []) as [existing promises].
  cbn [snd] in Hfair.
  pose proof (run_fair options plugin id opts schedule
                (initialState code registry) promises Hfair) as Hsettled.
  destruct (run options plugin id opts schedule (initialState code registry)
              promises) as [σ tasks].
  cbn [snd] in Hsettled. rewrite Hsettled. eauto.
Qed.

End AwaitsOfRewrite.

(** The dev server's rewrite of the sample with two uses of "Foo". *)
Lemma dev_never_awaits_transform_witness :
  Forall (λ t, isAwaitTransform t = false)
    (run (H := Sample.imports) Sample.options Sample.serve "k"
       {| relative := Some true |} [0; 1; 1; 0]
       (initialState Sample.sheetTwice Registry.empty)
       (processNode (H := Sample.imports) Sample.options
          (parse (Imports := Sample.imports) Sample.sheetTwice) 0 ∅ []).2).2.
Proof.
  apply (dev_never_awaits_transform (H := Sample.imports) Sample.options
           Sample.serve Sample.sheetTwice "k" {| relative := Some true |}
           Registry.empty [0; 1; 1; 0]).
  reflexivity.
Defined.

(** The rewrite of [a{font-family:'Foo'}] with a resolver that knows no
    family. *)
Lemma nothing_resolved_nothing_changed_witness :
  ∃ s0,
    transformCSS (H := Sample.imports)
      {| resolveFontFace := λ _ _, None; processCSSVariables := None;
         shouldPreload := λ _ _, true |}
      Sample.build Sample.sheetFoo "k"
      {| relative := Some true |} Registry.empty [0]
    = Some (s0, Registry.empty)
    ∧ s0 = MagicString.new Sample.sheetFoo
    ∧ MagicString.hasChanged s0 = false.
Proof.
  destruct (transformCSS (H := Sample.imports)
              {| resolveFontFace := λ _ _, None; processCSSVariables := None;
                 shouldPreload := λ _ _, true |}
              Sample.build
              Sample.sheetFoo "k" {| relative := Some true |} Registry.empty [0])
    as [[s0 registry']|] eqn:Hresult;
    [|vm_compute in Hresult; discriminate Hresult].
  destruct (nothing_resolved_nothing_changed (H := Sample.imports)
              {| resolveFontFace := λ _ _, None; processCSSVariables := None;
                 shouldPreload := λ _ _, true |}
              Sample.build _ _ _ _ _ _ _ (λ _ _ _, I) Hresult)
    as (Hs & -> & Hsame).
  by exists s0.
Defined.

(** The two uses of "Foo": each call costs four resumptions in a build, and
    the schedule names each of them four times. *)
Lemma fair_schedule_returns_witness :
  is_Some (transformCSS (H := Sample.imports) Sample.options Sample.build
             Sample.sheetTwice "k" {| relative := Some true |} Registry.empty
             [1; 1; 0; 1; 0; 0; 1; 0]).
Proof.
  apply (fair_schedule_returns (H := Sample.imports) Sample.options Sample.build).
  intros [|[|i]] t Hi; vm_compute in Hi; [| |discriminate Hi];
    injection Hi as <-; vm_compute; lia.
Defined.
